(** * time_finder: recognition of time expressions in a sentence

    A shallow embedding of [nlp/algorithms/finder/time_finder.py] and the
    properties of its matching-and-resolution engine.

    Layout of the development:
    - [Chars]      characters, character classes and case mapping;
    - [Regex]      the fragment of Python's [re] that the module uses: syntax,
                   a backtracking matcher, [match], [search] and [finditer];
    - the pattern catalog ([_str_*], [_regex_*], [_regexes]);
    - [_has_overlap], [_remove_overlap], [_clean_sentence] and [run];
    - the vocabulary of the statements: [greedy], [path], [scanned], ...;
    - the lemmas: overlap resolution, the matcher, the fields, letter case;
    - the properties of the engine, C1 to C10;
    - further properties of the functions of the module, X1 to X20.

    Strings are lists of 8-bit characters, read as the code points
    U+0000..U+00FF; text with code points above U+00FF is outside the model.
    Offsets and the integer fields are Python integers, modelled by [Z]. *)

From Stdlib Require Import Ascii String.
From Stdlib Require Import List Arith Bool ZArith Lia Sorted Permutation.
Import Datatypes ListNotations.

Set Implicit Arguments.

Local Open Scope nat_scope.

(* ------------------------------------------------------------------------- *)
(** * Characters *)

Module Chars.

Local Open Scope N_scope.

Definition code (c : ascii) : N := N_of_ascii c.

(** [lo <= c <= hi], the meaning of a range [[lo-hi]] in a character set. *)
Definition in_range (lo hi c : ascii) : bool :=
  (code lo <=? code c) && (code c <=? code hi).

Definition is_upper (c : ascii) : bool := in_range "A" "Z" c.
Definition is_lower (c : ascii) : bool := in_range "a" "z" c.

(** [[0-9]]: the ten ASCII digits. *)
Definition is_digit (c : ascii) : bool := in_range "0" "9" c.

(** [\d] in a pattern on [str]: the decimal digits of Unicode (category
    Nd).  The module writes the ISO fraction and its lookaheads with [\d]
    and everything else with [[0-9]].  Among the code points below U+0100
    the decimal digits are the ASCII ones; beyond them [\d] takes the other
    decimal digits too (U+0661 and the like), which [[0-9]] does not. *)
Definition is_decimal (c : ascii) : bool := in_range "0" "9" c.

(** [\s] for a str pattern: the ASCII white space (tab to carriage return,
    the four information separators U+001C..U+001F, space), next line
    U+0085 and no-break space U+00A0. *)
Definition is_space (c : ascii) : bool :=
  let n := code c in
  ((9 <=? n) && (n <=? 13)) || ((28 <=? n) && (n <=? 32))
  || (n =? 133) || (n =? 160).

(** Alphanumeric code points below U+0100 (str.isalnum): ASCII letters and
    digits, the ordinal indicators, micro sign, superscript digits, vulgar
    fractions and the Latin-1 letters (all of U+00C0..U+00FF but the
    multiplication and division signs). *)
Definition is_alnum (c : ascii) : bool :=
  let n := code c in
  is_digit c || is_upper c || is_lower c
  || (n =? 170) || (n =? 178) || (n =? 179) || (n =? 181)
  || (n =? 185) || (n =? 186) || ((188 <=? n) && (n <=? 190))
  || ((192 <=? n) && negb (n =? 215) && negb (n =? 247)).

(** [\w]: alphanumeric or underscore. *)
Definition is_word (c : ascii) : bool := is_alnum c || Ascii.eqb c "_".

(** A position outside the string counts as a non-word character for [\b]. *)
Definition is_word_opt (o : option ascii) : bool :=
  match o with Some c => is_word c | None => false end.

(** Case mapping of the ASCII letters.  The other letters below U+0100 map to
    code points that are not ASCII, so they never meet the sets and literals
    of the catalog, which are all ASCII; they are left in place. *)
Definition to_lower (c : ascii) : ascii :=
  if is_upper c then ascii_of_N (code c + 32) else c.
Definition to_upper (c : ascii) : ascii :=
  if is_lower c then ascii_of_N (code c - 32) else c.

(** Membership in a character set under [re.IGNORECASE]. *)
Definition ci (p : ascii -> bool) (c : ascii) : bool :=
  p c || p (to_lower c) || p (to_upper c).

(** [c] is one of the characters of [l], a set written [[...]]. *)
Definition one_of (l : string) (c : ascii) : bool :=
  existsb (Ascii.eqb c) (list_ascii_of_string l).

End Chars.
Import Chars.

(** Python [str] values. *)
Definition str := list ascii.
Definition py (s : string) : str := list_ascii_of_string s.

(** [s[a:b]] for [0 <= a <= b]. *)
Definition slice (s : str) (a b : nat) : str := firstn (b - a) (skipn a s).

(* ------------------------------------------------------------------------- *)
(** * Regular expressions *)

Module Regex.

(** The names of the groups used by the catalog ([g_hours] is the group
    [hours], and so on). *)
Inductive gname :=
| g_hours | g_minutes | g_seconds | g_frac | g_am_pm | g_timezone | g_gmt_delta
| g_gmt_sign | g_gmt_hours | g_gmt_minutes.

Definition gname_eqb (a b : gname) : bool :=
  match a, b with
  | g_hours, g_hours | g_minutes, g_minutes | g_seconds, g_seconds
  | g_frac, g_frac | g_am_pm, g_am_pm | g_timezone, g_timezone
  | g_gmt_delta, g_gmt_delta | g_gmt_sign, g_gmt_sign
  | g_gmt_hours, g_gmt_hours | g_gmt_minutes, g_gmt_minutes => true
  | _, _ => false
  end.

(** The syntax the catalog needs.  Repetition only ever applies to a single
    character set ([\s*], [[0-9]+], [\d+]); groups without a name only
    bracket and are not represented. *)
Inductive regex :=
| Eps
| Chr (p : ascii -> bool)          (* a literal or a character set *)
| Seq (r1 r2 : regex)              (* r1 r2 *)
| Alt (r1 r2 : regex)              (* r1|r2, r1 tried first *)
| Opt (r : regex)                  (* r?, greedy *)
| Star (p : ascii -> bool)         (* [p]*, greedy *)
| Group (n : gname) (r : regex)    (* (?P<n>r) *)
| WordB                            (* \b *)
| NotDigitAhead.                   (* (?!\d) *)

(** The matcher's position: the character before it, its offset, and the
    text from it on. *)
Record cursor := Cursor { c_prev : option ascii; c_pos : nat; c_rest : str }.

Definition start_of (s : str) : cursor := Cursor None 0 s.
Definition advance (c : cursor) (x : ascii) (t : str) : cursor :=
  Cursor (Some x) (S (c_pos c)) t.

(** Captured groups: name and span, latest first. *)
Definition caps := list (gname * (nat * nat)).

Fixpoint lookup (n : gname) (g : caps) : option (nat * nat) :=
  match g with
  | [] => None
  | (m, sp) :: g' => if gname_eqb n m then Some sp else lookup n g'
  end.

Section Matcher.
Variable A : Type.

(** Greedy [p*]: take characters while they are in the set, then give them
    back one at a time until the continuation succeeds. *)
Fixpoint star (p : ascii -> bool) (prev : option ascii) (pos : nat)
         (rest : str) (g : caps) (k : cursor -> caps -> option A) : option A :=
  match rest with
  | x :: t =>
      if p x then
        match star p (Some x) (S pos) t g k with
        | Some a => Some a
        | None => k (Cursor prev pos rest) g
        end
      else k (Cursor prev pos rest) g
  | [] => k (Cursor prev pos rest) g
  end.

(** Backtracking matching in continuation-passing style: [k] is the rest of
    the pattern; alternatives are tried in the order of the pattern and a
    failure of [k] falls back to the next one. *)
Fixpoint rmatch (r : regex) (c : cursor) (g : caps)
         (k : cursor -> caps -> option A) : option A :=
  match r with
  | Eps => k c g
  | Chr p =>
      match c_rest c with
      | x :: t => if p x then k (advance c x t) g else None
      | [] => None
      end
  | Seq r1 r2 => rmatch r1 c g (fun c1 g1 => rmatch r2 c1 g1 k)
  | Alt r1 r2 =>
      match rmatch r1 c g k with
      | Some a => Some a
      | None => rmatch r2 c g k
      end
  | Opt r1 =>
      match rmatch r1 c g k with
      | Some a => Some a
      | None => k c g
      end
  | Star p => star p (c_prev c) (c_pos c) (c_rest c) g k
  | Group n r1 =>
      rmatch r1 c g (fun c1 g1 => k c1 ((n, (c_pos c, c_pos c1)) :: g1))
  | WordB =>
      if xorb (is_word_opt (c_prev c)) (is_word_opt (hd_error (c_rest c)))
      then k c g else None
  | NotDigitAhead =>
      match c_rest c with
      | x :: _ => if is_decimal x then None else k c g
      | [] => k c g
      end
  end.

End Matcher.

(** A match object: where the match ends and what the groups captured.
    Offsets are those of the string the cursor came from. *)
Definition mobj := (nat * caps)%type.

Definition accept (c : cursor) (g : caps) : option mobj := Some (c_pos c, g).

(** One attempt at the cursor's position. *)
Definition match_at (r : regex) (c : cursor) : option mobj :=
  rmatch r c [] accept.

(** [regex.match(s)]: an attempt at offset 0 only. *)
Definition re_match (r : regex) (s : str) : option mobj :=
  match_at r (start_of s).

(** [regex.search(s)]: the first offset, from the left, where an attempt
    succeeds; the result is the start together with the match object. *)
Fixpoint search_from (r : regex) (prev : option ascii) (pos : nat)
         (rest : str) : option (nat * mobj) :=
  match match_at r (Cursor prev pos rest) with
  | Some m => Some (pos, m)
  | None =>
      match rest with
      | x :: t => search_from r (Some x) (S pos) t
      | [] => None
      end
  end.

Definition re_search (r : regex) (s : str) : option (nat * mobj) :=
  search_from r None 0 s.

(** [regex.finditer(s)]: the matches of one left-to-right sweep; after a
    match the sweep goes on from its end ([next] is the first offset still
    open).  No pattern of the catalog matches the empty string; after an
    empty match the sweep moves one character on. *)
Fixpoint sweep (r : regex) (prev : option ascii) (pos : nat) (rest : str)
         (next : nat) : list (nat * mobj) :=
  let found :=
    if pos <? next then None else match_at r (Cursor prev pos rest) in
  let next' :=
    match found with
    | Some (e, _) => Nat.max e (S pos)
    | None => next
    end in
  let here :=
    match found with
    | Some m => [(pos, m)]
    | None => []
    end in
  match rest with
  | x :: t => here ++ sweep r (Some x) (S pos) t next'
  | [] => here
  end.

Definition finditer (r : regex) (s : str) : list (nat * mobj) :=
  sweep r None 0 s 0.

(** The names of the groups of a pattern, in the order they open. *)
Fixpoint gnames (r : regex) : list gname :=
  match r with
  | Seq r1 r2 | Alt r1 r2 => gnames r1 ++ gnames r2
  | Opt r1 => gnames r1
  | Group n r1 => n :: gnames r1
  | _ => []
  end.

(** [match.groupdict()] over the string [s] that was matched: every named
    group of the pattern with the text it captured, [None] when it took no
    part in the match. *)
Definition groupdict (r : regex) (s : str) (m : mobj) : list (gname * option str) :=
  map (fun n =>
         (n, match lookup n (snd m) with
             | Some (a, b) => Some (slice s a b)
             | None => None
             end))
      (gnames r).

(** Compilation with [re.IGNORECASE]: literals and sets match either case. *)
Fixpoint ignorecase (r : regex) : regex :=
  match r with
  | Chr p => Chr (ci p)
  | Star p => Star (ci p)
  | Seq r1 r2 => Seq (ignorecase r1) (ignorecase r2)
  | Alt r1 r2 => Alt (ignorecase r1) (ignorecase r2)
  | Opt r1 => Opt (ignorecase r1)
  | Group n r1 => Group n (ignorecase r1)
  | Eps => Eps
  | WordB => WordB
  | NotDigitAhead => NotDigitAhead
  end.

(** Pattern-building shorthands. *)
Definition lit (c : ascii) : regex := Chr (Ascii.eqb c).
Definition rng (lo hi : ascii) : regex := Chr (in_range lo hi).
Definition set (l : string) : regex := Chr (one_of l).
Definition plus (p : ascii -> bool) : regex := Seq (Chr p) (Star p).

Fixpoint word (l : str) : regex :=
  match l with
  | [] => Eps
  | [c] => lit c
  | c :: t => Seq (lit c) (word t)
  end.

Fixpoint alts (l : list regex) : regex :=
  match l with
  | [] => Eps
  | [r] => r
  | r :: t => Alt r (alts t)
  end.

End Regex.
Import Regex.

Declare Scope re_scope.
Delimit Scope re_scope with re.
Infix "+++" := Seq (at level 61, left associativity) : re_scope.
Local Open Scope re_scope.

(* ------------------------------------------------------------------------- *)
(** * The pattern catalog *)

(** The alternatives of a set of words written [w1|w2|...]. *)
Fixpoint split_bar (acc : str) (l : str) : list str :=
  match l with
  | [] => [rev acc]
  | c :: t =>
      if Ascii.eqb c "|" then rev acc :: split_bar [] t
      else split_bar (c :: acc) t
  end.

Definition words (l : string) : regex :=
  alts (map word (split_bar [] (list_ascii_of_string l))).

(** fractional seconds: [[.:][0-9]+] *)
Definition _str_frac : regex := set ".:" +++ plus is_digit.

(** hours, 12-hour clock: [(0?[1-9]|1[0-2])] *)
Definition _str_h12 : regex :=
  Alt (Opt (lit "0") +++ rng "1" "9") (lit "1" +++ rng "0" "2").

(** hours, 24-hour clock: [([01][0-9]|2[0-4])] *)
Definition _str_h24 : regex :=
  Alt (set "01" +++ rng "0" "9") (lit "2" +++ rng "0" "4").

(** am or pm: [[aApP]\.?[mM]\.?] *)
Definition _str_am_pm : regex :=
  set "aApP" +++ Opt (lit ".") +++ set "mM" +++ Opt (lit ".").

(** minutes: [[0-5][0-9]] *)
Definition _str_MM : regex := rng "0" "5" +++ rng "0" "9".

(** world time zones (with 'Z' for Zulu == zero meridian) *)
Definition _str_time_zone_abbrev : regex :=
  words ("ACDT|ACST|ACT|ACWST|ADT|AEDT|AEST|AFT|AKDT|"
      ++ "AKST|AMST|AMT|ART|AST|AWST|AZOST|AZOT|AZT|BDT|"
      ++ "BIOT|BIT|BOT|BRST|BRT|BST|BTT|CAT|CCT|CDT|CEST|"
      ++ "CET|CHADT|CHAST|CHOT|CHOST|CHST|CHUT|CIST|CIT|"
      ++ "CKT|CLST|CLT|COST|COT|CST|CT|CVT|CWST|CXT|DAVT|"
      ++ "DDUT|DFT|EASST|EAST|EAT|ECT|EDT|EEST|EET|EGST|"
      ++ "EGT|EIT|EST|FET|FJT|FKST|FKT|FNT|GALT|GAMT|GET|"
      ++ "GFT|GILT|GIT|GMT|GST|GYT|HDT|HAEC|HST|HKT|HMT|"
      ++ "HOVST|HOVT|ICT|IDLW|IDT|IOT|IRDT|IRKT|IRST|IST|"
      ++ "JST|KGT|KOST|KRAT|KST|LHST|LINT|MAGT|MART|MAWT|"
      ++ "MDT|MET|MEST|MHT|MIST|MIT|MMT|MSK|MST|MUT|MVT|"
      ++ "MYT|NCT|NDT|NFT|NPT|NST|NT|NUT|NZDT|NZST|OMST|"
      ++ "ORAT|PDT|PET|PETT|PGT|PHOT|PHT|PKT|PMDT|PMST|"
      ++ "PONT|PST|PYST|PYT|RET|ROTT|SAKT|SAMT|SAST|SBT|"
      ++ "SCT|SDT|SGT|SLST|SRET|SRT|SST|SYOT|THAT|THA|TFT|"
      ++ "TJT|TKT|TLT|TMT|TRT|TOT|TVT|ULAST|ULAT|USZ1|UTC|"
      ++ "UYST|UYT|UZT|VET|VLAT|VOLT|VOST|VUT|WAKT|WAST|"
      ++ "WAT|WEST|WET|WIT|WST|YAKT|YEKT|Z")%string.

(** separator, colon only: [[:]] *)
Definition _str_sep : regex := set ":".

(** t or T, to indicate time: [\b[tT]?] *)
Definition _str_t : regex := WordB +++ Opt (set "tT").

(** white space, any amount: [\s*] *)
Definition _str_ws : regex := Star is_space.

(** ** 12 hour notation *)

(** hour only, with am_pm: 4 am, 5PM, 10a.m., 9 pm. *)
Definition _str_h12_am_pm : regex :=
  WordB +++ Group g_hours _str_h12 +++ _str_ws +++ Group g_am_pm _str_am_pm.
Definition _regex_h12_am_pm : regex := _str_h12_am_pm.

(** hour and minutes: 4:08, 10:14 *)
Definition _str_h12m : regex :=
  WordB +++ Group g_hours _str_h12 +++ _str_sep
  +++ Group g_minutes (_str_MM +++ NotDigitAhead).
Definition _regex_h12m : regex := _str_h12m.

(** hour and minutes, with am_pm: 5:09 am, 9:41 P.M., 10:02 AM *)
Definition _str_h12m_am_pm : regex :=
  WordB +++ Group g_hours _str_h12 +++ _str_sep
  +++ Group g_minutes _str_MM +++ _str_ws
  +++ Group g_am_pm (_str_am_pm +++ NotDigitAhead).
Definition _regex_h12m_am_pm : regex := _str_h12m_am_pm.

(** hour, minutes, and seconds, with am_pm: 6:10:37 am, 7:19:19P.M. *)
Definition _str_h12ms_am_pm : regex :=
  WordB +++ Group g_hours _str_h12 +++ _str_sep
  +++ Group g_minutes _str_MM +++ _str_sep
  +++ Group g_seconds _str_MM +++ _str_ws
  +++ Group g_am_pm _str_am_pm.
Definition _regex_h12ms_am_pm : regex := _str_h12ms_am_pm.

(** hour, minutes, seconds, and fraction, with am_pm:
    7:11:39:123123 am and 9:41:22.22334p.m. *)
Definition _str_h12msf_am_pm : regex :=
  WordB +++ Group g_hours _str_h12 +++ lit ":"
  +++ Group g_minutes _str_MM +++ lit ":"
  +++ Group g_seconds _str_MM
  +++ Group g_frac _str_frac +++ _str_ws
  +++ Group g_am_pm _str_am_pm.
Definition _regex_h12msf_am_pm : regex := _str_h12msf_am_pm.

(** ** 24 hour notation *)

(** hour and minutes: 08:12, T23:43 *)
Definition _str_h24m : regex :=
  _str_t +++ Group g_hours _str_h24 +++ _str_sep
  +++ Group g_minutes (_str_MM +++ NotDigitAhead).
Definition _regex_h24m : regex := _str_h24m.

(** hour and minutes, no colon *)
Definition _str_h24m_no_colon : regex :=
  _str_t +++ Group g_hours _str_h24
  +++ Group g_minutes (_str_MM +++ NotDigitAhead).
Definition _regex_h24m_no_colon : regex := _str_h24m_no_colon.

(** hour, minutes, and seconds: 01:03:24, t14:15:16 *)
Definition _str_h24ms : regex :=
  _str_t +++ Group g_hours _str_h24 +++ _str_sep
  +++ Group g_minutes _str_MM +++ _str_sep
  +++ Group g_seconds (_str_MM +++ NotDigitAhead).
Definition _regex_h24ms : regex := _str_h24ms.

(** hour, minutes, and seconds, no colon *)
Definition _str_h24ms_no_colon : regex :=
  _str_t +++ Group g_hours _str_h24
  +++ Group g_minutes _str_MM
  +++ Group g_seconds (_str_MM +++ NotDigitAhead).
Definition _regex_h24ms_no_colon : regex := _str_h24ms_no_colon.

(** hour, minutes, seconds, and timezone: 040837EST, 112345 HOVST, T093000 Z *)
Definition _str_h24ms_with_timezone : regex :=
  _str_t +++ Group g_hours _str_h24
  +++ Group g_minutes _str_MM
  +++ Group g_seconds _str_MM +++ _str_ws
  +++ Group g_timezone _str_time_zone_abbrev.
Definition _regex_h24ms_with_timezone : regex :=
  ignorecase _str_h24ms_with_timezone.

(** hour, minutes, seconds with GMT delta:
    [(GMT|UTC)?[-+]] h24 [:?(] MM [)?] *)
Definition _str_gmt_delta : regex :=
  Opt (words "GMT|UTC") +++ set "-+" +++ _str_h24 +++ Opt (lit ":")
  +++ Opt _str_MM.
Definition _str_h24ms_with_gmt_delta : regex :=
  _str_t +++ Group g_hours _str_h24
  +++ Group g_minutes _str_MM
  +++ Group g_seconds _str_MM +++ _str_ws
  +++ Group g_gmt_delta _str_gmt_delta.

(** decipher the gmt_delta components *)
Definition _str_gmt : regex :=
  Opt (words "GMT|UTC") +++ Group g_gmt_sign (set "-+")
  +++ Group g_gmt_hours _str_h24 +++ Opt (lit ":")
  +++ Opt (Group g_gmt_minutes _str_MM).
Definition _regex_gmt : regex := _str_gmt.

Definition _regex_h24ms_with_gmt_delta : regex :=
  ignorecase _str_h24ms_with_gmt_delta.

(** hour, minutes, seconds, and fraction *)
Definition _str_h24msf : regex :=
  _str_t +++ Group g_hours _str_h24 +++ _str_sep
  +++ Group g_minutes _str_MM +++ _str_sep
  +++ Group g_seconds _str_MM
  +++ Group g_frac _str_frac.
Definition _regex_h24msf : regex := _str_h24msf.

(** ** ISO8601 formats *)

Definition _str_iso_hh : regex :=
  Alt (set "01" +++ rng "0" "9") (lit "2" +++ rng "0" "4").
Definition _str_iso_mm : regex := rng "0" "5" +++ rng "0" "9".
Definition _str_iso_ss : regex :=
  Alt (rng "0" "5" +++ rng "0" "9") (word (py "60")).

Definition _str_iso_zone_hm : regex :=
  Group g_gmt_hours _str_iso_hh
  +++ Opt (Opt (lit ":") +++ Group g_gmt_minutes _str_iso_mm).

Definition _str_iso_zone : regex :=
  Alt (Group g_timezone (lit "Z"))
      (Group g_gmt_sign (set "-+") +++ _str_iso_zone_hm).

(** note the essential negative lookahead in these *)
Definition _str_iso_hh_only : regex :=
  WordB +++ Group g_hours (_str_iso_hh +++ NotDigitAhead)
  +++ Opt (Group g_gmt_delta _str_iso_zone).

Definition _str_iso_hhmm_only : regex :=
  WordB +++ Group g_hours _str_iso_hh
  +++ Group g_minutes (_str_iso_mm +++ NotDigitAhead)
  +++ Opt (Group g_gmt_delta _str_iso_zone).

(** The fraction is [\.\d+]: a point and decimal digits. *)
Definition _str_iso_hms : regex :=
  WordB +++ Group g_hours _str_iso_hh +++ Opt (lit ":")
  +++ Group g_minutes _str_iso_mm +++ Opt (lit ":")
  +++ Group g_seconds _str_iso_ss
  +++ Opt (Group g_frac (lit "." +++ plus is_decimal)).

Definition _str_iso_time : regex :=
  _str_iso_hms +++ Opt (Group g_gmt_delta _str_iso_zone).

Definition _regex_iso_hh : regex := _str_iso_hh_only.
Definition _regex_iso_hhmm : regex := _str_iso_hhmm_only.
Definition _regex_iso_time : regex := _str_iso_time.

Definition _regexes : list regex :=
  [ _regex_iso_hhmm;             (* 0 *)
    _regex_iso_hh;               (* 1 *)
    _regex_iso_time;             (* 2 *)
    _regex_h24ms_with_gmt_delta; (* 3 *)
    _regex_h24ms_with_timezone;  (* 4 *)
    _regex_h24ms_no_colon;       (* 5 *)
    _regex_h24m_no_colon;        (* 6 *)
    _regex_h12msf_am_pm;         (* 7 *)
    _regex_h12ms_am_pm;          (* 8 *)
    _regex_h12m_am_pm;           (* 9 *)
    _regex_h12_am_pm;            (* 10 *)
    _regex_h24msf;               (* 11 *)
    _regex_h24ms;                (* 12 *)
    _regex_h24m;                 (* 13 *)
    _regex_h12m                  (* 14 *)
  ].

(** match (), {}, and [] *)
Definition _str_brackets (c : ascii) : bool := one_of "(){}[]" c.


(* ------------------------------------------------------------------------- *)
(** * Results and exceptions *)

(** What a call can raise.  [Diverged] is not a Python exception: it marks a
    loop of the model that used up its budget of iterations, and is shown
    never to happen. *)
Inductive exn := AssertionError | IndexError | ValueError | Diverged.

Inductive result (A : Type) :=
| Ok (a : A)
| Raise (e : exn).
Arguments Ok {A} a.
Arguments Raise {A} e.

Definition bind {A B} (m : result A) (f : A -> result B) : result B :=
  match m with
  | Ok a => f a
  | Raise e => Raise e
  end.

Notation "x <- m ;; f" := (bind m (fun x => f))
  (at level 62, m at next level, right associativity).

(** A loop over a list that threads a state and stops at the first raise. *)
Fixpoint foldM {S X} (f : S -> X -> result S) (l : list X) (st : S) : result S :=
  match l with
  | [] => Ok st
  | x :: t => st' <- f st x ;; foldM f t st'
  end.

Fixpoint mapM {X Y} (f : X -> result Y) (l : list X) : result (list Y) :=
  match l with
  | [] => Ok []
  | x :: t => y <- f x ;; ys <- mapM f t ;; Ok (y :: ys)
  end.

(** [l[i]] *)
Definition getitem {X} (l : list X) (i : nat) : result X :=
  match nth_error l i with
  | Some a => Ok a
  | None => Raise IndexError
  end.

(** [sorted(l, key=key, reverse=reverse)]: the stable sort.  An element goes
    in front of the first one that does not have to precede it, so elements
    with equal keys keep their order, in both directions. *)
Section Sorted.
Variable X : Type.
Variable key : X -> Z.
Variable reverse : bool.

Definition precedes (y x : X) : bool :=
  if reverse then (key x <? key y)%Z else (key y <? key x)%Z.

Fixpoint insert (x : X) (l : list X) : list X :=
  match l with
  | [] => [x]
  | y :: t => if precedes y x then y :: insert x t else x :: l
  end.

Definition sorted (l : list X) : list X := fold_right insert [] l.
End Sorted.

(* ------------------------------------------------------------------------- *)
(** * The module *)

(** default value for all fields: [EMPTY_FIELD = None], the [None] of
    [option]. *)

Definition TIME_VALUE_FIELDS : list string :=
  [ "text"; "start"; "end"; "hours"; "minutes"; "seconds";
    "fractional_seconds"; "am_pm"; "timezone"; "gmt_delta_sign";
    "gmt_delta_hours"; "gmt_delta_minutes" ]%string.

Record TimeValue := mkTimeValue {
  text : str;
  start : Z;
  end_ : Z;
  hours : option Z;
  minutes : option Z;
  seconds : option Z;
  fractional_seconds : option str;
  am_pm : option str;
  timezone : option str;
  gmt_delta_sign : option str;
  gmt_delta_hours : option Z;
  gmt_delta_minutes : option Z
}.

(** The values a field holds in the JSON output. *)
Inductive jvalue := JNull | JInt (z : Z) | JStr (s : str).

Definition jint (o : option Z) : jvalue :=
  match o with Some z => JInt z | None => JNull end.
Definition jstr (o : option str) : jvalue :=
  match o with Some s => JStr s | None => JNull end.

(** [r._asdict()], what [json.dumps] is given for each result. *)
Definition _asdict (r : TimeValue) : list (string * jvalue) :=
  [ ("text", JStr (text r)); ("start", JInt (start r)); ("end", JInt (end_ r));
    ("hours", jint (hours r)); ("minutes", jint (minutes r));
    ("seconds", jint (seconds r));
    ("fractional_seconds", jstr (fractional_seconds r));
    ("am_pm", jstr (am_pm r)); ("timezone", jstr (timezone r));
    ("gmt_delta_sign", jstr (gmt_delta_sign r));
    ("gmt_delta_hours", jint (gmt_delta_hours r));
    ("gmt_delta_minutes", jint (gmt_delta_minutes r)) ]%string.

Definition STR_AM : str := py "am".
Definition STR_PM : str := py "pm".

Record _Candidate := mkCandidate {
  cand_start : Z;
  cand_end : Z;
  cand_match_text : str;
  cand_regex : regex
}.

(** Determine if intervals [a1, b1) and [a2, b2) overlap at all. *)
Definition _has_overlap (a1 b1 a2 b2 : Z) : result bool :=
  if negb (a1 <=? b1)%Z then Raise AssertionError
  else if negb (a2 <=? b2)%Z then Raise AssertionError
  else if (b2 <=? a1)%Z then Ok false
  else if (a2 >=? b1)%Z then Ok false
  else Ok true.

(** The variables of the inner loop of [_remove_overlap]. *)
Record scan_state := mkScan {
  start_i : Z;
  end_i : Z;
  len_i : Z;
  candidate_index : nat;
  overlaps : list nat
}.

(** The body of [while j < len(indices)] for one [j]. *)
Definition scan_step (candidates : list _Candidate) (indices : list nat)
           (st : scan_state) (j : nat) : result scan_state :=
  index_j <- getitem indices j ;;
  cj <- getitem candidates index_j ;;
  let start_j := cand_start cj in
  let end_j := cand_end cj in
  let len_j := (end_j - start_j)%Z in
  (* does candidate[j] overlap candidate[i] at all *)
  ov <- _has_overlap (start_i st) (end_i st) start_j end_j ;;
  if ov then
    let overlaps' := overlaps st ++ [j] in
    (* keep the longest match at any overlap region *)
    if (len_j >? len_i st)%Z then
      Ok (mkScan start_j end_j len_j index_j overlaps')
    else
      Ok (mkScan (start_i st) (end_i st) (len_i st) (candidate_index st) overlaps')
  else Ok st.

(** remove all overlaps: the [indices[k]] with [k] not in [overlaps]. *)
Definition remove_positions (indices overlaps : list nat) : list nat :=
  map snd
      (filter (fun kv => negb (existsb (Nat.eqb (fst kv)) overlaps))
              (combine (seq 0 (length indices)) indices)).

(** The outer loop, [while i < len(indices)], with the lists it works on.
    [i] is 0 at the top of every iteration: it is set to 0 before the loop
    and again at the end of its body.  [budget] bounds the iterations. *)
Fixpoint resolve_loop (budget : nat) (candidates : list _Candidate)
         (indices : list nat) (results : list _Candidate)
  : result (list _Candidate) :=
  let i := 0 in
  if length indices <=? i then Ok results
  else
    match budget with
    | O => Raise Diverged
    | S budget' =>
        index_i <- getitem indices i ;;
        ci <- getitem candidates index_i ;;
        let st0 := mkScan (cand_start ci) (cand_end ci)
                          (cand_end ci - cand_start ci)%Z index_i [i] in
        st <- foldM (scan_step candidates indices)
                    (seq (i + 1) (length indices - (i + 1))) st0 ;;
        winner <- getitem candidates (candidate_index st) ;;
        let results := results ++ [winner] in
        let indices := remove_positions indices (overlaps st) in
        if length indices =? 0 then Ok results
        else resolve_loop budget' candidates indices results
    end.

(** Given a set of match candidates, resolve into nonoverlapping matches.
    Take the longest match at any given position.

    ASSUMES that the candidate list has been sorted by matching text length,
    from longest to shortest. *)
Definition _remove_overlap (candidates : list _Candidate)
  : result (list _Candidate) :=
  resolve_loop (length candidates) candidates (seq 0 (length candidates)) [].

(** erase [], {}, or () from the sentence: each becomes one space. *)
Definition _clean_sentence (sentence : str) : str :=
  map (fun c => if _str_brackets c then " "%char else c) sentence.

(** [int(v)] on a non-empty string of ASCII digits.  (Python's [int] also
    takes signs, blanks and underscores; the model raises on them, and the
    groups it is applied to are shown to hold digits only.) *)
Fixpoint int_digits (acc : Z) (v : str) : result Z :=
  match v with
  | [] => Ok acc
  | c :: t =>
      if is_digit c then int_digits (10 * acc + Z.of_N (code c - 48))%Z t
      else Raise ValueError
  end.

Definition py_int (v : str) : result Z :=
  match v with
  | [] => Raise ValueError
  | _ => int_digits 0 v
  end.

(** [-1 != v.find(c)] *)
Definition found (c : ascii) (v : str) : bool := existsb (Ascii.eqb c) v.

Definition str_eqb (a b : str) : bool :=
  if list_eq_dec ascii_dec a b then true else false.

(** The local variables that [run] fills for one pruned candidate. *)
Record locals := mkLocals {
  l_int_hours : option Z;
  l_int_minutes : option Z;
  l_int_seconds : option Z;
  l_frac_seconds : option str;
  l_am_pm : option str;
  l_timezone : option str;
  l_gmt_delta : option str;
  l_gmt_delta_sign : option str;
  l_gmt_delta_hours : option Z;
  l_gmt_delta_minutes : option Z
}.

Definition empty_locals : locals :=
  mkLocals None None None None None None None None None None.

(** The body of [for k2,v2 in match_gmt.groupdict().items()]. *)
Definition gmt_step (st : locals) (kv : gname * option str) : result locals :=
  match snd kv with
  | None => Ok st
  | Some v2 =>
      match fst kv with
      | g_gmt_sign =>
          Ok (mkLocals (l_int_hours st) (l_int_minutes st) (l_int_seconds st)
                (l_frac_seconds st) (l_am_pm st) (l_timezone st)
                (l_gmt_delta st) (Some v2) (l_gmt_delta_hours st)
                (l_gmt_delta_minutes st))
      | g_gmt_hours =>
          n <- py_int v2 ;;
          Ok (mkLocals (l_int_hours st) (l_int_minutes st) (l_int_seconds st)
                (l_frac_seconds st) (l_am_pm st) (l_timezone st)
                (l_gmt_delta st) (l_gmt_delta_sign st) (Some n)
                (l_gmt_delta_minutes st))
      | g_gmt_minutes =>
          n <- py_int v2 ;;
          Ok (mkLocals (l_int_hours st) (l_int_minutes st) (l_int_seconds st)
                (l_frac_seconds st) (l_am_pm st) (l_timezone st)
                (l_gmt_delta st) (l_gmt_delta_sign st) (l_gmt_delta_hours st)
                (Some n))
      | _ => Ok st
      end
  end.

(** The body of [for k,v in match.groupdict().items()]. *)
Definition field_step (st : locals) (kv : gname * option str) : result locals :=
  match snd kv with
  | None => Ok st
  | Some v =>
      match fst kv with
      | g_hours =>
          n <- py_int v ;;
          Ok (mkLocals (Some n) (l_int_minutes st) (l_int_seconds st)
                (l_frac_seconds st) (l_am_pm st) (l_timezone st)
                (l_gmt_delta st) (l_gmt_delta_sign st) (l_gmt_delta_hours st)
                (l_gmt_delta_minutes st))
      | g_minutes =>
          n <- py_int v ;;
          Ok (mkLocals (l_int_hours st) (Some n) (l_int_seconds st)
                (l_frac_seconds st) (l_am_pm st) (l_timezone st)
                (l_gmt_delta st) (l_gmt_delta_sign st) (l_gmt_delta_hours st)
                (l_gmt_delta_minutes st))
      | g_seconds =>
          n <- py_int v ;;
          Ok (mkLocals (l_int_hours st) (l_int_minutes st) (Some n)
                (l_frac_seconds st) (l_am_pm st) (l_timezone st)
                (l_gmt_delta st) (l_gmt_delta_sign st) (l_gmt_delta_hours st)
                (l_gmt_delta_minutes st))
      | g_frac =>
          (* leave as a string; conversion needs to handle leading zeros *)
          Ok (mkLocals (l_int_hours st) (l_int_minutes st) (l_int_seconds st)
                (Some (tl v)) (l_am_pm st) (l_timezone st)
                (l_gmt_delta st) (l_gmt_delta_sign st) (l_gmt_delta_hours st)
                (l_gmt_delta_minutes st))
      | g_am_pm =>
          let a := if found "a" v || found "A" v then STR_AM else STR_PM in
          Ok (mkLocals (l_int_hours st) (l_int_minutes st) (l_int_seconds st)
                (l_frac_seconds st) (Some a) (l_timezone st)
                (l_gmt_delta st) (l_gmt_delta_sign st) (l_gmt_delta_hours st)
                (l_gmt_delta_minutes st))
      | g_timezone =>
          let tz := if str_eqb (py "Z") v then py "UTC" else v in
          Ok (mkLocals (l_int_hours st) (l_int_minutes st) (l_int_seconds st)
                (l_frac_seconds st) (l_am_pm st) (Some tz)
                (l_gmt_delta st) (l_gmt_delta_sign st) (l_gmt_delta_hours st)
                (l_gmt_delta_minutes st))
      | g_gmt_delta =>
          let st1 :=
            mkLocals (l_int_hours st) (l_int_minutes st) (l_int_seconds st)
              (l_frac_seconds st) (l_am_pm st) (l_timezone st)
              (Some v) (l_gmt_delta_sign st) (l_gmt_delta_hours st)
              (l_gmt_delta_minutes st) in
          match re_search _regex_gmt v with
          | Some (_, match_gmt) =>
              foldM gmt_step (groupdict _regex_gmt v match_gmt) st1
          | None => Ok st1
          end
      | _ => Ok st
      end
  end.

(** The body of [for pc in pruned_candidates]: one result. *)
Definition normalize (pc : _Candidate) : result TimeValue :=
  (* used the saved regex to match the saved text again *)
  match re_match (cand_regex pc) (cand_match_text pc) with
  | None => Raise AssertionError
  | Some m =>
      st <- foldM field_step
                  (groupdict (cand_regex pc) (cand_match_text pc) m)
                  empty_locals ;;
      Ok (mkTimeValue (cand_match_text pc) (cand_start pc) (cand_end pc)
            (l_int_hours st) (l_int_minutes st) (l_int_seconds st)
            (l_frac_seconds st) (l_am_pm st) (l_timezone st)
            (l_gmt_delta_sign st) (l_gmt_delta_hours st)
            (l_gmt_delta_minutes st))
  end.

(** The candidates one pattern contributes: every match of its sweep. *)
Definition candidates_of (sentence : str) (regex : regex) : list _Candidate :=
  map (fun m =>
         let start := fst m in
         let end_ := fst (snd m) in
         mkCandidate (Z.of_nat start) (Z.of_nat end_)
                     (slice sentence start end_) regex)
      (finditer regex sentence).

(** All candidates, sorted in descending order of length. *)
Definition candidates_for (sentence : str) : list _Candidate :=
  sorted (fun x => (cand_end x - cand_start x)%Z) true
         (flat_map (candidates_of sentence) _regexes).

(** Find time expressions in the sentence by attempting to match all regexes.
    Avoid matching sub-expressions of already-matched strings.  The value is
    the list of results that the module hands to [json.dumps]. *)
Definition run (sentence : str) : result (list TimeValue) :=
  let sentence := _clean_sentence sentence in
  let candidates := candidates_for sentence in
  pruned_candidates <- _remove_overlap candidates ;;
  results <- mapM normalize pruned_candidates ;;
  (* sort results to match order of occurrence in sentence *)
  Ok (sorted start false results).


(* ------------------------------------------------------------------------- *)
(** * Vocabulary of the statements *)

Local Open Scope Z_scope.

(** The length of a candidate's span, the key of the sort in [run]. *)
Definition clen (c : _Candidate) : Z := cand_end c - cand_start c.

Definition well_formed (c : _Candidate) : Prop := cand_start c <= cand_end c.

(** The test of [_has_overlap] on two candidates, without its assertions. *)
Definition overlapb (a b : _Candidate) : bool :=
  negb (cand_end b <=? cand_start a) && negb (cand_start b >=? cand_end a).

(** Two half-open spans share no offset; one may end where the other starts. *)
Definition apart (a1 b1 a2 b2 : Z) : Prop := b1 <= a2 \/ b2 <= a1.

(** Sorted from longest to shortest. *)
Definition longest_first (l : list _Candidate) : Prop :=
  StronglySorted (fun a b => clen b <= clen a) l.

(** What overlap resolution computes on a list sorted from longest to
    shortest: the first candidate left is emitted and the candidates that
    overlap it are dropped, until none is left. *)
Fixpoint greedy (budget : nat) (l : list _Candidate) : list _Candidate :=
  match budget, l with
  | S b, w :: t => w :: greedy b (filter (fun c => negb (overlapb w c)) t)
  | _, _ => []
  end.

(** The order [sorted] puts a list in. *)
Definition key_le {X} (key : X -> Z) (reverse : bool) (a b : X) : Prop :=
  if reverse then key b <= key a else key a <= key b.

(** The candidate at index [idx] of [cs] overlaps the span [[ws, we)]. *)
Definition hit (cs : list _Candidate) (ws we : Z) (idx : nat) : bool :=
  match nth_error cs idx with
  | Some c => negb (cand_end c <=? ws) && negb (cand_start c >=? we)
  | None => false
  end.

Definition no_candidate : _Candidate := mkCandidate 0 0 [] Eps.

(** A property of every pair of elements at two different places of a list,
    the earlier one first. *)
Definition pairwise {X} (R : X -> X -> Prop) (l : list X) : Prop :=
  ForallOrdPairs R l.

Local Close Scope Z_scope.

(** ** Matching, declaratively *)

(** [path r c g c1 g1]: one way through the pattern [r] takes the matcher
    from [c] with the groups [g] to [c1] with the groups [g1].  [rmatch]
    explores the paths in the order of the pattern and takes the first one
    that the rest of the pattern accepts. *)
Inductive path : regex -> cursor -> caps -> cursor -> caps -> Prop :=
| P_Eps c g : path Eps c g c g
| P_Chr p c g x t :
    c_rest c = x :: t -> p x = true -> path (Chr p) c g (advance c x t) g
| P_Seq r1 r2 c g c1 g1 c2 g2 :
    path r1 c g c1 g1 -> path r2 c1 g1 c2 g2 -> path (Seq r1 r2) c g c2 g2
| P_AltL r1 r2 c g c1 g1 : path r1 c g c1 g1 -> path (Alt r1 r2) c g c1 g1
| P_AltR r1 r2 c g c1 g1 : path r2 c g c1 g1 -> path (Alt r1 r2) c g c1 g1
| P_OptSome r c g c1 g1 : path r c g c1 g1 -> path (Opt r) c g c1 g1
| P_OptNone r c g : path (Opt r) c g c g
| P_StarNil p c g : path (Star p) c g c g
| P_StarCons p c g x t c1 g1 :
    c_rest c = x :: t -> p x = true ->
    path (Star p) (advance c x t) g c1 g1 -> path (Star p) c g c1 g1
| P_Group n r c g c1 g1 :
    path r c g c1 g1 ->
    path (Group n r) c g c1 ((n, (c_pos c, c_pos c1)) :: g1)
| P_WordB c g :
    xorb (is_word_opt (c_prev c)) (is_word_opt (hd_error (c_rest c))) = true ->
    path WordB c g c g
| P_NotDigitAhead c g :
    (forall x t, c_rest c = x :: t -> is_decimal x = false) ->
    path NotDigitAhead c g c g.

(** The matcher's position at offset [i] of the string [s]. *)
Definition cursor_at (s : str) (i : nat) : cursor :=
  Cursor (match i with O => None | S j => nth_error s j end) i (skipn i s).

(** The pattern may match without taking a character. *)
Fixpoint nullable (r : regex) : bool :=
  match r with
  | Chr _ => false
  | Seq r1 r2 => nullable r1 && nullable r2
  | Alt r1 r2 => nullable r1 || nullable r2
  | Group _ r1 => nullable r1
  | _ => true
  end.

(** The characters a match of the pattern may start with. *)
Fixpoint firsts (r : regex) (x : ascii) : bool :=
  match r with
  | Chr p | Star p => p x
  | Seq r1 r2 => firsts r1 x || (nullable r1 && firsts r2 x)
  | Alt r1 r2 => firsts r1 x || firsts r2 x
  | Opt r1 | Group _ r1 => firsts r1 x
  | _ => false
  end.

(** No [\b] in the pattern. *)
Fixpoint wb_free (r : regex) : bool :=
  match r with
  | WordB => false
  | Seq r1 r2 | Alt r1 r2 => wb_free r1 && wb_free r2
  | Opt r1 | Group _ r1 => wb_free r1
  | _ => true
  end.

(** No [\b] in the pattern but, possibly, at its very beginning. *)
Fixpoint wb_head (r : regex) : bool :=
  match r with
  | WordB => true
  | Seq r1 r2 => wb_head r1 && wb_free r2
  | _ => wb_free r
  end.

(** Every character. *)
Definition all_ascii : list ascii := map ascii_of_nat (seq 0 256).

(** What makes a saved match text match its own pattern again: the pattern
    looks behind only at its beginning, takes at least one character, and
    starts with a word character. *)
Definition rematchable (r : regex) : bool :=
  wb_head r && negb (nullable r)
  && forallb (fun x => implb (firsts r x) (is_word x)) all_ascii.

(** ** The text of a group *)

(** The words of a pattern, whatever stands around them: the assertions
    [\b] and [(?!\d)] take no character and are left out. *)
Fixpoint lang (r : regex) (w : str) : Prop :=
  match r with
  | Eps | WordB | NotDigitAhead => w = []
  | Chr p => exists x, w = [x] /\ p x = true
  | Seq r1 r2 => exists u v, w = u ++ v /\ lang r1 u /\ lang r2 v
  | Alt r1 r2 => lang r1 w \/ lang r2 w
  | Opt r1 => w = [] \/ lang r1 w
  | Star p => forallb p w = true
  | Group _ r1 => lang r1 w
  end.

(** The words of a pattern without repetition, listed. *)
Fixpoint enum (r : regex) : option (list str) :=
  match r with
  | Eps | WordB | NotDigitAhead => Some [[]]
  | Chr p => Some (map (fun x => [x]) (filter p all_ascii))
  | Seq r1 r2 =>
      match enum r1, enum r2 with
      | Some l1, Some l2 =>
          Some (flat_map (fun u => map (fun v => u ++ v) l2) l1)
      | _, _ => None
      end
  | Alt r1 r2 =>
      match enum r1, enum r2 with
      | Some l1, Some l2 => Some (l1 ++ l2)
      | _, _ => None
      end
  | Opt r1 =>
      match enum r1 with
      | Some l1 => Some ([] :: l1)
      | None => None
      end
  | Star _ => None
  | Group _ r1 => enum r1
  end.

(** [int(w)] is an integer from [lo] to [hi]. *)
Definition int_within (lo hi : Z) (w : str) : bool :=
  match py_int w with
  | Ok z => (lo <=? z)%Z && (z <=? hi)%Z
  | Raise _ => false
  end.

(** What the text of a group is, by the name of the group: the numbers in
    their ranges, the fraction a separator and digits, the sign of the offset
    one of the two signs.  The other groups hold any text. *)
Definition group_okb (n : gname) (w : str) : bool :=
  match n with
  | g_hours | g_gmt_hours => int_within 0 24 w
  | g_minutes | g_gmt_minutes => int_within 0 59 w
  | g_seconds => int_within 0 60 w
  | g_frac =>
      match w with
      | _ :: d :: ds => forallb is_decimal (d :: ds)
      | _ => false
      end
  | g_gmt_sign => str_eqb w (py "+") || str_eqb w (py "-")
  | _ => true
  end.

(** Every group of the pattern only captures text that fits its name. *)
Fixpoint groups_sound (r : regex) : Prop :=
  match r with
  | Group n r1 => (forall w, lang r1 w -> group_okb n w = true) /\ groups_sound r1
  | Seq r1 r2 | Alt r1 r2 => groups_sound r1 /\ groups_sound r2
  | Opt r1 => groups_sound r1
  | _ => True
  end.

(** The same for the spans captured over the string [s]. *)
Definition caps_ok (s : str) (g : caps) : Prop :=
  forall n a b, In (n, (a, b)) g -> group_okb n (slice s a b) = true.

(** A check that decides [groups_sound] on the catalog: the words of a
    numeric group or of the sign are listed and tried one by one; a fraction
    is a separator followed by a repetition of digits. *)
Definition group_checked (n : gname) (r1 : regex) : bool :=
  match n with
  | g_am_pm | g_timezone | g_gmt_delta => true
  | g_frac =>
      match r1 with
      | Seq (Chr _) (Seq (Chr p) (Star q)) =>
          forallb (fun x => implb (p x) (is_decimal x) && implb (q x) (is_decimal x))
                  all_ascii
      | _ => false
      end
  | _ =>
      match enum r1 with
      | Some l => forallb (group_okb n) l
      | None => false
      end
  end.

Fixpoint groups_checked (r : regex) : bool :=
  match r with
  | Group n r1 => group_checked n r1 && groups_checked r1
  | Seq r1 r2 | Alt r1 r2 => groups_checked r1 && groups_checked r2
  | Opt r1 => groups_checked r1
  | _ => true
  end.

(** ** Candidates and results *)

(** [c] is a candidate that the scan of [sentence] produces: a match of one
    of the patterns of the catalog in one sweep of [finditer]. *)
Definition scanned (sentence : str) (c : _Candidate) : Prop :=
  exists regex st en g,
    In regex _regexes /\ In (st, (en, g)) (finditer regex sentence) /\
    c = mkCandidate (Z.of_nat st) (Z.of_nat en) (slice sentence st en) regex.

Definition within (lo hi : Z) (o : option Z) : Prop :=
  forall z, o = Some z -> (lo <= z <= hi)%Z.

(** The ranges of the fields that are filled. *)
Definition locals_ok (st : locals) : Prop :=
  within 0 24 (l_int_hours st) /\
  within 0 59 (l_int_minutes st) /\
  within 0 60 (l_int_seconds st) /\
  (forall f, l_frac_seconds st = Some f -> f <> [] /\ forallb is_decimal f = true) /\
  (forall a, l_am_pm st = Some a -> a = STR_AM \/ a = STR_PM) /\
  (forall x, l_gmt_delta_sign st = Some x -> x = py "+" \/ x = py "-") /\
  within 0 24 (l_gmt_delta_hours st) /\
  within 0 59 (l_gmt_delta_minutes st).

Definition record_ok (r : TimeValue) : Prop :=
  within 0 24 (hours r) /\
  within 0 59 (minutes r) /\
  within 0 60 (seconds r) /\
  (forall f, fractional_seconds r = Some f -> f <> [] /\ forallb is_decimal f = true) /\
  (forall a, am_pm r = Some a -> a = py "am" \/ a = py "pm") /\
  (forall x, gmt_delta_sign r = Some x -> x = py "+" \/ x = py "-") /\
  within 0 24 (gmt_delta_hours r) /\
  within 0 59 (gmt_delta_minutes r).

(** A result made from a candidate keeps its text and its span. *)
Definition result_of (c : _Candidate) (r : TimeValue) : Prop :=
  text r = cand_match_text c /\ start r = cand_start c /\ end_ r = cand_end c.

(** ** Where the fields of a result come from *)

(** [w] is what the group [n] of the offset-decomposition pattern captured
    in a delta [v] that the match captured in its group [gmt_delta]. *)
Definition from_delta (d : list (gname * option str)) (n : gname) (w : str) : Prop :=
  exists v p mg a b,
    In (g_gmt_delta, Some v) d /\
    re_search _regex_gmt v = Some (p, mg) /\
    lookup n (snd mg) = Some (a, b) /\ w = slice v a b.

(** Every field that is filled was filled from a group that the match
    captured; [d] is the [groupdict] of the match. *)
Definition filled_from (d : list (gname * option str))
           (h m s : option Z) (f a t x : option str) (gh gm : option Z) : Prop :=
  (forall z, h = Some z -> exists v, In (g_hours, Some v) d /\ py_int v = Ok z) /\
  (forall z, m = Some z -> exists v, In (g_minutes, Some v) d /\ py_int v = Ok z) /\
  (forall z, s = Some z -> exists v, In (g_seconds, Some v) d /\ py_int v = Ok z) /\
  (forall w, f = Some w -> exists v, In (g_frac, Some v) d /\ w = tl v) /\
  (forall w, a = Some w ->
     exists v, In (g_am_pm, Some v) d /\
               w = if found "a" v || found "A" v then STR_AM else STR_PM) /\
  (forall w, t = Some w ->
     exists v, In (g_timezone, Some v) d /\
               w = if str_eqb (py "Z") v then py "UTC" else v) /\
  (forall w, x = Some w -> from_delta d g_gmt_sign w) /\
  (forall z, gh = Some z ->
     exists w, from_delta d g_gmt_hours w /\ py_int w = Ok z) /\
  (forall z, gm = Some z ->
     exists w, from_delta d g_gmt_minutes w /\ py_int w = Ok z).

Definition locals_from (d : list (gname * option str)) (st : locals) : Prop :=
  filled_from d (l_int_hours st) (l_int_minutes st) (l_int_seconds st)
              (l_frac_seconds st) (l_am_pm st) (l_timezone st)
              (l_gmt_delta_sign st) (l_gmt_delta_hours st)
              (l_gmt_delta_minutes st).

Definition record_from (d : list (gname * option str)) (r : TimeValue) : Prop :=
  filled_from d (hours r) (minutes r) (seconds r) (fractional_seconds r)
              (am_pm r) (timezone r) (gmt_delta_sign r) (gmt_delta_hours r)
              (gmt_delta_minutes r).

(** The match captured nothing in the group [n]. *)
Definition no_data (d : list (gname * option str)) (n : gname) : Prop :=
  forall v, ~ In (n, Some v) d.

(** ** The claims on precedence, as they are worded *)

(** A result with the text and the span of the candidate [c] was returned. *)
Definition emitted (rs : list TimeValue) (c : _Candidate) : Prop :=
  exists r, In r rs /\ result_of c r.

(** "Given two overlapping candidates at the same position, the strictly
    longer one is the one resolved and emitted." *)
Definition longer_one_is_emitted (sentence : str) : Prop :=
  forall rs a b,
    run sentence = Ok rs ->
    scanned (_clean_sentence sentence) a ->
    scanned (_clean_sentence sentence) b ->
    cand_start a = cand_start b -> overlapb a b = true ->
    (clen b < clen a)%Z ->
    emitted rs a /\ ~ emitted rs b.

(** [b] is in the transitive overlap chain of [a] among the candidates [l]:
    a chain of candidates of [l], each overlapping the next, leads from [a]
    to [b]. *)
Inductive chained (l : list _Candidate) : _Candidate -> _Candidate -> Prop :=
| chained_refl a : In a l -> chained l a a
| chained_step a b c :
    chained l a b -> In c l -> overlapb b c = true -> chained l a c.

(** "At most one resolved match is emitted per transitive overlap chain." *)
Definition one_per_chain (l : list _Candidate) : Prop :=
  forall res, _remove_overlap l = Ok res ->
  forall i j a b,
    i <> j -> nth_error res i = Some a -> nth_error res j = Some b ->
    ~ chained l a b.

(** ** Letter case *)

Definition is_zed (c : ascii) : bool := Ascii.eqb c "z" || Ascii.eqb c "Z".

(** The same character, up to the case of an ASCII letter. *)
Definition same_letter (a b : ascii) : Prop := to_lower a = to_lower b.

(** The same string, up to the case of its ASCII letters. *)
Definition case_eq (s s' : str) : Prop := Forall2 same_letter s s'.

Definition opt_case_eq (o o' : option str) : Prop :=
  match o, o' with
  | Some s, Some s' => case_eq s s'
  | None, None => True
  | _, _ => False
  end.

(** The letters z of the two strings have the same case: where the first
    string has a z or a Z, the second has the same character. *)
Definition zed_kept (s s' : str) : Prop :=
  Forall2 (fun a b => is_zed a = true -> a = b) s s'.

(** The same character up to case, the case of a letter z being kept. *)
Definition twin (a b : ascii) : Prop :=
  same_letter a b /\ (is_zed a = false \/ a = b).

(** A set of characters takes a letter other than z in both cases or in
    none; the check goes through all characters. *)
Definition case_blind (p : ascii -> bool) : bool :=
  forallb (fun a => is_zed a || Bool.eqb (p a) (p (to_lower a))) all_ascii.

Fixpoint regex_case_blind (r : regex) : bool :=
  match r with
  | Chr p | Star p => case_blind p
  | Seq r1 r2 | Alt r1 r2 => regex_case_blind r1 && regex_case_blind r2
  | Opt r1 | Group _ r1 => regex_case_blind r1
  | _ => true
  end.

(** The matcher at the same offset of two strings that are twins. *)
Definition cursor_twin (c c' : cursor) : Prop :=
  c_pos c = c_pos c'
  /\ match c_prev c, c_prev c' with
     | Some a, Some b => twin a b
     | None, None => True
     | _, _ => False
     end
  /\ Forall2 twin (c_rest c) (c_rest c').

(** The offset-decomposition pattern without its optional prefix. *)
Definition _str_gmt_core : regex :=
  Group g_gmt_sign (set "-+")
  +++ Group g_gmt_hours _str_h24 +++ Opt (lit ":")
  +++ Opt (Group g_gmt_minutes _str_MM).

(** Candidates with the same span and pattern, and twin texts. *)
Definition cand_twin (c c' : _Candidate) : Prop :=
  cand_start c = cand_start c' /\ cand_end c = cand_end c'
  /\ cand_regex c = cand_regex c'
  /\ Forall2 twin (cand_match_text c) (cand_match_text c').

Definition item_twin (kv kv' : gname * option str) : Prop :=
  fst kv = fst kv'
  /\ match snd kv, snd kv' with
     | Some v, Some v' => Forall2 twin v v'
     | None, None => True
     | _, _ => False
     end.

(** Local variables that agree: the numbers are equal and the strings are
    the same up to case. *)
Definition locals_alike (st st' : locals) : Prop :=
  l_int_hours st = l_int_hours st'
  /\ l_int_minutes st = l_int_minutes st'
  /\ l_int_seconds st = l_int_seconds st'
  /\ opt_case_eq (l_frac_seconds st) (l_frac_seconds st')
  /\ opt_case_eq (l_am_pm st) (l_am_pm st')
  /\ opt_case_eq (l_timezone st) (l_timezone st')
  /\ opt_case_eq (l_gmt_delta_sign st) (l_gmt_delta_sign st')
  /\ l_gmt_delta_hours st = l_gmt_delta_hours st'
  /\ l_gmt_delta_minutes st = l_gmt_delta_minutes st'.

(** Two records read the same time: same span, same numbers, same meridiem,
    same fraction and offset; the text and the timezone abbreviation are the
    same up to the case of their letters. *)
Definition same_reading (r r' : TimeValue) : Prop :=
  start r = start r' /\ end_ r = end_ r'
  /\ hours r = hours r' /\ minutes r = minutes r' /\ seconds r = seconds r'
  /\ fractional_seconds r = fractional_seconds r'
  /\ am_pm r = am_pm r'
  /\ gmt_delta_sign r = gmt_delta_sign r'
  /\ gmt_delta_hours r = gmt_delta_hours r'
  /\ gmt_delta_minutes r = gmt_delta_minutes r'
  /\ case_eq (text r) (text r')
  /\ opt_case_eq (timezone r) (timezone r').

(** Two records agree on their span and on every semantic field. *)
Definition same_fields (r r' : TimeValue) : Prop :=
  start r = start r' /\ end_ r = end_ r'
  /\ hours r = hours r' /\ minutes r = minutes r' /\ seconds r = seconds r'
  /\ fractional_seconds r = fractional_seconds r'
  /\ am_pm r = am_pm r' /\ timezone r = timezone r'
  /\ gmt_delta_sign r = gmt_delta_sign r'
  /\ gmt_delta_hours r = gmt_delta_hours r'
  /\ gmt_delta_minutes r = gmt_delta_minutes r'.

(** "Changing the letter case of the letters of a time expression changes
    neither which spans are recognized nor any normalized semantic field." *)
Definition case_insensitive : Prop :=
  forall s s' rs rs',
    case_eq s s' -> run s = Ok rs -> run s' = Ok rs' ->
    Forall2 same_fields rs rs'.

(** Two records alike: same span and numbers, strings the same up to case. *)
Definition record_alike (r r' : TimeValue) : Prop :=
  start r = start r' /\ end_ r = end_ r'
  /\ case_eq (text r) (text r')
  /\ hours r = hours r' /\ minutes r = minutes r' /\ seconds r = seconds r'
  /\ opt_case_eq (fractional_seconds r) (fractional_seconds r')
  /\ opt_case_eq (am_pm r) (am_pm r')
  /\ opt_case_eq (timezone r) (timezone r')
  /\ opt_case_eq (gmt_delta_sign r) (gmt_delta_sign r')
  /\ gmt_delta_hours r = gmt_delta_hours r'
  /\ gmt_delta_minutes r = gmt_delta_minutes r'.

(** A character that no change of case turns into another one. *)
Definition rigid (a : ascii) : bool :=
  forallb (fun b => implb (Ascii.eqb (to_lower a) (to_lower b)) (Ascii.eqb a b))
          all_ascii.

(** The test of [run] for the AM token, on one character. *)
Definition is_a (x : ascii) : bool := Ascii.eqb "a" x || Ascii.eqb "A" x.

(* ------------------------------------------------------------------------- *)
(** * What a pattern always does *)

(** Every word of the pattern holds a decimal digit; the sets of characters
    are checked over all characters. *)
Fixpoint digit_bound (r : regex) : bool :=
  match r with
  | Chr p => forallb (fun x => implb (p x) (is_digit x)) all_ascii
  | Seq r1 r2 => digit_bound r1 || digit_bound r2
  | Alt r1 r2 => digit_bound r1 && digit_bound r2
  | Group _ r1 => digit_bound r1
  | _ => false
  end.

(** Every way through the pattern goes through a group named [n]. *)
Fixpoint captures (n : gname) (r : regex) : bool :=
  match r with
  | Group m r1 => gname_eqb n m || captures n r1
  | Seq r1 r2 => captures n r1 || captures n r2
  | Alt r1 r2 => captures n r1 && captures n r2
  | _ => false
  end.

(** The pattern has a group named [n]. *)
Definition has_group (n : gname) (r : regex) : bool :=
  existsb (gname_eqb n) (gnames r).

(** The patterns that stand inside the groups named [n]. *)
Fixpoint group_bodies (n : gname) (r : regex) : list regex :=
  match r with
  | Group m r1 => (if gname_eqb n m then [r1] else []) ++ group_bodies n r1
  | Seq r1 r2 | Alt r1 r2 => group_bodies n r1 ++ group_bodies n r2
  | Opt r1 => group_bodies n r1
  | _ => []
  end.

(** Every word of every group named [n] passes the test [f]; the words are
    listed, so this only holds for groups without repetition. *)
Definition bodies_pass (n : gname) (f : str -> bool) (r : regex) : bool :=
  forallb (fun b => match enum b with
                    | Some l => forallb f l
                    | None => false
                    end)
          (group_bodies n r).



(** A meridiem token reads as "am": its first character is an a. *)
Definition reads_am (v : str) : bool :=
  match v with
  | x :: _ => is_a x
  | [] => false
  end.

(** A meridiem token reads as "pm": its first character is a p. *)
Definition reads_pm (v : str) : bool :=
  match v with
  | x :: _ => one_of "pP" x
  | [] => false
  end.

(** ** The order of the results *)

(** Each record ends before the next one starts. *)
Definition in_reading_order (rs : list TimeValue) : Prop :=
  StronglySorted (fun r1 r2 => (end_ r1 <= start r2)%Z) rs.

(** The invariant of the inner loop of [_remove_overlap] on any list of
    candidates [cs]: the winner so far has a proper span and is one of the
    candidates, and position 0 is among the positions to remove. *)
Definition scan_inv (cs : list _Candidate) (st : scan_state) : Prop :=
  (start_i st <= end_i st)%Z /\ candidate_index st < length cs
  /\ In 0 (overlaps st).

(** The span of the candidate is inverted: it ends before it starts. *)
Definition inverted (c : _Candidate) : Prop := (cand_end c < cand_start c)%Z.

(** ** Fields that are filled *)

(** Nothing that is filled in [st] is empty in [st']. *)
Definition keeps_filled (st st' : locals) : Prop :=
  (l_int_hours st <> None -> l_int_hours st' <> None)
  /\ (l_int_minutes st <> None -> l_int_minutes st' <> None)
  /\ (l_int_seconds st <> None -> l_int_seconds st' <> None)
  /\ (l_frac_seconds st <> None -> l_frac_seconds st' <> None)
  /\ (l_am_pm st <> None -> l_am_pm st' <> None)
  /\ (l_timezone st <> None -> l_timezone st' <> None)
  /\ (l_gmt_delta_sign st <> None -> l_gmt_delta_sign st' <> None)
  /\ (l_gmt_delta_hours st <> None -> l_gmt_delta_hours st' <> None)
  /\ (l_gmt_delta_minutes st <> None -> l_gmt_delta_minutes st' <> None).

(** The local variable that the loop of [run] fills for the group [n]
    holds a value; for the raw delta, that the sign and the hours of the
    offset do when the offset-decomposition pattern finds a match in it. *)
Definition filled_for (n : gname) (v : str) (st : locals) : Prop :=
  match n with
  | g_hours => l_int_hours st <> None
  | g_minutes => l_int_minutes st <> None
  | g_seconds => l_int_seconds st <> None
  | g_frac => l_frac_seconds st <> None
  | g_am_pm => l_am_pm st <> None
  | g_timezone => l_timezone st <> None
  | g_gmt_delta =>
      re_search _regex_gmt v <> None ->
      l_gmt_delta_sign st <> None /\ l_gmt_delta_hours st <> None
  | _ => True
  end.

(** The same for the loop over the groups of the offset. *)
Definition gmt_filled_for (n : gname) (st : locals) : Prop :=
  match n with
  | g_gmt_sign => l_gmt_delta_sign st <> None
  | g_gmt_hours => l_gmt_delta_hours st <> None
  | g_gmt_minutes => l_gmt_delta_minutes st <> None
  | _ => True
  end.

(** The locals a record is made of. *)
Definition locals_of (r : TimeValue) : locals :=
  mkLocals (hours r) (minutes r) (seconds r) (fractional_seconds r) (am_pm r)
           (timezone r) None (gmt_delta_sign r) (gmt_delta_hours r)
           (gmt_delta_minutes r).

(* ------------------------------------------------------------------------- *)
(** * Lemmas on lists and sorting *)

Section SortedFacts.
Variable X : Type.
Variable key : X -> Z.
Variable reverse : bool.


Lemma insert_perm (x : X) (l : list X) :
  Permutation (insert key reverse x l) (x :: l).
Proof.
  induction l as [|y t IH]; simpl; [reflexivity|].
  destruct (precedes key reverse y x); [|reflexivity].
  rewrite IH. apply perm_swap.
Qed.

Lemma sorted_perm (l : list X) : Permutation (sorted key reverse l) l.
Proof.
  induction l as [|x t IH]; simpl; [reflexivity|].
  rewrite insert_perm. now constructor.
Qed.

Lemma key_le_trans a b c : key_le key reverse a b -> key_le key reverse b c -> key_le key reverse a c.
Proof. unfold key_le. destruct reverse; lia. Qed.

Lemma insert_sorted (x : X) (l : list X) :
  StronglySorted (key_le key reverse) l -> StronglySorted (key_le key reverse) (insert key reverse x l).
Proof.
  induction 1 as [|y t Hs IH Hall]; simpl.
  - repeat constructor.
  - destruct (precedes key reverse y x) eqn:E.
    + constructor; [exact IH|].
      eapply Permutation_Forall; [symmetry; apply insert_perm|].
      constructor; [|exact Hall].
      unfold precedes in E. unfold key_le. destruct reverse; lia.
    + assert (Hxy : key_le key reverse x y).
      { unfold precedes in E. unfold key_le. destruct reverse; lia. }
      constructor; [constructor; assumption|].
      constructor; [exact Hxy|].
      eapply Forall_impl; [|exact Hall].
      intros z Hz. eapply key_le_trans; eassumption.
Qed.

Lemma sorted_sorted (l : list X) : StronglySorted (key_le key reverse) (sorted key reverse l).
Proof.
  induction l as [|x t IH]; simpl; [constructor|].
  now apply insert_sorted.
Qed.

Lemma sorted_In (l : list X) (x : X) : In x (sorted key reverse l) <-> In x l.
Proof.
  split; apply Permutation_in; [|symmetry]; apply sorted_perm.
Qed.

End SortedFacts.

Section Pairwise.
Variable X : Type.
Variable R : X -> X -> Prop.
Hypothesis R_sym : forall x y, R x y -> R y x.

Lemma pairwise_perm (l l' : list X) :
  Permutation l l' -> pairwise R l -> pairwise R l'.
Proof.
  unfold pairwise.
  induction 1 as [|x l l' Hp IH|x y l|l l' l'' _ IH1 _ IH2]; intros H.
  - constructor.
  - inversion H; subst. constructor; [|auto].
    eapply Permutation_Forall; eassumption.
  - inversion H as [|? ? Hy Hr]; subst.
    inversion Hr as [|? ? Hx Hl]; subst.
    inversion Hy; subst.
    repeat constructor; auto.
  - auto.
Qed.

Lemma pairwise_nth (l : list X) :
  pairwise R l ->
  forall i j x y, i <> j -> nth_error l i = Some x -> nth_error l j = Some y ->
  R x y.
Proof.
  unfold pairwise.
  induction 1 as [|a l Ha Hl IH]; intros i j x y Hij Hi Hj.
  - destruct i; discriminate.
  - destruct i as [|i], j as [|j]; simpl in *.
    + congruence.
    + injection Hi as <-. rewrite Forall_forall in Ha.
      apply Ha. eapply nth_error_In; eassumption.
    + injection Hj as <-. rewrite Forall_forall in Ha.
      apply R_sym, Ha. eapply nth_error_In; eassumption.
    + eapply (IH i j); eauto.
Qed.

End Pairwise.

Lemma pairwise_Forall2 {X Y} (R : X -> X -> Prop) (Q : Y -> Y -> Prop)
      (T : X -> Y -> Prop) (l : list X) (l' : list Y) :
  (forall x1 x2 y1 y2, T x1 y1 -> T x2 y2 -> R x1 x2 -> Q y1 y2) ->
  Forall2 T l l' -> pairwise R l -> pairwise Q l'.
Proof.
  intros HT H2. unfold pairwise.
  induction H2 as [|x y l l' Hxy H2 IH]; intros H; [constructor|].
  inversion H as [|? ? Hx Hl]; subst.
  constructor; [|auto].
  clear IH Hl H. induction H2 as [|x' y' l l' Hxy' H2 IH]; [constructor|].
  inversion Hx; subst. constructor; eauto.
Qed.

(* ------------------------------------------------------------------------- *)
(** * Overlap resolution on a list sorted from longest to shortest *)

Lemma has_overlap_ok (a1 b1 a2 b2 : Z) :
  (a1 <= b1)%Z -> (a2 <= b2)%Z ->
  _has_overlap a1 b1 a2 b2 = Ok (negb (b2 <=? a1)%Z && negb (a2 >=? b1)%Z).
Proof.
  intros H1 H2. unfold _has_overlap.
  destruct (Z.leb_spec a1 b1); [|lia].
  destruct (Z.leb_spec a2 b2); [|lia]. simpl.
  destruct (b2 <=? a1)%Z; [reflexivity|].
  destruct (a2 >=? b1)%Z; reflexivity.
Qed.

Lemma existsb_eqb_filter (f : nat -> bool) (x : nat) (l : list nat) :
  existsb (Nat.eqb x) (filter f l) = f x && existsb (Nat.eqb x) l.
Proof.
  induction l as [|y t IH]; simpl; [now rewrite andb_false_r|].
  destruct (f y) eqn:Ey; simpl; rewrite IH.
  - destruct (Nat.eqb_spec x y) as [->|]; simpl; [|reflexivity].
    now rewrite Ey.
  - destruct (Nat.eqb_spec x y) as [->|]; simpl; [|reflexivity].
    now rewrite Ey.
Qed.

Lemma existsb_eqb_seq (x a n : nat) :
  existsb (Nat.eqb x) (seq a n) = (a <=? x) && (x <? a + n).
Proof.
  revert a. induction n as [|n IH]; intros a; simpl.
  - destruct (Nat.leb_spec a x), (Nat.ltb_spec x (a + 0)); simpl; try reflexivity; lia.
  - rewrite IH.
    destruct (Nat.eqb_spec x a), (Nat.leb_spec (S a) x), (Nat.leb_spec a x),
      (Nat.ltb_spec x (S a + n)), (Nat.ltb_spec x (a + S n));
      simpl; try reflexivity; lia.
Qed.

(** Removing positions, read on the elements. *)
Lemma remove_positions_from (l : list nat) (a : nat) (ov : list nat)
      (h : nat -> bool) :
  (forall k idx, nth_error l k = Some idx ->
                 existsb (Nat.eqb (a + k)) ov = h idx) ->
  map snd (filter (fun kv => negb (existsb (Nat.eqb (fst kv)) ov))
                  (combine (seq a (length l)) l))
  = filter (fun idx => negb (h idx)) l.
Proof.
  revert a. induction l as [|x t IH]; intros a H; simpl; [reflexivity|].
  rewrite <- (H 0 x eq_refl), Nat.add_0_r.
  destruct (existsb (Nat.eqb a) ov); simpl.
  - apply IH. intros k idx Hk. rewrite <- (H (S k) idx Hk). f_equal. f_equal. lia.
  - f_equal. apply IH. intros k idx Hk.
    rewrite <- (H (S k) idx Hk). f_equal. f_equal. lia.
Qed.

Lemma map_nth_seq_from {X} (d : X) (l p : list X) :
  map (fun i => nth i (p ++ l) d) (seq (length p) (length l)) = l.
Proof.
  revert p. induction l as [|x l IH]; intros p; simpl; [reflexivity|].
  rewrite app_nth2, Nat.sub_diag by lia. simpl. f_equal.
  specialize (IH (p ++ [x])).
  rewrite <- app_assoc, length_app, Nat.add_1_r in IH. exact IH.
Qed.

Section Resolve.
Variable cs : list _Candidate.
Hypothesis cs_wf : Forall well_formed cs.

Let at_ (i : nat) : _Candidate := nth i cs no_candidate.

Lemma getitem_at (i : nat) : i < length cs -> getitem cs i = Ok (at_ i).
Proof.
  intros H. unfold getitem, at_.
  now rewrite (nth_error_nth' cs no_candidate H).
Qed.

Lemma at_wf (i : nat) : i < length cs -> well_formed (at_ i).
Proof.
  intros H. rewrite Forall_forall in cs_wf. apply cs_wf, nth_In, H.
Qed.

Lemma hit_at (w : _Candidate) (i : nat) :
  i < length cs -> hit cs (cand_start w) (cand_end w) i = overlapb w (at_ i).
Proof.
  intros H. unfold hit, at_.
  now rewrite (nth_error_nth' cs no_candidate H).
Qed.

(** The inner loop when nothing it meets is longer than the winner: the
    winner stays, and the positions that overlap it are collected. *)
Lemma scan_steps (indices : list nat) (js : list nat) (st : scan_state) :
  (start_i st <= end_i st)%Z ->
  (forall j, In j js ->
     exists idx, nth_error indices j = Some idx /\ idx < length cs /\
                 (clen (at_ idx) <= len_i st)%Z) ->
  foldM (scan_step cs indices) js st
  = Ok (mkScan (start_i st) (end_i st) (len_i st) (candidate_index st)
          (overlaps st ++
           filter (fun j => match nth_error indices j with
                            | Some idx => hit cs (start_i st) (end_i st) idx
                            | None => false
                            end) js)).
Proof.
  revert st. induction js as [|j js IH]; intros st Hst H; simpl.
  - rewrite app_nil_r. now destruct st.
  - destruct (H j (or_introl eq_refl)) as (idx & Hidx & Hlt & Hlen).
    unfold scan_step at 1. unfold getitem at 1. rewrite Hidx. simpl.
    rewrite (getitem_at Hlt). simpl.
    rewrite has_overlap_ok by (auto; apply at_wf, Hlt). simpl.
    unfold hit at 1. unfold at_ in *.
    rewrite (nth_error_nth' cs no_candidate Hlt).
    destruct (negb _ && negb _); simpl.
    + unfold clen in Hlen.
      destruct (Z.gtb_spec (cand_end (nth idx cs no_candidate)
                            - cand_start (nth idx cs no_candidate)) (len_i st));
        [lia|].
      cbn [bind]. rewrite IH; simpl; auto.
      * now rewrite <- app_assoc.
      * intros j' Hj'. apply H. now right.
    + cbn [bind]. apply IH; auto. intros j' Hj'. apply H. now right.
Qed.

Lemma map_filter_at (f : _Candidate -> bool) (l : list nat) :
  map at_ (filter (fun i => f (at_ i)) l) = filter f (map at_ l).
Proof.
  induction l as [|x t IH]; simpl; [reflexivity|].
  destruct (f (at_ x)); simpl; now rewrite IH.
Qed.

(** The outer loop computes [greedy] on the candidates the indices stand
    for, and never runs out of budget. *)
Lemma resolve_loop_greedy (budget : nat) :
  forall indices results,
  length indices <= budget ->
  Forall (fun i => i < length cs) indices ->
  StronglySorted (fun i j => (clen (at_ j) <= clen (at_ i))%Z) indices ->
  resolve_loop budget cs indices results
  = Ok (results ++ greedy budget (map at_ indices)).
Proof.
  induction budget as [|b IH]; intros indices results Hlen Hval Hsort.
  - destruct indices; simpl in *; [now rewrite app_nil_r|lia].
  - destruct indices as [|i0 tl]; [simpl; now rewrite app_nil_r|].
    inversion Hval as [|? ? Hi0 Htl]; subst.
    inversion Hsort as [|? ? Hs Hall]; subst.
    cbn [resolve_loop length Nat.leb].
    unfold getitem at 1. cbn [nth_error bind].
    rewrite (getitem_at Hi0). cbn [bind].
    rewrite scan_steps; cbn [start_i end_i len_i candidate_index overlaps].
    + cbn [bind candidate_index overlaps]. rewrite (getitem_at Hi0). cbn [bind].
      assert (Hrm : remove_positions (i0 :: tl)
                      ([0] ++ filter (fun j => match nth_error (i0 :: tl) j with
                             | Some idx => hit cs (cand_start (at_ i0)) (cand_end (at_ i0)) idx
                             | None => false end) (seq (0 + 1) (S (length tl) - (0 + 1))))
                    = filter (fun i => negb (overlapb (at_ i0) (at_ i))) tl).
      { unfold remove_positions.
        replace (S (length tl) - (0 + 1)) with (length tl) by lia.
        set (hitf := fun j => match nth_error (i0 :: tl) j with
                              | Some idx => hit cs (cand_start (at_ i0)) (cand_end (at_ i0)) idx
                              | None => false end).
        transitivity
          (map snd (filter (fun kv => negb (existsb (Nat.eqb (fst kv))
                                              (0 :: filter hitf (seq 1 (length tl)))))
                           (combine (seq 1 (length tl)) tl))); [reflexivity|].
        rewrite (remove_positions_from tl 1 _
                   (fun idx => hit cs (cand_start (at_ i0)) (cand_end (at_ i0)) idx)).
        - apply filter_ext_in. intros i Hi. rewrite hit_at; [reflexivity|].
          rewrite Forall_forall in Htl. now apply Htl.
        - intros k idx Hk.
          change (existsb (Nat.eqb (1 + k)) (0 :: filter hitf (seq 1 (length tl))))
            with (existsb (Nat.eqb (S k)) (filter hitf (seq 1 (length tl)))).
          rewrite existsb_eqb_filter, existsb_eqb_seq. unfold hitf. cbn [nth_error].
          rewrite Hk.
          assert (k < length tl) by (apply nth_error_Some; congruence).
          destruct (Nat.leb_spec 1 (S k)), (Nat.ltb_spec (S k) (1 + length tl)); try lia.
          now rewrite !andb_true_r. }
      rewrite Hrm.
      cbn [map greedy].
      rewrite <- (map_filter_at (fun c => negb (overlapb (at_ i0) c))).
      set (tl' := filter (fun i => negb (overlapb (at_ i0) (at_ i))) tl).
      assert (Hlen' : length tl' <= b).
      { unfold tl'. pose proof (filter_length_le (fun i => negb (overlapb (at_ i0) (at_ i))) tl).
        simpl in Hlen. lia. }
      destruct (Nat.eqb_spec (length tl') 0) as [E|E].
      * destruct tl'; [|discriminate]. simpl.
        destruct b; reflexivity.
      * rewrite IH; auto.
        -- now rewrite <- app_assoc.
        -- unfold tl'. rewrite Forall_forall in *. intros i Hi.
           apply filter_In in Hi. now apply Htl.
        -- unfold tl'. clear -Hs. induction Hs as [|x l Hs' IH' Hx]; simpl; [constructor|].
           destruct (negb _); [|exact IH'].
           constructor; [exact IH'|].
           rewrite Forall_forall in *. intros y Hy. apply filter_In in Hy. now apply Hx.
    + apply at_wf, Hi0.
    + intros j Hj. apply in_seq in Hj.
      destruct j as [|j]; [lia|]. cbn [nth_error].
      assert (Hj' : j < length tl) by (simpl in Hj; lia).
      destruct (nth_error tl j) as [idx|] eqn:E; [|apply nth_error_None in E; lia].
      exists idx. split; [reflexivity|].
      apply nth_error_In in E.
      rewrite Forall_forall in Htl, Hall. split; [now apply Htl|].
      unfold clen in *. now apply Hall.
Qed.

(** [_remove_overlap] returns, and returns what [greedy] describes. *)
Lemma remove_overlap_greedy :
  longest_first cs ->
  _remove_overlap cs = Ok (greedy (length cs) cs).
Proof.
  intros Hs. unfold _remove_overlap.
  rewrite resolve_loop_greedy.
  - simpl. f_equal. f_equal. unfold at_. apply (map_nth_seq_from no_candidate cs []).
  - now rewrite length_seq.
  - rewrite Forall_forall. intros i Hi. apply in_seq in Hi. lia.
  - unfold longest_first in Hs. clear cs_wf.
    assert (G : forall (l p : list _Candidate),
               StronglySorted (fun a b => (clen b <= clen a)%Z) l ->
               StronglySorted (fun i j => (clen (nth j (p ++ l) no_candidate)
                                         <= clen (nth i (p ++ l) no_candidate))%Z)
                              (seq (length p) (length l))).
    { induction l as [|x l IHl]; intros p H; simpl; [constructor|].
      inversion H as [|? ? Hl Hx]; subst.
      constructor.
      - specialize (IHl (p ++ [x]) Hl).
        rewrite <- app_assoc, length_app in IHl. simpl in IHl.
        now rewrite Nat.add_1_r in IHl.
      - rewrite Forall_forall. intros j Hj. apply in_seq in Hj.
        rewrite (app_nth2 p (x :: l)) by lia.
        rewrite (app_nth2 p (x :: l)) by lia.
        rewrite Nat.sub_diag. simpl.
        destruct (j - length p) as [|m] eqn:E; [lia|].
        rewrite Forall_forall in Hx. apply Hx. apply nth_In. lia. }
    apply (G cs []), Hs.
Qed.

End Resolve.

(* ------------------------------------------------------------------------- *)
(** * The matcher and the paths of a pattern *)

Lemma cursor_eta (c : cursor) : Cursor (c_prev c) (c_pos c) (c_rest c) = c.
Proof. now destruct c. Qed.

Section MatcherFacts.
Variable A : Type.
Implicit Type k : cursor -> caps -> option A.

Lemma star_sound p rest : forall prev pos g k res,
  star p prev pos rest g k = Some res ->
  exists c1 g1, path (Star p) (Cursor prev pos rest) g c1 g1 /\ k c1 g1 = Some res.
Proof.
  induction rest as [|x t IH]; intros prev pos g k res H; simpl in H.
  - eexists _, _. split; [apply P_StarNil|exact H].
  - destruct (p x) eqn:Px.
    + destruct (star p (Some x) (S pos) t g k) eqn:E.
      * injection H as <-. apply IH in E as (c1 & g1 & P & K).
        exists c1, g1. split; [|exact K].
        eapply P_StarCons; [reflexivity|exact Px|exact P].
      * eexists _, _. split; [apply P_StarNil|exact H].
    + eexists _, _. split; [apply P_StarNil|exact H].
Qed.

(** Whatever [rmatch] returns comes from a path that the continuation
    accepted. *)
Lemma rmatch_sound r : forall c g k res,
  rmatch r c g k = Some res ->
  exists c1 g1, path r c g c1 g1 /\ k c1 g1 = Some res.
Proof.
  induction r as [|p|r1 IH1 r2 IH2|r1 IH1 r2 IH2|r1 IH1|p|n r1 IH1| |];
    intros c g k res H; simpl in H.
  - exists c, g. split; [constructor|exact H].
  - destruct (c_rest c) as [|x t] eqn:E; [discriminate|].
    destruct (p x) eqn:Px; [|discriminate].
    exists (advance c x t), g. split; [now constructor|exact H].
  - apply IH1 in H as (c1 & g1 & P1 & H).
    apply IH2 in H as (c2 & g2 & P2 & H).
    exists c2, g2. split; [econstructor; eassumption|exact H].
  - destruct (rmatch r1 c g k) eqn:E.
    + injection H as <-. apply IH1 in E as (c1 & g1 & P & K).
      exists c1, g1. split; [now apply P_AltL|exact K].
    + apply IH2 in H as (c1 & g1 & P & K).
      exists c1, g1. split; [now apply P_AltR|exact K].
  - destruct (rmatch r1 c g k) eqn:E.
    + injection H as <-. apply IH1 in E as (c1 & g1 & P & K).
      exists c1, g1. split; [now apply P_OptSome|exact K].
    + exists c, g. split; [apply P_OptNone|exact H].
  - apply star_sound in H. now rewrite cursor_eta in H.
  - apply IH1 in H as (c1 & g1 & P & K).
    eexists _, _. split; [apply P_Group, P|exact K].
  - destruct (xorb _ _) eqn:E; [|discriminate].
    exists c, g. split; [now constructor|exact H].
  - exists c, g. destruct (c_rest c) as [|x t] eqn:E.
    + split; [|exact H]. constructor. intros x t E'. rewrite E in E'. discriminate.
    + destruct (is_decimal x) eqn:D; [discriminate|].
      split; [|exact H]. constructor. intros x' t' E'.
      rewrite E in E'. injection E' as <- <-. exact D.
Qed.

Lemma star_fallback p rest : forall prev pos g k,
  k (Cursor prev pos rest) g <> None -> star p prev pos rest g k <> None.
Proof.
  destruct rest as [|x t]; intros prev pos g k H; simpl; [exact H|].
  destruct (p x); [|exact H].
  destruct (star p (Some x) (S pos) t g k); [discriminate|exact H].
Qed.

(** A path that the continuation accepts makes [rmatch] succeed (with that
    path or with one tried before it). *)
Lemma rmatch_complete r c g c1 g1 :
  path r c g c1 g1 ->
  forall k, k c1 g1 <> None -> rmatch r c g k <> None.
Proof.
  induction 1 as [c g|p c g x t E Px|r1 r2 c g c1 g1 c2 g2 _ IH1 _ IH2
                 |r1 r2 c g c1 g1 _ IH|r1 r2 c g c1 g1 _ IH
                 |r c g c1 g1 _ IH|r c g|p c g|p c g x t c1 g1 E Px _ IH
                 |n r c g c1 g1 _ IH|c g E|c g E];
    intros k K; simpl.
  - exact K.
  - now rewrite E, Px.
  - apply IH1. now apply IH2.
  - specialize (IH k K). now destruct (rmatch r1 c g k).
  - specialize (IH k K). now destruct (rmatch r1 c g k).
  - specialize (IH k K). now destruct (rmatch r c g k).
  - now destruct (rmatch r c g k).
  - apply star_fallback. now rewrite cursor_eta.
  - rewrite E. simpl. rewrite Px.
    specialize (IH k K). simpl in IH.
    now destruct (star p (Some x) (S (c_pos c)) t g k).
  - now apply IH.
  - now rewrite E.
  - destruct (c_rest c) as [|x t] eqn:E'; [exact K|].
    now rewrite (E x t eq_refl).
Qed.

End MatcherFacts.

(* ------------------------------------------------------------------------- *)
(** * Positions in a string *)

Lemma skipn_cons_inv {X} (s : list X) : forall i x t,
  skipn i s = x :: t ->
  nth_error s i = Some x /\ skipn (S i) s = t /\ i < length s.
Proof.
  induction s as [|y s IH]; intros i x t H.
  - now rewrite skipn_nil in H.
  - destruct i as [|i]; simpl in *.
    + injection H as <- <-. repeat split. lia.
    + apply IH in H as (H1 & H2 & H3). repeat split; auto. lia.
Qed.

Lemma advance_cursor_at (s : str) (i : nat) (x : ascii) (t : str) :
  skipn i s = x :: t -> advance (cursor_at s i) x t = cursor_at s (S i).
Proof.
  intros H. apply skipn_cons_inv in H as (H1 & H2 & _).
  unfold advance, cursor_at. cbn [c_pos]. now rewrite H1, H2.
Qed.

Lemma cursor_at_rest (s : str) (i : nat) : c_rest (cursor_at s i) = skipn i s.
Proof. reflexivity. Qed.

Lemma cursor_at_0 (s : str) : cursor_at s 0 = start_of s.
Proof. reflexivity. Qed.

Lemma path_pos_le r c g c1 g1 : path r c g c1 g1 -> c_pos c <= c_pos c1.
Proof.
  induction 1; simpl in *; lia.
Qed.

(** A path from a position of [s] ends at a position of [s], not before. *)
Lemma path_cursor_at (s : str) r c g c1 g1 :
  path r c g c1 g1 ->
  forall i, c = cursor_at s i -> i <= length s ->
  exists j, c1 = cursor_at s j /\ i <= j /\ j <= length s.
Proof.
  induction 1 as [c g|p c g x t E Px|r1 r2 c g c1 g1 c2 g2 _ IH1 _ IH2
                 |r1 r2 c g c1 g1 _ IH|r1 r2 c g c1 g1 _ IH
                 |r c g c1 g1 _ IH|r c g|p c g|p c g x t c1 g1 E Px _ IH
                 |n r c g c1 g1 _ IH|c g E|c g E];
    intros i Hc Hi; eauto.
  - subst c. rewrite cursor_at_rest in E.
    exists (S i). rewrite (advance_cursor_at _ _ E).
    apply skipn_cons_inv in E as (_ & _ & Hlt). repeat split; lia.
  - destruct (IH1 i Hc Hi) as (j & -> & Hij & Hj).
    destruct (IH2 j eq_refl Hj) as (j' & -> & Hjj & Hj').
    exists j'. repeat split; lia.
  - subst c. rewrite cursor_at_rest in E.
    pose proof (skipn_cons_inv _ _ E) as (_ & _ & Hlt).
    rewrite (advance_cursor_at _ _ E) in IH.
    destruct (IH (S i) eq_refl Hlt) as (j & -> & Hij & Hj).
    exists j. repeat split; lia.
Qed.

(** Where a path starts: nowhere if the pattern allows it, or with one of
    the pattern's first characters. *)
Lemma path_first r c g c1 g1 :
  path r c g c1 g1 ->
  (c1 = c /\ nullable r = true)
  \/ (exists x t, c_rest c = x :: t /\ firsts r x = true).
Proof.
  induction 1 as [c g|p c g x t E Px|r1 r2 c g c1 g1 c2 g2 _ IH1 _ IH2
                 |r1 r2 c g c1 g1 _ IH|r1 r2 c g c1 g1 _ IH
                 |r c g c1 g1 _ IH|r c g|p c g|p c g x t c1 g1 E Px _ IH
                 |n r c g c1 g1 _ IH|c g E|c g E];
    simpl; auto.
  - right. eauto.
  - destruct IH1 as [[-> N1]|(x & t & E & F)].
    + destruct IH2 as [[-> N2]|(x & t & E & F)].
      * left. now rewrite N1, N2.
      * right. exists x, t. now rewrite N1, F, orb_true_r.
    + right. exists x, t. now rewrite F.
  - destruct IH as [[-> N]|(x & t & E & F)]; [left; now rewrite N|].
    right. exists x, t. now rewrite F.
  - destruct IH as [[-> N]|(x & t & E & F)]; [left; now rewrite N, orb_true_r|].
    right. exists x, t. now rewrite F, orb_true_r.
  - destruct IH as [[-> N]|(x & t & E & F)]; [now left|]. right. eauto.
  - right. eauto.
Qed.

(** A path that takes no character needs a nullable pattern. *)
Lemma path_still_nullable r c g c1 g1 :
  path r c g c1 g1 -> c_pos c1 = c_pos c -> nullable r = true.
Proof.
  induction 1 as [c g|p c g x t E Px|r1 r2 c g c1 g1 c2 g2 P1 IH1 P2 IH2
                 |r1 r2 c g c1 g1 _ IH|r1 r2 c g c1 g1 _ IH
                 |r c g c1 g1 _ IH|r c g|p c g|p c g x t c1 g1 E Px _ IH
                 |n r c g c1 g1 _ IH|c g E|c g E];
    simpl; intros Hp; try reflexivity.
  - lia.
  - pose proof (path_pos_le P1). pose proof (path_pos_le P2).
    rewrite IH1, IH2 by lia. reflexivity.
  - now rewrite IH.
  - rewrite IH by exact Hp. apply orb_true_r.
  - auto.
Qed.

Lemma all_ascii_complete (c : ascii) : In c all_ascii.
Proof.
  unfold all_ascii. rewrite <- (ascii_nat_embedding c).
  apply in_map, in_seq. pose proof (nat_ascii_bounded c). lia.
Qed.

(* ------------------------------------------------------------------------- *)
(** * A match seen from inside its own text *)

Section Window.
Variable s : str.
Variables st en : nat.
Hypothesis st_en : st <= en.
Hypothesis en_len : en <= length s.

Let t : str := slice s st en.

Lemma window_rest (i : nat) :
  st <= i -> skipn (i - st) t = firstn (en - i) (skipn i s).
Proof.
  intros Hi. unfold t, slice.
  rewrite skipn_firstn_comm, skipn_skipn.
  f_equal; [lia|f_equal; lia].
Qed.

Lemma window_step (i : nat) (x : ascii) (u : str) :
  st <= i -> i < en -> skipn i s = x :: u ->
  skipn (i - st) t = x :: firstn (en - S i) u.
Proof.
  intros Hi Hlt E. rewrite window_rest, E by exact Hi.
  replace (en - i) with (S (en - S i)) by lia. reflexivity.
Qed.

(** A path without [\b] that ends inside the window is a path of the
    window's text. *)
Lemma window_path r c g c1 g1 :
  path r c g c1 g1 ->
  forall i g', c = cursor_at s i -> st <= i -> c_pos c1 <= en ->
  wb_free r = true ->
  exists g1', path r (cursor_at t (i - st)) g' (cursor_at t (c_pos c1 - st)) g1'.
Proof.
  induction 1 as [c g|p c g x u E Px|r1 r2 c g c1 g1 c2 g2 P1 IH1 P2 IH2
                 |r1 r2 c g c1 g1 _ IH|r1 r2 c g c1 g1 _ IH
                 |r c g c1 g1 _ IH|r c g|p c g|p c g x u c1 g1 E Px P IH
                 |n r c g c1 g1 _ IH|c g E|c g E];
    intros i g' Hc Hi Hen Hwb; simpl in Hwb.
  - subst c. eexists. apply P_Eps.
  - subst c. rewrite cursor_at_rest in E.
    change (c_pos (advance (cursor_at s i) x u)) with (S i) in *.
    exists g'.
    replace (S i - st) with (S (i - st)) by lia.
    assert (E' : skipn (i - st) t = x :: firstn (en - S i) u)
      by (apply window_step; auto; lia).
    rewrite <- (advance_cursor_at _ _ E'). now constructor.
  - apply andb_prop in Hwb as [W1 W2].
    assert (Hi' : i <= length s).
    { pose proof (path_pos_le P1). pose proof (path_pos_le P2).
      subst c. simpl in *. lia. }
    destruct (path_cursor_at (s:=s) P1 Hc Hi') as (j & Hj & Hij & Hjl).
    destruct (path_cursor_at (s:=s) P2 Hj Hjl) as (j' & Hj' & Hjj & Hjl').
    subst c2. simpl in Hen.
    destruct (IH1 i g' Hc Hi) as (g1' & Q1); [subst c1; simpl; lia|exact W1|].
    destruct (IH2 j g1' Hj) as (g2' & Q2); [lia|simpl; lia|exact W2|].
    subst c1. simpl in Q1. exists g2'. econstructor; eassumption.
  - apply andb_prop in Hwb as [W1 W2].
    destruct (IH i g' Hc Hi Hen W1) as (g1' & Q). eexists. apply P_AltL, Q.
  - apply andb_prop in Hwb as [W1 W2].
    destruct (IH i g' Hc Hi Hen W2) as (g1' & Q). eexists. apply P_AltR, Q.
  - destruct (IH i g' Hc Hi Hen Hwb) as (g1' & Q). eexists. apply P_OptSome, Q.
  - subst c. eexists. apply P_OptNone.
  - subst c. eexists. apply P_StarNil.
  - subst c. rewrite cursor_at_rest in E.
    pose proof (skipn_cons_inv _ _ E) as (_ & _ & Hlt).
    rewrite (advance_cursor_at _ _ E) in P, IH.
    destruct (path_cursor_at (s:=s) (i:=S i) P eq_refl Hlt) as (j & -> & Hij & Hjl).
    simpl in Hen.
    destruct (IH (S i) g' eq_refl) as (g1' & Q); [lia|simpl; lia|reflexivity|].
    exists g1'. simpl.
    assert (E' : skipn (i - st) t = x :: firstn (en - S i) u)
      by (apply window_step; auto; lia).
    eapply P_StarCons; [exact E'|exact Px|].
    rewrite (advance_cursor_at _ _ E').
    replace (S (i - st)) with (S i - st) by lia. exact Q.
  - destruct (IH i g' Hc Hi Hen Hwb) as (g1' & Q). eexists. apply P_Group, Q.
  - discriminate.
  - subst c. exists g'. apply P_NotDigitAhead.
    change (c_pos (cursor_at s i)) with i in *.
    intros x u E'. rewrite cursor_at_rest in E'.
    rewrite window_rest in E' by exact Hi.
    rewrite cursor_at_rest in E.
    revert E E'. destruct (skipn i s) as [|y u'] eqn:Es; intros E E'.
    + now rewrite firstn_nil in E'.
    + destruct (en - i); [discriminate|]. simpl in E'. injection E' as <- _.
      eapply E. reflexivity.
Qed.

(** The same for a pattern that starts with [\b], from the start of the
    window, when the window starts with a word character. *)
Lemma window_path_head r : forall c g c1 g1 g',
  path r c g c1 g1 ->
  c = cursor_at s st -> c_pos c1 <= en ->
  wb_head r = true ->
  is_word_opt (hd_error t) = true ->
  exists g1', path r (cursor_at t 0) g' (cursor_at t (c_pos c1 - st)) g1'.
Proof.
  assert (Hfree : forall r0 c g c1 g1 g',
             path r0 c g c1 g1 -> c = cursor_at s st -> c_pos c1 <= en ->
             wb_free r0 = true ->
             exists g1', path r0 (cursor_at t 0) g' (cursor_at t (c_pos c1 - st)) g1').
  { intros r0 c g c1 g1 g' P Hc Hen W.
    destruct (window_path P g' Hc (le_n st) Hen W) as (g1' & Q).
    rewrite Nat.sub_diag in Q. eauto. }
  induction r as [|p|r1 IH1 r2 IH2|r1 IH1 r2 IH2|r1 IH1|p|n r1 IH1| |];
    intros c g c1 g1 g' P Hc Hen W Hw; simpl in W;
    try (eapply Hfree; eassumption).
  - inversion P as [| |? ? ? ? cm gm ? ? P1 P2| | | | | | | | |]; subst.
    apply andb_prop in W as [W1 W2].
    assert (Hst : st <= length s) by lia.
    destruct (path_cursor_at (s:=s) (i:=st) P1 eq_refl Hst) as (j & Hj & Hij & Hjl).
    destruct (path_cursor_at (s:=s) P2 Hj Hjl) as (j' & Hj' & Hjj & Hjl').
    subst c1. simpl in Hen.
    destruct (IH1 _ _ _ _ g' P1 eq_refl) as (g1' & Q1);
      [subst cm; simpl; lia|exact W1|exact Hw|].
    destruct (window_path P2 g1' Hj) as (g2' & Q2); [lia|simpl; lia|exact W2|].
    subst cm. simpl in Q1, Q2. exists g2'. econstructor; eassumption.
  - inversion P; subst. simpl. rewrite Nat.sub_diag.
    exists g'. apply P_WordB. simpl. exact Hw.
Qed.

End Window.

(* ------------------------------------------------------------------------- *)
(** * What [finditer] yields *)

Lemma sweep_In r (s : str) : forall rest prev pos next st m,
  Cursor prev pos rest = cursor_at s pos -> pos <= length s ->
  In (st, m) (sweep r prev pos rest next) ->
  pos <= st /\ st <= length s /\ match_at r (cursor_at s st) = Some m.
Proof.
  induction rest as [|x t IH]; intros prev pos next st m Hc Hpos Hin;
    cbn [sweep] in Hin.
  - destruct (if pos <? next then None else match_at r (Cursor prev pos []))
      as [m'|] eqn:E; [|contradiction].
    destruct Hin as [[= <- <-]|[]].
    destruct (pos <? next); [discriminate|].
    rewrite Hc in E. auto.
  - apply in_app_or in Hin as [Hin|Hin].
    + destruct (if pos <? next then None else match_at r (Cursor prev pos (x :: t)))
        as [m'|] eqn:E; [|contradiction].
      destruct Hin as [[= <- <-]|[]].
      destruct (pos <? next); [discriminate|].
      rewrite Hc in E. auto.
    + assert (Hs : skipn pos s = x :: t).
      { apply (f_equal c_rest) in Hc. simpl in Hc. now rewrite <- Hc. }
      apply IH in Hin.
      * destruct Hin as (H1 & H2 & H3). repeat split; auto. lia.
      * rewrite <- (advance_cursor_at _ _ Hs). reflexivity.
      * apply skipn_cons_inv in Hs as (_ & _ & Hlt). lia.
Qed.

Lemma finditer_In r (s : str) st m :
  In (st, m) (finditer r s) ->
  st <= length s /\ match_at r (cursor_at s st) = Some m.
Proof.
  intros H. apply (@sweep_In r s) in H; [tauto|reflexivity|lia].
Qed.

(** A successful attempt at offset [st] follows a path to its end. *)
Lemma match_at_path r (s : str) st en g :
  st <= length s ->
  match_at r (cursor_at s st) = Some (en, g) ->
  st <= en /\ en <= length s /\ path r (cursor_at s st) [] (cursor_at s en) g.
Proof.
  intros Hst H. unfold match_at in H.
  apply rmatch_sound in H as (c1 & g1 & P & K).
  injection K as <- <-.
  destruct (path_cursor_at (s:=s) P eq_refl Hst) as (j & -> & Hij & Hj).
  simpl. auto.
Qed.

(** The span of every match lies in the string. *)
Lemma finditer_span r (s : str) st en g :
  In (st, (en, g)) (finditer r s) -> st <= en /\ en <= length s.
Proof.
  intros H. apply finditer_In in H as (Hst & H).
  apply match_at_path in H; tauto.
Qed.

(** No pattern of the catalog matches the empty string, so the sweep of
    [finditer] always goes on from the end of a match. *)
Lemma match_nonempty r (s : str) st en g :
  nullable r = false -> In (st, (en, g)) (finditer r s) -> st < en.
Proof.
  intros Hn Hin. apply finditer_In in Hin as (Hst & H).
  apply match_at_path in H as (Hse & _ & P); [|exact Hst].
  destruct (Nat.eq_dec st en) as [<-|]; [|lia].
  rewrite (path_still_nullable P eq_refl) in Hn. discriminate.
Qed.

Lemma catalog_not_nullable : forallb (fun r => negb (nullable r)) _regexes = true.
Proof. vm_compute. reflexivity. Qed.

Lemma rematchable_first r x :
  rematchable r = true -> firsts r x = true -> is_word x = true.
Proof.
  unfold rematchable. intros H F.
  apply andb_prop in H as [_ H].
  rewrite forallb_forall in H. specialize (H x (all_ascii_complete x)).
  now rewrite F in H.
Qed.

(** The text of a match, taken alone, matches the pattern from its start. *)
Lemma rematch_succeeds r (s : str) st en g :
  rematchable r = true ->
  In (st, (en, g)) (finditer r s) ->
  exists m, re_match r (slice s st en) = Some m.
Proof.
  intros Hr Hin.
  apply finditer_In in Hin as (Hst & H).
  apply match_at_path in H as (Hse & Hen & P); [|exact Hst].
  assert (Hr' := Hr). unfold rematchable in Hr'.
  apply andb_prop in Hr' as [Hr' _]. apply andb_prop in Hr' as [Hwb Hnull].
  apply negb_true_iff in Hnull.
  destruct (path_first P) as [[_ N]|(x & u & E & F)]; [congruence|].
  rewrite cursor_at_rest in E.
  assert (Hlt : st < en).
  { destruct (Nat.eq_dec st en) as [<-|]; [|lia].
    rewrite (path_still_nullable P eq_refl) in Hnull. discriminate. }
  assert (Hw : is_word_opt (hd_error (slice s st en)) = true).
  { unfold slice. rewrite E. replace (en - st) with (S (en - S st)) by lia.
    simpl. eapply rematchable_first; eassumption. }
  destruct (window_path_head Hse Hen [] P eq_refl) as (g' & Q);
    [exact (le_n en)|exact Hwb|exact Hw|].
  unfold re_match, match_at. rewrite <- cursor_at_0.
  destruct (rmatch r (cursor_at (slice s st en) 0) [] accept) as [m|] eqn:M;
    [eauto|].
  exfalso. revert M. eapply rmatch_complete; [exact Q|discriminate].
Qed.

(** Every pattern of the catalog qualifies. *)
Lemma catalog_rematchable : forallb rematchable _regexes = true.
Proof. vm_compute. reflexivity. Qed.

(* ------------------------------------------------------------------------- *)
(** * The text of the groups *)

(** A path takes a word of the pattern. *)
Lemma path_lang r c g c1 g1 :
  path r c g c1 g1 ->
  exists w, c_rest c = w ++ c_rest c1 /\ c_pos c1 = c_pos c + length w /\ lang r w.
Proof.
  induction 1 as [c g|p c g x t E Px|r1 r2 c g c1 g1 c2 g2 _ IH1 _ IH2
                 |r1 r2 c g c1 g1 _ IH|r1 r2 c g c1 g1 _ IH
                 |r c g c1 g1 _ IH|r c g|p c g|p c g x t c1 g1 E Px _ IH
                 |n r c g c1 g1 _ IH|c g E|c g E];
    simpl;
    try (exists []; simpl; repeat split; auto; lia).
  - exists [x]. simpl. repeat split; eauto; lia.
  - destruct IH1 as (u & E1 & L1 & H1), IH2 as (v & E2 & L2 & H2).
    exists (u ++ v). rewrite <- app_assoc, <- E2, length_app.
    repeat split; [exact E1|lia|eauto].
  - destruct IH as (w & ? & ? & ?). exists w. auto.
  - destruct IH as (w & ? & ? & ?). exists w. auto.
  - destruct IH as (w & ? & ? & ?). exists w. auto.
  - destruct IH as (w & Ew & Lw & Hw). simpl in *.
    exists (x :: w). simpl. rewrite E, Ew, Px, Hw. repeat split. lia.
  - exact IH.
Qed.

Lemma enum_complete r : forall l w, enum r = Some l -> lang r w -> In w l.
Proof.
  induction r as [|p|r1 IH1 r2 IH2|r1 IH1 r2 IH2|r1 IH1|p|n r1 IH1| |];
    cbn [enum lang]; intros l w E L.
  - injection E as <-. now left.
  - assert (El : l = map (fun x => [x]) (filter p all_ascii)) by congruence.
    subst l. clear E. destruct L as (x & -> & Px).
    apply (in_map (fun y => [y])), filter_In.
    split; [apply all_ascii_complete|exact Px].
  - destruct (enum r1) as [l1|]; [|discriminate].
    destruct (enum r2) as [l2|]; [|discriminate].
    injection E as <-. destruct L as (u & v & -> & Lu & Lv).
    apply in_flat_map. exists u. split; [now apply IH1|].
    apply in_map. now apply IH2.
  - destruct (enum r1) as [l1|]; [|discriminate].
    destruct (enum r2) as [l2|]; [|discriminate].
    injection E as <-. apply in_or_app. destruct L; [left|right]; eauto.
  - destruct (enum r1) as [l1|]; [|discriminate].
    injection E as <-. destruct L as [->|L]; [now left|right; eauto].
  - discriminate.
  - eauto.
  - injection E as <-. now left.
  - injection E as <-. now left.
Qed.

(** A group without repetition is sound when each of its words is. *)
Lemma finite_group_ok (n : gname) (r : regex) (l : list str) :
  enum r = Some l -> forallb (group_okb n) l = true ->
  forall w, lang r w -> group_okb n w = true.
Proof.
  intros E H w L. rewrite forallb_forall in H.
  apply H. eapply enum_complete; eassumption.
Qed.

(** The group [frac]: a separator, then one digit or more. *)
Lemma frac_group_ok (p0 p q : ascii -> bool) (w : str) :
  (forall x, p x = true -> is_decimal x = true) ->
  (forall x, q x = true -> is_decimal x = true) ->
  lang (Seq (Chr p0) (Seq (Chr p) (Star q))) w -> group_okb g_frac w = true.
Proof.
  simpl. intros Hp Hq (u & v & -> & (x & -> & _) & (u' & v' & -> & (d & -> & D) & S)).
  simpl. rewrite (Hp d D). simpl.
  rewrite forallb_forall in *. auto.
Qed.

Lemma group_checked_ok (n : gname) (r1 : regex) :
  group_checked n r1 = true -> forall w, lang r1 w -> group_okb n w = true.
Proof.
  assert (F : forall l, enum r1 = Some l -> forallb (group_okb n) l = true ->
                        forall w, lang r1 w -> group_okb n w = true)
    by (intros; eapply finite_group_ok; eassumption).
  unfold group_checked.
  destruct n; try (intros _ w _; reflexivity);
    try (destruct (enum r1) as [l|]; [intros H; now apply (F l)|discriminate]).
  destruct r1 as [|?|r1 r2|? ?|?|?|? ?| |]; try discriminate.
  destruct r1; try discriminate.
  destruct r2 as [|?|r2 r3|? ?|?|?|? ?| |]; try discriminate.
  destruct r2; try discriminate. destruct r3; try discriminate.
  intros H. rewrite forallb_forall in H.
  intros w Lw. eapply frac_group_ok; [| |exact Lw]; intros x Hx;
    specialize (H x (all_ascii_complete x)); cbv beta in H;
    apply andb_prop in H as [H1 H2].
  - rewrite Hx in H1. exact H1.
  - rewrite Hx in H2. exact H2.
Qed.

Lemma groups_checked_sound r : groups_checked r = true -> groups_sound r.
Proof.
  induction r as [|p|r1 IH1 r2 IH2|r1 IH1 r2 IH2|r1 IH1|p|n r1 IH1| |];
    cbn [groups_checked groups_sound]; intros H; auto;
    try (apply andb_prop in H as [H1 H2]; split; auto).
  now apply group_checked_ok.
Qed.

Lemma catalog_groups_checked :
  forallb groups_checked (_regex_gmt :: _regexes) = true.
Proof. vm_compute. reflexivity. Qed.

(** The spans a path adds to sound ones are sound. *)
Lemma caps_sound (s : str) r c g c1 g1 :
  path r c g c1 g1 -> groups_sound r ->
  forall i, c = cursor_at s i -> i <= length s -> caps_ok s g -> caps_ok s g1.
Proof.
  induction 1 as [c g|p c g x t E Px|r1 r2 c g c1 g1 c2 g2 P1 IH1 P2 IH2
                 |r1 r2 c g c1 g1 _ IH|r1 r2 c g c1 g1 _ IH
                 |r c g c1 g1 _ IH|r c g|p c g|p c g x t c1 g1 E Px P IH
                 |n r c g c1 g1 P IH|c g E|c g E];
    simpl; intros G i Hc Hi Hg; auto.
  - destruct G as [G1 G2].
    destruct (path_cursor_at (s:=s) P1 Hc Hi) as (j & Hj & _ & Hjl).
    eapply IH2; eauto.
  - destruct G; eauto.
  - destruct G; eauto.
  - eauto.
  - subst c. rewrite cursor_at_rest in E.
    pose proof (skipn_cons_inv _ _ E) as (_ & _ & Hlt).
    apply (IH I (S i)); auto. now apply advance_cursor_at.
  - destruct G as [Gn G].
    intros m a b [[= <- <- <-]|Hin]; [|eapply IH; eauto].
    destruct (path_lang P) as (w & Ew & Lw & Hw).
    subst c. rewrite cursor_at_rest in Ew.
    change (c_pos (cursor_at s i)) with i in *.
    unfold slice. rewrite Ew, Lw.
    replace (i + length w - i) with (length w) by lia.
    rewrite firstn_app, Nat.sub_diag, firstn_all, firstn_0, app_nil_r.
    now apply Gn.
Qed.

Lemma lookup_In (n : gname) (g : caps) (sp : nat * nat) :
  lookup n g = Some sp -> In (n, sp) g.
Proof.
  induction g as [|[m sp'] g IH]; simpl; [discriminate|].
  destruct (gname_eqb n m) eqn:E.
  - intros [= <-]. left. f_equal. destruct n, m; simpl in E; congruence.
  - auto.
Qed.

(* ------------------------------------------------------------------------- *)
(** * Loops that cannot raise *)

Lemma foldM_invariant {S X} (f : S -> X -> result S) (I : S -> Prop) (l : list X) :
  (forall x st, In x l -> I st -> exists st', f st x = Ok st' /\ I st') ->
  forall st, I st -> exists st', foldM f l st = Ok st' /\ I st'.
Proof.
  induction l as [|x t IH]; intros H st Hst; simpl; [eauto|].
  destruct (H x st (or_introl eq_refl) Hst) as (st1 & -> & H1). simpl.
  apply IH; [|exact H1]. intros y st' Hy. apply H. now right.
Qed.

Lemma mapM_Forall2 {X Y} (f : X -> result Y) (T : X -> Y -> Prop) (l : list X) :
  (forall x, In x l -> exists y, f x = Ok y /\ T x y) ->
  exists ys, mapM f l = Ok ys /\ Forall2 T l ys.
Proof.
  induction l as [|x t IH]; intros H; simpl; [eauto|].
  destruct (H x (or_introl eq_refl)) as (y & -> & Hy).
  destruct IH as (ys & -> & Hys); [intros; apply H; now right|].
  simpl. eauto.
Qed.

Lemma mapM_inv {X Y} (f : X -> result Y) (l : list X) (ys : list Y) :
  mapM f l = Ok ys -> Forall2 (fun x y => f x = Ok y) l ys.
Proof.
  revert ys. induction l as [|x t IH]; simpl; intros ys H.
  - injection H as <-. constructor.
  - destruct (f x) as [y|] eqn:E; [|discriminate]. simpl in H.
    destruct (mapM f t) as [ys'|]; [|discriminate]. simpl in H.
    injection H as <-. constructor; auto.
Qed.

(* ------------------------------------------------------------------------- *)
(** * The candidates of a sentence *)

Lemma candidates_for_scanned (sentence : str) (c : _Candidate) :
  In c (candidates_for sentence) <-> scanned sentence c.
Proof.
  unfold candidates_for, scanned. rewrite sorted_In, in_flat_map.
  split.
  - intros (r & Hr & Hc). unfold candidates_of in Hc.
    apply in_map_iff in Hc as ([st [en g]] & <- & Hin).
    exists r, st, en, g. auto.
  - intros (r & st & en & g & Hr & Hin & ->).
    exists r. split; [exact Hr|]. unfold candidates_of.
    apply in_map_iff. exists (st, (en, g)). auto.
Qed.

Lemma candidates_for_longest_first (sentence : str) :
  longest_first (candidates_for sentence).
Proof.
  unfold longest_first, candidates_for.
  apply (sorted_sorted (fun x => (cand_end x - cand_start x)%Z) true).
Qed.

Lemma scanned_well_formed (sentence : str) (c : _Candidate) :
  scanned sentence c -> well_formed c.
Proof.
  intros (r & st & en & g & _ & Hin & ->).
  apply finditer_span in Hin. unfold well_formed. simpl. lia.
Qed.

Lemma candidates_for_well_formed (sentence : str) :
  Forall well_formed (candidates_for sentence).
Proof.
  rewrite Forall_forall. intros c Hc.
  eapply scanned_well_formed, candidates_for_scanned, Hc.
Qed.

Lemma greedy_incl (n : nat) : forall l c, In c (greedy n l) -> In c l.
Proof.
  induction n as [|n IH]; intros l c H; [contradiction|].
  destruct l as [|w t]; [contradiction|]. simpl in H.
  destruct H as [<-|H]; [now left|].
  right. apply IH in H. now apply filter_In in H.
Qed.

(** Overlap resolution in [run]: it returns, and returns [greedy]. *)
Lemma run_pruned (sentence : str) :
  _remove_overlap (candidates_for sentence)
  = Ok (greedy (length (candidates_for sentence)) (candidates_for sentence)).
Proof.
  apply remove_overlap_greedy.
  - apply candidates_for_well_formed.
  - apply candidates_for_longest_first.
Qed.

(* ------------------------------------------------------------------------- *)
(** * From a match to the fields of a result *)

Lemma search_from_spec r (s : str) : forall rest prev pos p m,
  Cursor prev pos rest = cursor_at s pos -> pos <= length s ->
  search_from r prev pos rest = Some (p, m) ->
  p <= length s /\ match_at r (cursor_at s p) = Some m.
Proof.
  induction rest as [|x t IH]; intros prev pos p m Hc Hpos H; simpl in H.
  - destruct (match_at r (Cursor prev pos [])) as [m'|] eqn:E; [|discriminate].
    injection H as <- <-. rewrite Hc in E. auto.
  - destruct (match_at r (Cursor prev pos (x :: t))) as [m'|] eqn:E.
    + injection H as <- <-. rewrite Hc in E. auto.
    + assert (Hs : skipn pos s = x :: t).
      { apply (f_equal c_rest) in Hc. simpl in Hc. now rewrite <- Hc. }
      apply IH in H; auto.
      * rewrite <- (advance_cursor_at _ _ Hs). reflexivity.
      * apply skipn_cons_inv in Hs as (_ & _ & Hlt). lia.
Qed.

Lemma re_search_spec r (s : str) p m :
  re_search r s = Some (p, m) ->
  p <= length s /\ match_at r (cursor_at s p) = Some m.
Proof.
  intros H. apply (@search_from_spec r s) in H; [tauto|reflexivity|lia].
Qed.

(** The groups of a match are sound when the pattern's are. *)
Lemma match_caps_ok r (s : str) st m :
  groups_sound r -> st <= length s ->
  match_at r (cursor_at s st) = Some m -> caps_ok s (snd m).
Proof.
  intros G Hst H. destruct m as [en g].
  apply match_at_path in H as (_ & _ & P); [|exact Hst].
  eapply caps_sound; eauto. intros n a b [].
Qed.

Lemma groupdict_ok r (s : str) (m : mobj) :
  caps_ok s (snd m) ->
  forall n v, In (n, Some v) (groupdict r s m) -> group_okb n v = true.
Proof.
  intros H n v Hin. unfold groupdict in Hin.
  apply in_map_iff in Hin as (n' & E & _).
  destruct (lookup n' (snd m)) as [[a b]|] eqn:L; [|discriminate].
  injection E as <- <-. apply H. now apply lookup_In.
Qed.

Lemma int_within_inv (lo hi : Z) (w : str) :
  int_within lo hi w = true -> exists z, py_int w = Ok z /\ (lo <= z <= hi)%Z.
Proof.
  unfold int_within. destruct (py_int w) as [z|]; [|discriminate].
  intros H. apply andb_prop in H as [H1 H2]. exists z. split; [reflexivity|lia].
Qed.

Lemma str_eqb_eq (a b : str) : str_eqb a b = true -> a = b.
Proof.
  unfold str_eqb. now destruct (list_eq_dec ascii_dec a b).
Qed.

Lemma within_Some (lo hi z : Z) : (lo <= z <= hi)%Z -> within lo hi (Some z).
Proof. intros H z' [= <-]. exact H. Qed.

Ltac conj_each tac :=
  lazymatch goal with
  | |- _ /\ _ => apply conj; [tac|conj_each tac]
  | _ => tac
  end.

Ltac locals_split :=
  match goal with
  | H : locals_ok _ |- _ =>
      unfold locals_ok in H; cbn in H;
      destruct H as (? & ? & ? & ? & ? & ? & ? & ?)
  end;
  unfold locals_ok; cbn;
  conj_each ltac:(try assumption; try (apply within_Some; assumption)).

Lemma gmt_step_ok (st : locals) (n : gname) (v : str) :
  group_okb n v = true -> locals_ok st ->
  exists st', gmt_step st (n, Some v) = Ok st' /\ locals_ok st'.
Proof.
  intros G Hst. unfold gmt_step. cbn [fst snd].
  destruct n; cbn [group_okb] in G; try (exists st; split; [reflexivity|exact Hst]).
  - eexists. split; [reflexivity|]. locals_split.
    intros x [= <-]. apply orb_prop in G as [G|G]; apply str_eqb_eq in G; auto.
  - apply int_within_inv in G as (z & -> & Hz). cbn [bind].
    eexists. split; [reflexivity|]. locals_split.
  - apply int_within_inv in G as (z & -> & Hz). cbn [bind].
    eexists. split; [reflexivity|]. locals_split.
Qed.

Lemma catalog_groups_sound r : In r (_regex_gmt :: _regexes) -> groups_sound r.
Proof.
  intros H. apply groups_checked_sound.
  pose proof catalog_groups_checked as C. rewrite forallb_forall in C. auto.
Qed.

Lemma field_step_ok (st : locals) (n : gname) (v : str) :
  group_okb n v = true -> locals_ok st ->
  exists st', field_step st (n, Some v) = Ok st' /\ locals_ok st'.
Proof.
  intros G Hst. unfold field_step. cbn [fst snd].
  destruct n; cbn [group_okb] in G; try (exists st; split; [reflexivity|exact Hst]).
  - apply int_within_inv in G as (z & -> & Hz). cbn [bind].
    eexists. split; [reflexivity|]. locals_split.
  - apply int_within_inv in G as (z & -> & Hz). cbn [bind].
    eexists. split; [reflexivity|]. locals_split.
  - apply int_within_inv in G as (z & -> & Hz). cbn [bind].
    eexists. split; [reflexivity|]. locals_split.
  - eexists. split; [reflexivity|]. locals_split.
    intros f [= <-]. destruct v as [|x [|d ds]]; try discriminate.
    split; [discriminate|exact G].
  - eexists. split; [reflexivity|]. locals_split.
    intros a [= <-]. destruct (found "a" v || found "A" v); auto.
  - eexists. split; [reflexivity|]. locals_split.
  - destruct (re_search _regex_gmt v) as [[p m]|] eqn:E.
    + apply foldM_invariant; [|locals_split].
      intros [k [w|]] st0 Hin H0; [|exists st0; auto].
      apply gmt_step_ok; [|exact H0].
      apply re_search_spec in E as (Hp & E).
      eapply groupdict_ok; [|exact Hin].
      eapply match_caps_ok; [|exact Hp|exact E].
      apply catalog_groups_sound. now left.
    + eexists. split; [reflexivity|]. locals_split.
Qed.

Lemma empty_locals_ok : locals_ok empty_locals.
Proof. unfold locals_ok, within. cbn. repeat split; intros; discriminate. Qed.

(** A candidate of the scan becomes a result: the assertion holds, no
    conversion raises, and the fields are in their ranges. *)
Lemma normalize_ok (sentence : str) (c : _Candidate) :
  scanned sentence c ->
  exists r, normalize c = Ok r /\ result_of c r /\ record_ok r.
Proof.
  intros (regex & st & en & g & Hr & Hin & ->).
  assert (Hre : rematchable regex = true).
  { pose proof catalog_rematchable as C. rewrite forallb_forall in C. auto. }
  destruct (rematch_succeeds _ _ _ _ _ Hre Hin) as (m & Hm).
  unfold normalize. cbn [cand_regex cand_match_text cand_start cand_end].
  rewrite Hm.
  destruct (@foldM_invariant _ _ field_step locals_ok
              (groupdict regex (slice sentence st en) m)) with (st := empty_locals)
    as (l & -> & Hl).
  - intros [k [w|]] st0 Hk H0; [|exists st0; auto].
    apply field_step_ok; [|exact H0].
    eapply groupdict_ok; [|exact Hk].
    eapply (@match_caps_ok regex (slice sentence st en) 0 m); [|lia|exact Hm].
    apply catalog_groups_sound. now right.
  - apply empty_locals_ok.
  - cbn [bind]. eexists. split; [reflexivity|].
    split; [repeat split|].
    unfold locals_ok in Hl. unfold record_ok. cbn. exact Hl.
Qed.

(* ------------------------------------------------------------------------- *)
(** * The shape of a run *)

Lemma Forall2_In_r {X Y} (T : X -> Y -> Prop) (l : list X) (l' : list Y) (y : Y) :
  Forall2 T l l' -> In y l' -> exists x, In x l /\ T x y.
Proof.
  induction 1 as [|x y' l l' Hxy _ IH]; intros Hin; [contradiction|].
  destruct Hin as [<-|Hin].
  - exists x. split; [now left|exact Hxy].
  - destruct (IH Hin) as (x' & Hx' & Hy). exists x'. split; [now right|exact Hy].
Qed.

Lemma Forall2_In_l {X Y} (T : X -> Y -> Prop) (l : list X) (l' : list Y) (x : X) :
  Forall2 T l l' -> In x l -> exists y, In y l' /\ T x y.
Proof.
  induction 1 as [|x' y l l' Hxy _ IH]; intros Hin; [contradiction|].
  destruct Hin as [<-|Hin].
  - exists y. split; [now left|exact Hxy].
  - destruct (IH Hin) as (y' & Hy' & Hy). exists y'. split; [now right|exact Hy].
Qed.

(** What [run] returns: the results of the candidates that overlap
    resolution keeps, sorted by their start. *)
Lemma run_inv (sentence : str) (rs : list TimeValue) :
  run sentence = Ok rs ->
  let cs := candidates_for (_clean_sentence sentence) in
  exists results,
    Forall2 (fun c r => normalize c = Ok r) (greedy (length cs) cs) results /\
    rs = sorted start false results.
Proof.
  unfold run. rewrite run_pruned. cbn [bind].
  destruct (mapM normalize _) as [results|] eqn:E; [|discriminate].
  cbn [bind]. intros [= <-]. exists results.
  split; [now apply mapM_inv|reflexivity].
Qed.

(** [run] returns on every sentence. *)
Lemma run_total (sentence : str) : exists rs, run sentence = Ok rs.
Proof.
  unfold run. rewrite run_pruned. cbn [bind].
  destruct (@mapM_Forall2 _ _ normalize (fun _ _ => True)
              (greedy (length (candidates_for (_clean_sentence sentence)))
                      (candidates_for (_clean_sentence sentence))))
    as (ys & -> & _).
  - intros c Hc. apply greedy_incl, candidates_for_scanned in Hc.
    destruct (normalize_ok Hc) as (r & Hr & _). eauto.
  - cbn [bind]. eauto.
Qed.

(** Every result comes from a candidate that was scanned and kept. *)
Lemma run_result_origin (sentence : str) (rs : list TimeValue) (r : TimeValue) :
  run sentence = Ok rs -> In r rs ->
  let cs := candidates_for (_clean_sentence sentence) in
  exists c, In c (greedy (length cs) cs) /\
            scanned (_clean_sentence sentence) c /\
            normalize c = Ok r /\ result_of c r /\ record_ok r.
Proof.
  intros H Hin cs. destruct (run_inv _ H) as (results & F & ->).
  apply sorted_In in Hin.
  destruct (Forall2_In_r r F Hin) as (c & Hc & Hn).
  exists c. split; [exact Hc|].
  assert (Hs : scanned (_clean_sentence sentence) c)
    by (apply candidates_for_scanned; eapply greedy_incl; exact Hc).
  split; [exact Hs|]. split; [exact Hn|].
  destruct (normalize_ok Hs) as (r' & Hr' & Ho & Hk).
  rewrite Hn in Hr'. injection Hr' as <-. auto.
Qed.

(* ------------------------------------------------------------------------- *)
(** * Properties of [greedy] *)

Lemma overlapb_sym (a b : _Candidate) : overlapb a b = overlapb b a.
Proof.
  unfold overlapb.
  destruct (Z.leb_spec (cand_end b) (cand_start a)),
    (Z.geb_spec (cand_start b) (cand_end a)),
    (Z.leb_spec (cand_end a) (cand_start b)),
    (Z.geb_spec (cand_start a) (cand_end b)); simpl; try reflexivity; lia.
Qed.

Lemma overlapb_false_apart (a b : _Candidate) :
  overlapb a b = false ->
  apart (cand_start a) (cand_end a) (cand_start b) (cand_end b).
Proof.
  unfold overlapb, apart.
  destruct (Z.leb_spec (cand_end b) (cand_start a)),
    (Z.geb_spec (cand_start b) (cand_end a)); simpl; intros; try discriminate; lia.
Qed.

(** The candidates that are kept do not overlap one another. *)
Lemma greedy_pairwise (n : nat) : forall l,
  pairwise (fun a b => overlapb a b = false) (greedy n l).
Proof.
  unfold pairwise.
  induction n as [|n IH]; intros l; [constructor|].
  destruct l as [|w t]; [constructor|]. simpl.
  constructor; [|apply IH].
  rewrite Forall_forall. intros c Hc.
  apply greedy_incl, filter_In in Hc as [_ Hc].
  now apply negb_true_iff in Hc.
Qed.

(** Every candidate is kept, or overlaps a kept one that is at least as
    long. *)
Lemma greedy_covers (n : nat) : forall l c,
  length l <= n -> longest_first l -> In c l ->
  In c (greedy n l)
  \/ exists w, In w (greedy n l) /\ overlapb w c = true /\ (clen c <= clen w)%Z.
Proof.
  unfold longest_first.
  induction n as [|n IH]; intros l c Hlen Hs Hin.
  - destruct l; [contradiction|simpl in Hlen; lia].
  - destruct l as [|w t]; [contradiction|].
    inversion Hs as [|? ? Hst Hall]; subst. simpl.
    destruct Hin as [<-|Hin]; [now left; left|].
    destruct (overlapb w c) eqn:O.
    + right. exists w. split; [now left|]. split; [exact O|].
      rewrite Forall_forall in Hall. now apply Hall.
    + destruct (IH (filter (fun c0 => negb (overlapb w c0)) t) c) as [H|(w' & H & H')].
      * pose proof (filter_length_le (fun c0 => negb (overlapb w c0)) t).
        simpl in Hlen. lia.
      * clear -Hst. induction Hst as [|x l Hs' IH' Hx]; simpl; [constructor|].
        destruct (negb _); [|exact IH'].
        constructor; [exact IH'|].
        rewrite Forall_forall in *. intros y Hy. apply filter_In in Hy. now apply Hx.
      * apply filter_In. split; [exact Hin|]. now rewrite O.
      * left. now right.
      * right. exists w'. split; [now right|exact H'].
Qed.

Lemma normalize_result_of (c : _Candidate) (r : TimeValue) :
  normalize c = Ok r -> result_of c r.
Proof.
  unfold normalize.
  destruct (re_match (cand_regex c) (cand_match_text c)) as [m|]; [|discriminate].
  destruct (foldM field_step _ empty_locals) as [l|]; [|discriminate].
  cbn [bind]. intros [= <-]. repeat split.
Qed.

Lemma apart_sym (a1 b1 a2 b2 : Z) : apart a1 b1 a2 b2 -> apart a2 b2 a1 b1.
Proof. unfold apart. tauto. Qed.

(** The results of a run, in the order of the run, are pairwise apart. *)
Lemma run_pairwise_apart (sentence : str) (rs : list TimeValue) :
  run sentence = Ok rs ->
  pairwise (fun r1 r2 => apart (start r1) (end_ r1) (start r2) (end_ r2)) rs.
Proof.
  intros H. destruct (run_inv _ H) as (results & F & ->).
  eapply pairwise_perm.
  - intros x y. apply apart_sym.
  - symmetry. apply sorted_perm.
  - eapply pairwise_Forall2; [|exact F|apply greedy_pairwise].
    intros c1 c2 r1 r2 H1 H2 O. cbv beta in *.
    apply normalize_result_of in H1 as (_ & -> & ->).
    apply normalize_result_of in H2 as (_ & -> & ->).
    now apply overlapb_false_apart.
Qed.

(* ------------------------------------------------------------------------- *)
(** * Where the fields come from *)

Lemma foldM_preserves {S X} (f : S -> X -> result S) (I : S -> Prop) (l : list X) :
  (forall x st st', In x l -> I st -> f st x = Ok st' -> I st') ->
  forall st st', I st -> foldM f l st = Ok st' -> I st'.
Proof.
  induction l as [|x t IH]; intros H st st' Hst E; simpl in E.
  - now injection E as <-.
  - destruct (f st x) as [st1|] eqn:E1; [|discriminate]. simpl in E.
    eapply IH; [|eapply H; [now left|exact Hst|exact E1]|exact E].
    intros y s1 s2 Hy. apply H. now right.
Qed.

Lemma groupdict_In r (s : str) (m : mobj) (n : gname) (v : str) :
  In (n, Some v) (groupdict r s m) ->
  exists a b, lookup n (snd m) = Some (a, b) /\ v = slice s a b.
Proof.
  unfold groupdict. intros H. apply in_map_iff in H as (n' & E & _).
  destruct (lookup n' (snd m)) as [[a b]|] eqn:L; [|discriminate].
  injection E as <- <-. eauto.
Qed.

Ltac from_split :=
  match goal with
  | H : locals_from _ _ |- _ =>
      unfold locals_from, filled_from in H; cbn in H;
      destruct H as (? & ? & ? & ? & ? & ? & ? & ? & ?)
  end;
  unfold locals_from, filled_from; cbn;
  conj_each ltac:(try assumption).

Section Provenance.
Variable d : list (gname * option str).

Lemma gmt_step_from (v : str) (p : nat) (mg : mobj) (st st' : locals)
      (kv : gname * option str) :
  In (g_gmt_delta, Some v) d -> re_search _regex_gmt v = Some (p, mg) ->
  In kv (groupdict _regex_gmt v mg) ->
  locals_from d st -> gmt_step st kv = Ok st' -> locals_from d st'.
Proof.
  intros Hv Hs Hkv Hst. destruct kv as [n [w|]]; [|now intros [= <-]].
  apply groupdict_In in Hkv as (a & b & L & ->).
  unfold gmt_step. cbn [fst snd].
  destruct n; try (now intros [= <-]).
  - intros [= <-]. from_split.
    intros w [= <-]. exists v, p, mg, a, b. auto.
  - destruct (py_int (slice v a b)) as [z|] eqn:Ez; [|discriminate].
    intros [= <-]. from_split.
    intros z' [= <-]. exists (slice v a b). split; [|exact Ez].
    exists v, p, mg, a, b. auto.
  - destruct (py_int (slice v a b)) as [z|] eqn:Ez; [|discriminate].
    intros [= <-]. from_split.
    intros z' [= <-]. exists (slice v a b). split; [|exact Ez].
    exists v, p, mg, a, b. auto.
Qed.

Lemma field_step_from (st st' : locals) (kv : gname * option str) :
  In kv d -> locals_from d st -> field_step st kv = Ok st' -> locals_from d st'.
Proof.
  intros Hkv Hst. destruct kv as [n [v|]]; [|now intros [= <-]].
  unfold field_step. cbn [fst snd].
  destruct n; try (now intros [= <-]).
  - destruct (py_int v) as [z|] eqn:Ez; [|discriminate].
    intros [= <-]. from_split. intros z' [= <-]. eauto.
  - destruct (py_int v) as [z|] eqn:Ez; [|discriminate].
    intros [= <-]. from_split. intros z' [= <-]. eauto.
  - destruct (py_int v) as [z|] eqn:Ez; [|discriminate].
    intros [= <-]. from_split. intros z' [= <-]. eauto.
  - intros [= <-]. from_split. intros w [= <-]. eauto.
  - intros [= <-]. from_split. intros w [= <-]. eauto.
  - intros [= <-]. from_split. intros w [= <-]. eauto.
  - destruct (re_search _regex_gmt v) as [[p mg]|] eqn:Es.
    + apply foldM_preserves.
      * intros kv s1 s2 Hin. eapply gmt_step_from; eassumption.
      * from_split.
    + intros [= <-]. from_split.
Qed.

End Provenance.

Lemma empty_locals_from d : locals_from d empty_locals.
Proof.
  unfold locals_from, filled_from. cbn. repeat split; intros; discriminate.
Qed.

(** The fields of a result were filled from the groups of the match of its
    text against its pattern. *)
Lemma normalize_from (c : _Candidate) (r : TimeValue) :
  normalize c = Ok r ->
  exists m, re_match (cand_regex c) (cand_match_text c) = Some m
            /\ record_from (groupdict (cand_regex c) (cand_match_text c) m) r.
Proof.
  unfold normalize.
  destruct (re_match (cand_regex c) (cand_match_text c)) as [m|]; [|discriminate].
  destruct (foldM field_step _ empty_locals) as [l|] eqn:E; [|discriminate].
  cbn [bind]. intros [= <-]. exists m. split; [reflexivity|].
  unfold record_from. cbn.
  eapply (foldM_preserves field_step (locals_from _)) in E.
  - exact E.
  - intros kv s1 s2 Hin. now apply field_step_from.
  - apply empty_locals_from.
Qed.

(* ------------------------------------------------------------------------- *)
(** * Candidates and the results returned *)

Lemma run_results_apart (sentence : str) (rs : list TimeValue) :
  run sentence = Ok rs ->
  forall i j r1 r2,
    i <> j -> nth_error rs i = Some r1 -> nth_error rs j = Some r2 ->
    apart (start r1) (end_ r1) (start r2) (end_ r2).
Proof.
  intros H. apply pairwise_nth.
  - intros x y. apply apart_sym.
  - eapply run_pairwise_apart, H.
Qed.

Lemma kept_emitted (sentence : str) (rs : list TimeValue) (c : _Candidate) :
  run sentence = Ok rs ->
  In c (greedy (length (candidates_for (_clean_sentence sentence)))
               (candidates_for (_clean_sentence sentence))) ->
  emitted rs c.
Proof.
  intros H Hc. destruct (run_inv _ H) as (results & F & ->).
  destruct (Forall2_In_l c F Hc) as (r & Hr & Hn).
  exists r. split; [now apply sorted_In|now apply normalize_result_of].
Qed.

Lemma overlapb_true_not_apart (a b : _Candidate) :
  overlapb a b = true ->
  ~ apart (cand_start a) (cand_end a) (cand_start b) (cand_end b).
Proof.
  unfold overlapb, apart.
  destruct (Z.leb_spec (cand_end b) (cand_start a)),
    (Z.geb_spec (cand_start b) (cand_end a)); simpl; intros; try discriminate; lia.
Qed.

Lemma nth_error_skipn_cons {X} (s : list X) : forall i x,
  nth_error s i = Some x -> exists t, skipn i s = x :: t.
Proof.
  induction s as [|y s IH]; intros [|i] x H; simpl in *; try discriminate.
  - injection H as <-. eauto.
  - eauto.
Qed.

Lemma flat_map_nil {X Y} (f : X -> list Y) (l : list X) :
  (forall x, In x l -> f x = []) -> flat_map f l = [].
Proof.
  induction l as [|x t IH]; intros H; simpl; [reflexivity|].
  rewrite (H x (or_introl eq_refl)), IH; [reflexivity|].
  intros y Hy. apply H. now right.
Qed.

(* ------------------------------------------------------------------------- *)
(** * A sentence with a chain of overlaps: "12:104050 EST" *)

Lemma sample_run :
  run (py "12:104050 EST")
  = Ok [ mkTimeValue (py "12") 0 2 (Some 12%Z) None None None None None None
                     None None;
         mkTimeValue (py "104050 EST") 3 13 (Some 10%Z) (Some 40%Z) (Some 50%Z)
                     None None (Some (py "EST")) None None None ].
Proof. vm_compute. reflexivity. Qed.

(** The ISO time pattern finds "12:1040" at offset 0. *)
Lemma sample_scanned_long :
  scanned (_clean_sentence (py "12:104050 EST"))
          (mkCandidate 0 7 (py "12:1040") _regex_iso_time).
Proof.
  set (l := finditer _regex_iso_time (_clean_sentence (py "12:104050 EST"))).
  assert (Hl : exists g, In (0, (7, g)) l)
    by (vm_compute in l; subst l; eexists; left; reflexivity).
  destruct Hl as (g & Hl).
  exists _regex_iso_time, 0, 7, g. split; [simpl; auto|].
  split; [exact Hl|reflexivity].
Qed.

(** The ISO hour pattern finds "12" at offset 0. *)
Lemma sample_scanned_short :
  scanned (_clean_sentence (py "12:104050 EST"))
          (mkCandidate 0 2 (py "12") _regex_iso_hh).
Proof.
  set (l := finditer _regex_iso_hh (_clean_sentence (py "12:104050 EST"))).
  assert (Hl : exists g, In (0, (2, g)) l)
    by (vm_compute in l; subst l; eexists; left; reflexivity).
  destruct Hl as (g & Hl).
  exists _regex_iso_hh, 0, 2, g. split; [simpl; auto|].
  split; [exact Hl|reflexivity].
Qed.

(** The fields of every result of a run come from the match of its text
    against one of the patterns of the catalog. *)
Lemma run_result_from (sentence : str) (rs : list TimeValue) (r : TimeValue) :
  run sentence = Ok rs -> In r rs ->
  exists regex m,
    In regex _regexes /\ re_match regex (text r) = Some m /\
    record_from (groupdict regex (text r) m) r.
Proof.
  intros H Hin.
  destruct (run_result_origin _ _ H Hin) as (c & _ & Hs & Hn & (Ht & _) & _).
  destruct (normalize_from _ Hn) as (m & Hm & Hf).
  destruct Hs as (regex & st & en & g & Hr & _ & ->).
  cbn [cand_regex cand_match_text] in *. rewrite <- Ht in Hm, Hf.
  exists regex, m. auto.
Qed.

Lemma run_nothing_found (sentence : str) :
  (forall regex, In regex _regexes ->
                 finditer regex (_clean_sentence sentence) = []) ->
  run sentence = Ok [].
Proof.
  intros H. unfold run, candidates_for.
  rewrite flat_map_nil; [reflexivity|].
  intros regex Hr. unfold candidates_of. now rewrite (H regex Hr).
Qed.

(* ------------------------------------------------------------------------- *)
(** * Letter case *)

Lemma by_all_ascii (f : ascii -> bool) :
  forallb f all_ascii = true -> forall x, f x = true.
Proof.
  intros H x. rewrite forallb_forall in H. apply H, all_ascii_complete.
Qed.

Lemma zed_lower (x : ascii) : is_zed (to_lower x) = is_zed x.
Proof.
  assert (H : forallb (fun x => Bool.eqb (is_zed (to_lower x)) (is_zed x))
                      all_ascii = true) by (vm_compute; reflexivity).
  apply eqb_prop. exact (by_all_ascii _ H x).
Qed.

Lemma same_letter_zed (a b : ascii) :
  same_letter a b -> is_zed a = false -> is_zed b = false.
Proof.
  intros H Z. unfold same_letter in H.
  now rewrite <- zed_lower, <- H, zed_lower.
Qed.

Lemma case_blind_lower (p : ascii -> bool) (a : ascii) :
  case_blind p = true -> is_zed a = false -> p a = p (to_lower a).
Proof.
  intros H Z. unfold case_blind in H.
  pose proof (by_all_ascii _ H a) as Ha. cbv beta in Ha.
  rewrite Z in Ha. now apply eqb_prop.
Qed.

Lemma case_blind_twin (p : ascii -> bool) (a b : ascii) :
  case_blind p = true -> twin a b -> p a = p b.
Proof.
  intros H [S [Z | ->]]; [|reflexivity].
  rewrite (case_blind_lower p a H Z).
  rewrite (case_blind_lower p b H (same_letter_zed S Z)).
  f_equal. exact S.
Qed.

Lemma is_word_blind : case_blind is_word = true.
Proof. vm_compute. reflexivity. Qed.

Lemma is_digit_blind : case_blind is_digit = true.
Proof. vm_compute. reflexivity. Qed.

Lemma is_decimal_blind : case_blind is_decimal = true.
Proof. vm_compute. reflexivity. Qed.

Lemma brackets_blind : case_blind _str_brackets = true.
Proof. vm_compute. reflexivity. Qed.

Lemma twins_of_case_eq (s s' : str) :
  case_eq s s' -> zed_kept s s' -> Forall2 twin s s'.
Proof.
  induction 1 as [|a b s s' Hab _ IH]; intros Hz; [constructor|].
  inversion Hz as [|? ? ? ? Hk Hz']; subst. constructor; [|auto].
  split; [exact Hab|].
  destruct (is_zed a); [right; now apply Hk|now left].
Qed.

Lemma twins_case_eq (s s' : str) : Forall2 twin s s' -> case_eq s s'.
Proof.
  intros H. eapply Forall2_impl; [|exact H]. now intros a b [H' _].
Qed.

Lemma twins_firstn (n : nat) : forall s s',
  Forall2 twin s s' -> Forall2 twin (firstn n s) (firstn n s').
Proof.
  induction n as [|n IH]; intros s s' H; [constructor|].
  destruct H; simpl; constructor; auto.
Qed.

Lemma twins_skipn (n : nat) : forall s s',
  Forall2 twin s s' -> Forall2 twin (skipn n s) (skipn n s').
Proof.
  induction n as [|n IH]; intros s s' H; [exact H|].
  destruct H; simpl; [constructor|auto].
Qed.

Lemma twins_slice (s s' : str) (a b : nat) :
  Forall2 twin s s' -> Forall2 twin (slice s a b) (slice s' a b).
Proof.
  intros H. unfold slice. now apply twins_firstn, twins_skipn.
Qed.

Lemma twins_clean (s s' : str) :
  Forall2 twin s s' -> Forall2 twin (_clean_sentence s) (_clean_sentence s').
Proof.
  induction 1 as [|a b s s' Hab _ IH]; simpl; constructor; [|exact IH].
  rewrite <- (case_blind_twin _ brackets_blind Hab).
  destruct (_str_brackets a); [|exact Hab].
  split; [reflexivity|now left].
Qed.

(** ** The matcher does not see the case of a letter other than z *)

Lemma cursor_twin_start (s s' : str) :
  Forall2 twin s s' -> cursor_twin (start_of s) (start_of s').
Proof. intros H. repeat split. exact H. Qed.

Section MatcherTwin.
Variable A : Type.
Implicit Types k : cursor -> caps -> option A.

Lemma star_twin p : case_blind p = true ->
  forall rest rest', Forall2 twin rest rest' ->
  forall prev prev' pos g k k',
  cursor_twin (Cursor prev pos rest) (Cursor prev' pos rest') ->
  (forall c1 c1' g1, cursor_twin c1 c1' -> k c1 g1 = k' c1' g1) ->
  star p prev pos rest g k = star p prev' pos rest' g k'.
Proof.
  intros Hp. induction 1 as [|x x' t t' Hx Ht IH];
    intros prev prev' pos g k k' Hc Hk; simpl.
  - now apply Hk.
  - rewrite <- (case_blind_twin p Hp Hx).
    destruct (p x); [|now apply Hk].
    rewrite (IH (Some x) (Some x') (S pos) g k k').
    + destruct (star p (Some x') (S pos) t' g k'); [reflexivity|now apply Hk].
    + repeat split; simpl; auto; apply Hx.
    + exact Hk.
Qed.

Lemma rmatch_twin r : regex_case_blind r = true ->
  forall c c' g k k',
  cursor_twin c c' ->
  (forall c1 c1' g1, cursor_twin c1 c1' -> k c1 g1 = k' c1' g1) ->
  rmatch r c g k = rmatch r c' g k'.
Proof.
  induction r as [|p|r1 IH1 r2 IH2|r1 IH1 r2 IH2|r1 IH1|p|n r1 IH1| |];
    cbn [regex_case_blind]; intros Hb c c' g k k' Hc Hk; cbn [rmatch].
  - now apply Hk.
  - destruct Hc as (Hp & Hv & Hr).
    destruct Hr as [|x x' t t' Hx Ht]; [reflexivity|].
    rewrite <- (case_blind_twin p Hb Hx).
    destruct (p x); [|reflexivity].
    apply Hk. repeat split; simpl; auto; apply Hx.
  - apply andb_prop in Hb as [B1 B2].
    apply IH1; [exact B1|exact Hc|].
    intros c1 c1' g1 H1. apply IH2; auto.
  - apply andb_prop in Hb as [B1 B2].
    rewrite (IH1 B1 c c' g k k' Hc Hk).
    destruct (rmatch r1 c' g k'); [reflexivity|]. now apply IH2.
  - rewrite (IH1 Hb c c' g k k' Hc Hk).
    destruct (rmatch r1 c' g k'); [reflexivity|]. now apply Hk.
  - destruct c as [prev pos rest], c' as [prev' pos' rest'].
    pose proof Hc as (Hp & Hv & Hr). simpl in Hp. subst pos'. simpl.
    now apply star_twin.
  - apply IH1; [exact Hb|exact Hc|]. intros c1 c1' g1 H1.
    destruct Hc as (Hp & _), H1 as (Hp1 & ?). rewrite Hp, Hp1.
    apply Hk. repeat split; tauto.
  - destruct Hc as (Hp & Hv & Hr).
    assert (E1 : is_word_opt (c_prev c) = is_word_opt (c_prev c')).
    { destruct (c_prev c), (c_prev c'); try contradiction; [|reflexivity].
      simpl. apply (case_blind_twin _ is_word_blind Hv). }
    assert (E2 : is_word_opt (hd_error (c_rest c))
                 = is_word_opt (hd_error (c_rest c'))).
    { destruct Hr as [|x x' t t' Hx Ht]; [reflexivity|].
      simpl. apply (case_blind_twin _ is_word_blind Hx). }
    rewrite E1, E2. destruct (xorb _ _); [|reflexivity].
    apply Hk. repeat split; auto.
  - pose proof Hc as (Hp & Hv & Hr).
    destruct Hr as [|x x' t t' Hx Ht]; [now apply Hk|].
    rewrite <- (case_blind_twin _ is_decimal_blind Hx).
    destruct (is_decimal x); [reflexivity|now apply Hk].
Qed.

End MatcherTwin.

Lemma match_at_twin r c c' :
  regex_case_blind r = true -> cursor_twin c c' -> match_at r c = match_at r c'.
Proof.
  intros Hb Hc. unfold match_at. apply rmatch_twin; auto.
  intros c1 c1' g1 (Hp & _). unfold accept. now rewrite Hp.
Qed.

Lemma sweep_twin r : regex_case_blind r = true ->
  forall rest rest', Forall2 twin rest rest' ->
  forall prev prev' pos next,
  cursor_twin (Cursor prev pos rest) (Cursor prev' pos rest') ->
  sweep r prev pos rest next = sweep r prev' pos rest' next.
Proof.
  intros Hb. induction 1 as [|x x' t t' Hx Ht IH];
    intros prev prev' pos next Hc; cbn [sweep];
    rewrite (match_at_twin r Hb Hc).
  - reflexivity.
  - f_equal. apply IH. repeat split; simpl; auto; apply Hx.
Qed.

Lemma finditer_twin r (s s' : str) :
  regex_case_blind r = true -> Forall2 twin s s' ->
  finditer r s = finditer r s'.
Proof.
  intros Hb H. unfold finditer. apply sweep_twin; auto.
  repeat split. exact H.
Qed.

Lemma search_from_twin r : regex_case_blind r = true ->
  forall rest rest', Forall2 twin rest rest' ->
  forall prev prev' pos,
  cursor_twin (Cursor prev pos rest) (Cursor prev' pos rest') ->
  search_from r prev pos rest = search_from r prev' pos rest'.
Proof.
  intros Hb. induction 1 as [|x x' t t' Hx Ht IH];
    intros prev prev' pos Hc; cbn [search_from];
    rewrite (match_at_twin r Hb Hc).
  - reflexivity.
  - destruct (match_at r _); [reflexivity|].
    apply IH. repeat split; simpl; auto; apply Hx.
Qed.

Lemma catalog_case_blind : forallb regex_case_blind _regexes = true.
Proof. vm_compute. reflexivity. Qed.

Lemma gmt_core_case_blind : regex_case_blind _str_gmt_core = true.
Proof. vm_compute. reflexivity. Qed.

(** ** The offset-decomposition pattern and its optional prefix *)

(** What is left of the pattern after the prefix. *)
Lemma gmt_unfold (c : cursor) :
  match_at _regex_gmt c
  = match rmatch (words "GMT|UTC") c []
                 (fun c1 g1 => rmatch _str_gmt_core c1 g1 accept) with
    | Some m => Some m
    | None => match_at _str_gmt_core c
    end.
Proof. reflexivity. Qed.

Lemma word3 {A} (a b d : ascii) (c : cursor) (g : caps)
      (k : cursor -> caps -> option A) :
  rmatch (word [a; b; d]) c g k
  = match c_rest c with
    | x :: y :: z :: t =>
        if Ascii.eqb a x && Ascii.eqb b y && Ascii.eqb d z
        then k (Cursor (Some z) (S (S (S (c_pos c)))) t) g
        else None
    | _ => None
    end.
Proof.
  cbn [word rmatch lit advance c_rest c_pos].
  destruct (c_rest c) as [|x [|y [|z t]]]; try reflexivity.
  - now destruct (Ascii.eqb a x).
  - destruct (Ascii.eqb a x); [|reflexivity]. simpl.
    now destruct (Ascii.eqb b y).
  - destruct (Ascii.eqb a x); [|reflexivity]. simpl.
    destruct (Ascii.eqb b y); [|reflexivity]. simpl.
    now destruct (Ascii.eqb d z).
Qed.

(** The prefix either is not there, or is one of two words of three
    letters, none of which is a sign. *)
Lemma gmt_prefix {A} (c : cursor) (g : caps) (k : cursor -> caps -> option A) :
  rmatch (words "GMT|UTC") c g k = None
  \/ exists x y z t,
       c_rest c = x :: y :: z :: t
       /\ one_of "-+" x = false /\ one_of "-+" y = false
       /\ one_of "-+" z = false
       /\ rmatch (words "GMT|UTC") c g k
          = k (Cursor (Some z) (S (S (S (c_pos c)))) t) g.
Proof.
  change (words "GMT|UTC")
    with (Alt (word ["G"; "M"; "T"]) (word ["U"; "T"; "C"]))%char.
  cbn [rmatch]. rewrite !word3.
  destruct (c_rest c) as [|x [|y [|z t]]]; auto.
  destruct (Ascii.eqb "G" x && Ascii.eqb "M" y && Ascii.eqb "T" z) eqn:E1.
  - apply andb_prop in E1 as [E1 Ez]. apply andb_prop in E1 as [Ex Ey].
    apply Ascii.eqb_eq in Ex, Ey, Ez. subst.
    destruct (k _ g) eqn:K.
    + right. exists "G"%char, "M"%char, "T"%char, t. rewrite K. auto.
    + destruct (Ascii.eqb "U" "G" && Ascii.eqb "T" "M" && Ascii.eqb "C" "T") eqn:E2;
        [discriminate|auto].
  - destruct (Ascii.eqb "U" x && Ascii.eqb "T" y && Ascii.eqb "C" z) eqn:E2; auto.
    apply andb_prop in E2 as [E2 Ez]. apply andb_prop in E2 as [Ex Ey].
    apply Ascii.eqb_eq in Ex, Ey, Ez. subst.
    right. exists "U"%char, "T"%char, "C"%char, t. auto.
Qed.

(** The rest of the pattern starts with a sign. *)
Lemma gmt_core_first (prev : option ascii) (pos : nat) (x : ascii) (t : str) :
  one_of "-+" x = false ->
  match_at _str_gmt_core (Cursor prev pos (x :: t)) = None.
Proof.
  intros H. unfold match_at, _str_gmt_core, set.
  cbn [rmatch c_rest]. now rewrite H.
Qed.

(** Searching with the whole pattern finds the groups that searching with
    the rest of it finds. *)
Lemma search_gmt_core (rest : str) : forall prev pos,
  option_map snd (search_from _regex_gmt prev pos rest)
  = option_map snd (search_from _str_gmt_core prev pos rest).
Proof.
  induction rest as [|x0 t0 IH]; intros prev pos.
  - cbn [search_from]. rewrite gmt_unfold.
    destruct (gmt_prefix (Cursor prev pos []) []
                (fun c1 g1 => rmatch _str_gmt_core c1 g1 accept))
      as [->|(x & y & z & t & E & _)]; [|discriminate].
    now destruct (match_at _str_gmt_core _).
  - cbn [search_from]. rewrite gmt_unfold.
    destruct (gmt_prefix (Cursor prev pos (x0 :: t0)) []
                (fun c1 g1 => rmatch _str_gmt_core c1 g1 accept))
      as [->|(x & y & z & t & E & Sx & Sy & Sz & ->)].
    + destruct (match_at _str_gmt_core _); [reflexivity|apply IH].
    + cbn [c_rest c_pos] in *. injection E as -> ->.
      rewrite (@gmt_core_first prev pos x (y :: z :: t) Sx).
      change (rmatch _str_gmt_core (Cursor (Some z) (S (S (S pos))) t) [] accept)
        with (match_at _str_gmt_core (Cursor (Some z) (S (S (S pos))) t)).
      destruct (match_at _str_gmt_core (Cursor (Some z) (S (S (S pos))) t))
        as [m|] eqn:M.
      * cbn [search_from].
        rewrite (@gmt_core_first (Some x) (S pos) y (z :: t) Sy).
        rewrite (@gmt_core_first (Some y) (S (S pos)) z t Sz).
        destruct t; cbn [search_from]; now rewrite M.
      * apply IH.
Qed.

Lemma re_search_gmt_twin (v v' : str) :
  Forall2 twin v v' ->
  option_map snd (re_search _regex_gmt v)
  = option_map snd (re_search _regex_gmt v').
Proof.
  intros H. unfold re_search. rewrite !search_gmt_core. f_equal.
  apply search_from_twin; [apply gmt_core_case_blind|exact H|].
  repeat split. exact H.
Qed.

(* ------------------------------------------------------------------------- *)
(** * A sentence and its twin through the stages of [run] *)

Lemma Forall2_map_same {X Y} (R : Y -> Y -> Prop) (f f' : X -> Y) (l : list X) :
  (forall x, In x l -> R (f x) (f' x)) -> Forall2 R (map f l) (map f' l).
Proof.
  induction l as [|x t IH]; intros H; simpl; constructor.
  - apply H. now left.
  - apply IH. intros y Hy. apply H. now right.
Qed.

Lemma candidates_of_twin (s s' : str) r :
  regex_case_blind r = true -> Forall2 twin s s' ->
  Forall2 cand_twin (candidates_of s r) (candidates_of s' r).
Proof.
  intros Hb H. unfold candidates_of.
  rewrite <- (finditer_twin r Hb H).
  apply Forall2_map_same. intros [st [en g]] _. cbn.
  repeat split. now apply twins_slice.
Qed.

Lemma flat_map_twin (s s' : str) (l : list regex) :
  forallb regex_case_blind l = true -> Forall2 twin s s' ->
  Forall2 cand_twin (flat_map (candidates_of s) l) (flat_map (candidates_of s') l).
Proof.
  intros Hb H. induction l as [|r t IH]; simpl; [constructor|].
  simpl in Hb. apply andb_prop in Hb as [B1 B2].
  apply Forall2_app; [now apply candidates_of_twin|auto].
Qed.

Section SortedTwin.
Variables X : Type.
Variable R : X -> X -> Prop.
Variable key : X -> Z.
Variable reverse : bool.
Hypothesis key_R : forall x x', R x x' -> key x = key x'.

Lemma insert_Forall2 (x x' : X) (l l' : list X) :
  R x x' -> Forall2 R l l' ->
  Forall2 R (insert key reverse x l) (insert key reverse x' l').
Proof.
  intros Hx. induction 1 as [|y y' l l' Hy Hl IH]; simpl.
  - repeat constructor. exact Hx.
  - unfold precedes. rewrite <- (key_R Hx), <- (key_R Hy).
    destruct (if reverse then _ else _); repeat constructor; auto.
Qed.

Lemma sorted_Forall2 (l l' : list X) :
  Forall2 R l l' -> Forall2 R (sorted key reverse l) (sorted key reverse l').
Proof.
  induction 1; simpl; [constructor|]. now apply insert_Forall2.
Qed.

End SortedTwin.

Lemma filter_Forall2 {X} (R : X -> X -> Prop) (f f' : X -> bool) (l l' : list X) :
  (forall x x', R x x' -> f x = f' x') ->
  Forall2 R l l' -> Forall2 R (filter f l) (filter f' l').
Proof.
  intros Hf. induction 1 as [|x x' l l' Hx Hl IH]; simpl; [constructor|].
  rewrite <- (Hf _ _ Hx). destruct (f x); [constructor|]; auto.
Qed.

Lemma greedy_twin (n : nat) : forall l l',
  Forall2 cand_twin l l' -> Forall2 cand_twin (greedy n l) (greedy n l').
Proof.
  induction n as [|n IH]; intros l l' H; [constructor|].
  destruct H as [|w w' l l' Hw Hl]; simpl; [constructor|].
  constructor; [exact Hw|]. apply IH.
  apply filter_Forall2; [|exact Hl].
  intros c c' (S1 & E1 & _). destruct Hw as (S2 & E2 & _).
  unfold overlapb. now rewrite S1, E1, S2, E2.
Qed.

(** ** The fields *)

Lemma rigid_eq (a b : ascii) : rigid a = true -> same_letter a b -> a = b.
Proof.
  intros H S. unfold rigid in H.
  pose proof (by_all_ascii _ H b) as Hb. cbv beta in Hb.
  unfold same_letter in S. rewrite S, Ascii.eqb_refl in Hb.
  now apply Ascii.eqb_eq.
Qed.

Lemma digit_rigid (a : ascii) : is_digit a = true -> rigid a = true.
Proof.
  assert (H : forallb (fun a => implb (is_digit a) (rigid a)) all_ascii = true)
    by (vm_compute; reflexivity).
  pose proof (by_all_ascii _ H a) as Ha. cbv beta in Ha.
  intros D. now rewrite D in Ha.
Qed.

Lemma int_digits_twin (v v' : str) :
  Forall2 twin v v' -> forall acc, int_digits acc v = int_digits acc v'.
Proof.
  induction 1 as [|a b v v' Hab _ IH]; intros acc; simpl; [reflexivity|].
  rewrite <- (case_blind_twin _ is_digit_blind Hab).
  destruct (is_digit a) eqn:D; [|reflexivity].
  rewrite <- (rigid_eq (digit_rigid a D) (proj1 Hab)). apply IH.
Qed.

Lemma py_int_twin (v v' : str) : Forall2 twin v v' -> py_int v = py_int v'.
Proof.
  intros H. unfold py_int.
  destruct H as [|a b v v' Hab H]; [reflexivity|].
  apply int_digits_twin. now constructor.
Qed.

Lemma found_is_a (v : str) : found "a" v || found "A" v = existsb is_a v.
Proof.
  unfold found. induction v as [|x t IH]; cbn [existsb]; [reflexivity|].
  rewrite <- IH. unfold is_a.
  destruct (Ascii.eqb "a" x), (Ascii.eqb "A" x),
    (existsb (Ascii.eqb "a") t), (existsb (Ascii.eqb "A") t); reflexivity.
Qed.

Lemma is_a_blind : case_blind is_a = true.
Proof. vm_compute. reflexivity. Qed.

Lemma found_twin (v v' : str) :
  Forall2 twin v v' ->
  found "a" v || found "A" v = found "a" v' || found "A" v'.
Proof.
  intros H. rewrite !found_is_a.
  induction H as [|a b v v' Hab _ IH]; simpl; [reflexivity|].
  now rewrite IH, (case_blind_twin _ is_a_blind Hab).
Qed.

(** The test ['Z' == timezone] gives the same on twins: a capital Z has
    only itself as a twin. *)
Lemma zed_marker_twin (v v' : str) :
  Forall2 twin v v' -> str_eqb (py "Z") v = str_eqb (py "Z") v'.
Proof.
  assert (K : forall a b, twin a b -> (a = "Z"%char <-> b = "Z"%char)).
  { intros a b [S [Z | ->]]; [|tauto].
    pose proof (same_letter_zed S Z) as Z'.
    split; intros ->; discriminate. }
  intros H. unfold str_eqb.
  destruct (list_eq_dec ascii_dec (py "Z") v) as [E|E],
    (list_eq_dec ascii_dec (py "Z") v') as [E'|E']; try reflexivity; exfalso.
  - subst v. inversion H as [|? b ? t Hab Ht]; subst. inversion Ht; subst.
    apply E'. change (py "Z") with ["Z"%char]. f_equal. symmetry.
    exact (proj1 (K _ _ Hab) eq_refl).
  - subst v'. inversion H as [|a ? t ? Hab Ht]; subst. inversion Ht; subst.
    apply E. change (py "Z") with ["Z"%char]. f_equal. symmetry.
    exact (proj2 (K _ _ Hab) eq_refl).
Qed.

Lemma case_eq_refl (v : str) : case_eq v v.
Proof. induction v; constructor; [reflexivity|assumption]. Qed.

Lemma case_eq_tl (v v' : str) : case_eq v v' -> case_eq (tl v) (tl v').
Proof. intros [|a b l l' _ H]; [constructor|exact H]. Qed.

Ltac alike_split :=
  match goal with
  | H : locals_alike _ _ |- _ =>
      unfold locals_alike in H; cbn in H;
      destruct H as (? & ? & ? & ? & ? & ? & ? & ? & ?)
  end;
  unfold locals_alike; cbn;
  conj_each ltac:(try assumption; try reflexivity).

Lemma groupdict_twin r (s s' : str) (m : mobj) :
  Forall2 twin s s' ->
  Forall2 item_twin (groupdict r s m) (groupdict r s' m).
Proof.
  intros H. unfold groupdict. apply Forall2_map_same. intros n _.
  split; [reflexivity|]. cbn.
  destruct (lookup n (snd m)) as [[a b]|]; [|exact I].
  now apply twins_slice.
Qed.

Lemma foldM_alike (f : locals -> gname * option str -> result locals) :
  (forall kv kv' st st' a a',
      item_twin kv kv' -> locals_alike st st' ->
      f st kv = Ok a -> f st' kv' = Ok a' -> locals_alike a a') ->
  forall d d', Forall2 item_twin d d' ->
  forall st st' a a',
    locals_alike st st' ->
    foldM f d st = Ok a -> foldM f d' st' = Ok a' -> locals_alike a a'.
Proof.
  intros Hf. induction 1 as [|kv kv' d d' Hkv _ IH];
    intros st st' a a' Hst E E'; simpl in E, E'.
  - injection E as <-. injection E' as <-. exact Hst.
  - destruct (f st kv) as [s1|] eqn:F; [|discriminate].
    destruct (f st' kv') as [s1'|] eqn:F'; [|discriminate].
    simpl in E, E'. eapply IH; [|exact E|exact E'].
    eapply Hf; eassumption.
Qed.

Lemma gmt_step_alike kv kv' st st' a a' :
  item_twin kv kv' -> locals_alike st st' ->
  gmt_step st kv = Ok a -> gmt_step st' kv' = Ok a' -> locals_alike a a'.
Proof.
  destruct kv as [n [v|]], kv' as [n' [v'|]]; intros [Hn Hv] Hst;
    cbn in Hn, Hv; subst n'; try contradiction;
    unfold gmt_step; cbn [fst snd];
    [|intros [= <-] [= <-]; exact Hst].
  destruct n; try (intros [= <-] [= <-]; exact Hst).
  - intros [= <-] [= <-]. alike_split. now apply twins_case_eq.
  - rewrite <- (py_int_twin Hv). destruct (py_int v); [|discriminate].
    intros [= <-] [= <-]. alike_split.
  - rewrite <- (py_int_twin Hv). destruct (py_int v); [|discriminate].
    intros [= <-] [= <-]. alike_split.
Qed.

Lemma field_step_alike kv kv' st st' a a' :
  item_twin kv kv' -> locals_alike st st' ->
  field_step st kv = Ok a -> field_step st' kv' = Ok a' -> locals_alike a a'.
Proof.
  destruct kv as [n [v|]], kv' as [n' [v'|]]; intros [Hn Hv] Hst;
    cbn in Hn, Hv; subst n'; try contradiction;
    unfold field_step; cbn [fst snd];
    [|intros [= <-] [= <-]; exact Hst].
  destruct n; try (intros [= <-] [= <-]; exact Hst).
  - rewrite <- (py_int_twin Hv). destruct (py_int v); [|discriminate].
    intros [= <-] [= <-]. alike_split.
  - rewrite <- (py_int_twin Hv). destruct (py_int v); [|discriminate].
    intros [= <-] [= <-]. alike_split.
  - rewrite <- (py_int_twin Hv). destruct (py_int v); [|discriminate].
    intros [= <-] [= <-]. alike_split.
  - intros [= <-] [= <-]. alike_split. now apply case_eq_tl, twins_case_eq.
  - rewrite <- (found_twin Hv).
    intros [= <-] [= <-]. alike_split. apply case_eq_refl.
  - rewrite <- (zed_marker_twin Hv).
    destruct (str_eqb (py "Z") v);
      intros [= <-] [= <-]; alike_split;
      [apply case_eq_refl|now apply twins_case_eq].
  - pose proof (re_search_gmt_twin Hv) as S.
    destruct (re_search _regex_gmt v) as [[p mg]|],
      (re_search _regex_gmt v') as [[p' mg']|]; try discriminate.
    + injection S as <-.
      apply (foldM_alike gmt_step gmt_step_alike).
      * now apply groupdict_twin.
      * alike_split.
    + intros [= <-] [= <-]. alike_split.
Qed.

Lemma normalize_twin (c c' : _Candidate) (r r' : TimeValue) :
  cand_twin c c' -> regex_case_blind (cand_regex c) = true ->
  normalize c = Ok r -> normalize c' = Ok r' -> record_alike r r'.
Proof.
  intros (Hs & He & Hr & Ht) Hb. unfold normalize. rewrite <- Hr.
  unfold re_match.
  rewrite <- (match_at_twin (cand_regex c) Hb (cursor_twin_start Ht)).
  destruct (match_at (cand_regex c) (start_of (cand_match_text c))) as [m|];
    [|discriminate].
  destruct (foldM field_step (groupdict _ (cand_match_text c) m) empty_locals)
    as [l|] eqn:E; [|discriminate].
  destruct (foldM field_step (groupdict _ (cand_match_text c') m) empty_locals)
    as [l'|] eqn:E'; [|discriminate].
  cbn [bind]. intros [= <-] [= <-].
  assert (A : locals_alike l l').
  { eapply (foldM_alike field_step field_step_alike); [|..|exact E|exact E'].
    - now apply groupdict_twin.
    - unfold locals_alike. cbn. tauto. }
  unfold locals_alike in A. unfold record_alike. cbn.
  pose proof (twins_case_eq Ht). tauto.
Qed.

(** ** The whole run *)

Lemma Forall2_square {X Y} (T : X -> X -> Prop) (N : X -> Y -> Prop)
      (Q : Y -> Y -> Prop) (l l' : list X) (m m' : list Y) :
  (forall x x' y y', In x l -> T x x' -> N x y -> N x' y' -> Q y y') ->
  Forall2 T l l' -> Forall2 N l m -> Forall2 N l' m' -> Forall2 Q m m'.
Proof.
  intros H HT. revert m m'.
  induction HT as [|x x' l l' Hx _ IH]; intros m m' Hm Hm'.
  - inversion Hm; inversion Hm'; constructor.
  - inversion Hm; inversion Hm'; subst. constructor.
    + eapply H; eauto. now left.
    + apply IH; auto. intros. eapply H; eauto. now right.
Qed.

Lemma candidates_for_twin (s s' : str) :
  Forall2 twin s s' ->
  Forall2 cand_twin (candidates_for s) (candidates_for s').
Proof.
  intros H. unfold candidates_for.
  apply sorted_Forall2.
  - intros c c' (-> & -> & _). reflexivity.
  - apply flat_map_twin; [apply catalog_case_blind|exact H].
Qed.

(** Two sentences that differ in the case of letters other than z give
    results that are alike. *)
Lemma run_twin (s s' : str) (rs rs' : list TimeValue) :
  Forall2 twin s s' -> run s = Ok rs -> run s' = Ok rs' ->
  Forall2 record_alike rs rs'.
Proof.
  intros H E E'.
  destruct (run_inv _ E) as (m & F & ->).
  destruct (run_inv _ E') as (m' & F' & ->).
  pose proof (candidates_for_twin (twins_clean H)) as C.
  rewrite <- (Forall2_length C) in F'.
  apply sorted_Forall2; [now intros r r' (-> & _)|].
  eapply Forall2_square; [|apply greedy_twin, C|exact F|exact F'].
  intros c c' r r' Hc T N N'. cbv beta in *.
  eapply normalize_twin; eauto.
  apply greedy_incl, candidates_for_scanned in Hc.
  destruct Hc as (regex & st & en & g & Hr & _ & ->). simpl.
  pose proof catalog_case_blind as B. rewrite forallb_forall in B. auto.
Qed.

Lemma case_eq_digits (w w' : str) :
  case_eq w w' -> forallb is_digit w = true -> w = w'.
Proof.
  induction 1 as [|a b w w' Hab _ IH]; simpl; intros D; [reflexivity|].
  apply andb_prop in D as [Da Dw].
  rewrite (rigid_eq (digit_rigid a Da) Hab), IH; auto.
Qed.

Lemma case_eq_one_of_two (u v w w' : str) :
  ~ case_eq u v -> ~ case_eq v u ->
  (w = u \/ w = v) -> (w' = u \/ w' = v) -> case_eq w w' -> w = w'.
Proof.
  intros N1 N2 [-> | ->] [-> | ->] H; try reflexivity; contradiction.
Qed.

Lemma am_not_pm : ~ case_eq (py "am") (py "pm") /\ ~ case_eq (py "pm") (py "am").
Proof.
  split; intros H; inversion H as [|? ? ? ? S _]; subst;
    vm_compute in S; discriminate S.
Qed.

Lemma plus_not_minus : ~ case_eq (py "+") (py "-") /\ ~ case_eq (py "-") (py "+").
Proof.
  split; intros H; inversion H as [|? ? ? ? S _]; subst;
    vm_compute in S; discriminate S.
Qed.

(** Records that are alike and in range read the same time. *)
Lemma alike_same_reading (r r' : TimeValue) :
  record_alike r r' -> record_ok r -> record_ok r' -> same_reading r r'.
Proof.
  intros (Hs & He & Ht & Hh & Hm & Hse & Hf & Ha & Hz & Hg & Hgh & Hgm)
         (_ & _ & _ & Kf & Ka & Kg & _) (_ & _ & _ & Kf' & Ka' & Kg' & _).
  unfold same_reading. repeat apply conj; auto.
  - destruct (fractional_seconds r) as [f|], (fractional_seconds r') as [f'|];
      try contradiction; [|reflexivity].
    f_equal. apply case_eq_digits; [exact Hf|]. now apply Kf.
  - destruct (am_pm r) as [a|], (am_pm r') as [a'|];
      try contradiction; [|reflexivity].
    f_equal. destruct am_not_pm.
    apply (@case_eq_one_of_two (py "am") (py "pm")); auto.
  - destruct (gmt_delta_sign r) as [a|], (gmt_delta_sign r') as [a'|];
      try contradiction; [|reflexivity].
    f_equal. destruct plus_not_minus.
    apply (@case_eq_one_of_two (py "+") (py "-")); auto.
Qed.

Lemma run_same_reading (s s' : str) (rs rs' : list TimeValue) :
  case_eq s s' -> zed_kept s s' -> run s = Ok rs -> run s' = Ok rs' ->
  Forall2 same_reading rs rs'.
Proof.
  intros H Z E E'.
  pose proof (run_twin (twins_of_case_eq H Z) E E') as A.
  assert (K : forall r, In r rs -> record_ok r).
  { intros r Hr. now destruct (run_result_origin _ _ E Hr) as (? & _ & _ & _ & _ & ?). }
  assert (K' : forall r, In r rs' -> record_ok r).
  { intros r Hr. now destruct (run_result_origin _ _ E' Hr) as (? & _ & _ & _ & _ & ?). }
  clear E E'. induction A as [|r r' rs rs' Hr _ IH]; constructor.
  - apply alike_same_reading; auto; [apply K|apply K']; now left.
  - apply IH; intros; [apply K|apply K']; now right.
Qed.

(* ------------------------------------------------------------------------- *)
(** * The properties of the engine *)

(** C1 (non-overlap).  For every input string, the spans [start, end) of any
    two distinct records returned by [run] do not overlap: one ends no later
    than the other starts (touching spans are allowed). *)
Theorem C1_results_do_not_overlap (sentence : str) (rs : list TimeValue) :
  run sentence = Ok rs ->
  forall i j r1 r2,
    i <> j -> nth_error rs i = Some r1 -> nth_error rs j = Some r2 ->
    apart (start r1) (end_ r1) (start r2) (end_ r2).
Proof.
  apply run_results_apart.
Qed.

Lemma C1_witness :
  run (py "12:104050 EST")
  = Ok [ mkTimeValue (py "12") 0 2 (Some 12%Z) None None None None None
                     None None None;
         mkTimeValue (py "104050 EST") 3 13 (Some 10%Z) (Some 40%Z) (Some 50%Z)
                     None None (Some (py "EST")) None None None ]
  /\ apart 0 2 3 13.
Proof.
  assert (E : run (py "12:104050 EST")
              = Ok [ mkTimeValue (py "12") 0 2 (Some 12%Z) None None None None
                                 None None None None;
                     mkTimeValue (py "104050 EST") 3 13 (Some 10%Z) (Some 40%Z)
                                 (Some 50%Z) None None (Some (py "EST")) None
                                 None None ])
    by (vm_compute; reflexivity).
  split; [exact E|].
  exact (C1_results_do_not_overlap _ E (i:=0) (j:=1) (Nat.neq_0_succ 0)
           eq_refl eq_refl).
Defined.

(** C7 (offset preservation).  The bracket characters are the six
    characters ( ) { } [ ] and no other, and preprocessing replaces each of
    them by exactly one space and keeps every other character: the
    preprocessed string has the length of the input and every character that
    is not a bracket keeps its offset.  For every input and every returned
    record, [text] is the substring [start, end) of the preprocessed
    input. *)
Theorem C7_text_is_the_span_of_the_cleaned_input (sentence : str) :
  (forall c, _str_brackets c = true
             <-> c = "("%char \/ c = ")"%char \/ c = "{"%char
                 \/ c = "}"%char \/ c = "["%char \/ c = "]"%char)
  /\ length (_clean_sentence sentence) = length sentence
  /\ (forall i c, nth_error sentence i = Some c ->
        nth_error (_clean_sentence sentence) i
        = Some (if _str_brackets c then " "%char else c))
  /\ (forall i c, nth_error sentence i = Some c ->
        (c = "("%char \/ c = ")"%char \/ c = "{"%char
         \/ c = "}"%char \/ c = "["%char \/ c = "]"%char) ->
        nth_error (_clean_sentence sentence) i = Some " "%char)
  /\ (forall i c, nth_error sentence i = Some c ->
        c <> "("%char -> c <> ")"%char -> c <> "{"%char ->
        c <> "}"%char -> c <> "["%char -> c <> "]"%char ->
        nth_error (_clean_sentence sentence) i = Some c)
  /\ (forall rs r, run sentence = Ok rs -> In r rs ->
        (0 <= start r <= end_ r)%Z
        /\ (end_ r <= Z.of_nat (length sentence))%Z
        /\ text r = slice (_clean_sentence sentence)
                          (Z.to_nat (start r)) (Z.to_nat (end_ r))).
Proof.
  assert (B : forall c, _str_brackets c = true
                        <-> c = "("%char \/ c = ")"%char \/ c = "{"%char
                            \/ c = "}"%char \/ c = "["%char \/ c = "]"%char).
  { intros c. unfold _str_brackets, one_of. cbn [list_ascii_of_string existsb].
    rewrite !orb_true_iff, !Ascii.eqb_eq. intuition congruence. }
  assert (L : length (_clean_sentence sentence) = length sentence)
    by apply length_map.
  assert (N : forall i c, nth_error sentence i = Some c ->
                nth_error (_clean_sentence sentence) i
                = Some (if _str_brackets c then " "%char else c)).
  { intros i c H. unfold _clean_sentence. rewrite nth_error_map, H. reflexivity. }
  split; [exact B|]. split; [exact L|]. split; [exact N|].
  split; [|split].
  - intros i c H Hc. rewrite (N i c H). apply B in Hc. now rewrite Hc.
  - intros i c H H1 H2 H3 H4 H5 H6. rewrite (N i c H).
    destruct (_str_brackets c) eqn:E; [|reflexivity].
    apply B in E. intuition congruence.
  - intros rs r H Hin.
    destruct (run_result_origin _ _ H Hin) as (c & _ & Hs & _ & (Ht & Hb & He) & _).
    destruct Hs as (regex & st & en & g & _ & Hf & ->).
    apply finditer_span in Hf as [Hse Hel].
    simpl in *. rewrite Hb, He, Ht, !Nat2Z.id. repeat split; lia.
Qed.

Lemma C7_witness :
  run (py "(at [08:11])")
  = Ok [ mkTimeValue (py "08:11") 5 10 (Some 8%Z) (Some 11%Z) None None None
                     None None None None ]
  /\ nth_error (_clean_sentence (py "(at [08:11])")) 4 = Some " "%char
  /\ nth_error (_clean_sentence (py "(at [08:11])")) 5 = Some "0"%char
  /\ py "08:11" = slice (_clean_sentence (py "(at [08:11])")) 5 10.
Proof.
  assert (E : run (py "(at [08:11])")
              = Ok [ mkTimeValue (py "08:11") 5 10 (Some 8%Z) (Some 11%Z) None
                                 None None None None None None ])
    by (vm_compute; reflexivity).
  destruct (C7_text_is_the_span_of_the_cleaned_input (py "(at [08:11])"))
    as (_ & _ & _ & Hb & Hk & Hr).
  split; [exact E|]. split; [|split].
  - apply (Hb 4 "["%char eq_refl). tauto.
  - apply (Hk 5 "0"%char eq_refl); discriminate.
  - exact (proj2 (proj2 (Hr _ _ E (or_introl eq_refl)))).
Defined.

(** C8 (the assertion never fires).  For every input string, matching the
    saved text of each resolved candidate against its own saved pattern
    succeeds, so [assert match] never fails, and [run] completes normally:
    no exception, of any kind, on any input. *)
Theorem C8_run_completes_on_every_input (sentence : str) :
  exists pruned_candidates rs,
    _remove_overlap (candidates_for (_clean_sentence sentence))
    = Ok pruned_candidates
    /\ (forall pc, In pc pruned_candidates ->
          exists m, re_match (cand_regex pc) (cand_match_text pc) = Some m)
    /\ run sentence = Ok rs.
Proof.
  destruct (run_total sentence) as (rs & H).
  eexists _, rs. split; [apply run_pruned|]. split; [|exact H].
  intros pc Hpc.
  apply greedy_incl, candidates_for_scanned in Hpc.
  destruct Hpc as (regex & st & en & g & Hr & Hin & ->). simpl.
  eapply rematch_succeeds; [|exact Hin].
  pose proof catalog_rematchable as C. rewrite forallb_forall in C. auto.
Qed.



(** C2, as worded, fails: on "12:104050 EST" the patterns find "12:1040"
    (the ISO time, 7 characters) and "12" (the ISO hour, 2 characters), both
    at offset 0 and overlapping; the longer one is dropped, because it
    overlaps the still longer "104050 EST", and the shorter one is emitted. *)
Lemma C2_counterexample : ~ longer_one_is_emitted (py "12:104050 EST").
Proof.
  intros H.
  destruct (H _ _ _ sample_run sample_scanned_long sample_scanned_short
              eq_refl eq_refl eq_refl) as [_ Hb].
  apply Hb. eexists. split; [left; reflexivity|]. repeat split.
Qed.

(** C2 (longest-match precedence), amended.  Of two overlapping candidates
    of different lengths, the shorter is never emitted together with the
    longer; and every candidate is emitted unless it overlaps an emitted
    candidate that is at least as long.  In particular [run] on
    "08:11:40.123456" returns one record, for the full 15-character match,
    with hours=8, minutes=11, seconds=40, fractional_seconds="123456", and no
    record for the 8-character hour:minute:second match at the same offset. *)
Theorem C2_longest_match_precedence :
  (forall sentence rs a,
      run sentence = Ok rs -> scanned (_clean_sentence sentence) a ->
      emitted rs a
      \/ exists w, scanned (_clean_sentence sentence) w /\ emitted rs w /\
                   overlapb w a = true /\ (clen a <= clen w)%Z)
  /\ (forall sentence rs a b,
      run sentence = Ok rs ->
      overlapb a b = true -> (clen b < clen a)%Z ->
      emitted rs a -> ~ emitted rs b)
  /\ run (py "08:11:40.123456")
     = Ok [ mkTimeValue (py "08:11:40.123456") 0 15 (Some 8%Z) (Some 11%Z)
                        (Some 40%Z) (Some (py "123456")) None None None None
                        None ].
Proof.
  split; [|split].
  - intros sentence rs a H Sa.
    apply candidates_for_scanned in Sa.
    destruct (@greedy_covers (length (candidates_for (_clean_sentence sentence)))
                _ a (le_n _) (candidates_for_longest_first _) Sa)
      as [Hk|(w & Hk & O & L)].
    + left. eapply kept_emitted; eassumption.
    + right. exists w. split; [|split; [eapply kept_emitted; eassumption|auto]].
      eapply candidates_for_scanned, greedy_incl, Hk.
  - intros sentence rs a b H O L (ra & Ha & (_ & Sa & Ea)) (rb & Hb & (_ & Sb & Eb)).
    apply In_nth_error in Ha as (i & Hi). apply In_nth_error in Hb as (j & Hj).
    destruct (Nat.eq_dec i j) as [<-|Hij].
    + rewrite Hi in Hj. injection Hj as <-. unfold clen in L. lia.
    + pose proof (run_results_apart _ H Hij Hi Hj) as A.
      rewrite Sa, Ea, Sb, Eb in A.
      exact (overlapb_true_not_apart _ _ O A).
  - vm_compute. reflexivity.
Qed.

Lemma C2_witness :
  let rs := [ mkTimeValue (py "12") 0 2 (Some 12%Z) None None None None None
                          None None None;
              mkTimeValue (py "104050 EST") 3 13 (Some 10%Z) (Some 40%Z)
                          (Some 50%Z) None None (Some (py "EST")) None None
                          None ] in
  let a := mkCandidate 0 7 (py "12:1040") _regex_iso_time in
  emitted rs a
  \/ exists w, scanned (_clean_sentence (py "12:104050 EST")) w /\
               emitted rs w /\ overlapb w a = true /\ (clen a <= clen w)%Z.
Proof.
  exact (proj1 C2_longest_match_precedence _ _ _ sample_run sample_scanned_long).
Defined.

(** C3, as worded, fails: on the sorted candidates of "12:104050 EST" the
    first pass emits "104050 EST" and removes "12:1040" and "104050", which
    overlap it; "12" is linked to the winner through "12:1040" but does not
    overlap it, stays in the working list, and is emitted by the second
    pass.  Two matches are emitted from one transitive overlap chain. *)
Lemma C3_counterexample :
  let l := candidates_for (_clean_sentence (py "12:104050 EST")) in
  longest_first l /\ Forall well_formed l /\ ~ one_per_chain l.
Proof.
  intros l. split; [apply candidates_for_longest_first|].
  split; [apply candidates_for_well_formed|].
  intros H.
  set (res := greedy (length l) l).
  assert (Hres : _remove_overlap l = Ok res) by apply run_pruned.
  assert (L2 : 1 < length res) by (vm_compute; lia).
  assert (L4 : 1 < length l) by (vm_compute; lia).
  apply (H res Hres 0 1 (nth 0 res no_candidate) (nth 1 res no_candidate)).
  - exact (Nat.neq_0_succ 0).
  - apply nth_error_nth'. lia.
  - apply nth_error_nth'. lia.
  - apply chained_step with (b := nth 1 l no_candidate).
    + apply chained_step with (b := nth 0 res no_candidate).
      * apply chained_refl. apply (@greedy_incl (length l) l).
        apply nth_In. fold res. lia.
      * apply nth_In. lia.
      * vm_compute. reflexivity.
    + apply (@greedy_incl (length l) l). apply nth_In. exact L2.
    + vm_compute. reflexivity.
Qed.

(** C3 (one pass of overlap resolution), amended.  On a candidate list
    sorted from longest to shortest, each outer pass emits the first
    remaining candidate, which is the longest remaining one, and removes it
    together with exactly the remaining candidates whose spans overlap its
    span directly ([greedy] is this computation); a candidate linked to the
    winner only through a chain of overlaps stays for a later pass.  So the
    emitted matches do not overlap one another, and every candidate is
    emitted or directly overlaps an emitted match at least as long. *)
Theorem C3_each_pass_removes_the_direct_overlaps (l : list _Candidate) :
  longest_first l -> Forall well_formed l ->
  _remove_overlap l = Ok (greedy (length l) l)
  /\ (forall n w t,
        greedy (S n) (w :: t)
        = w :: greedy n (filter (fun c => negb (overlapb w c)) t))
  /\ pairwise (fun a b => overlapb a b = false) (greedy (length l) l)
  /\ (forall c, In c l ->
        In c (greedy (length l) l)
        \/ exists w, In w (greedy (length l) l) /\ overlapb w c = true /\
                     (clen c <= clen w)%Z).
Proof.
  intros Hs Hw. split; [now apply remove_overlap_greedy|].
  split; [reflexivity|]. split; [apply greedy_pairwise|].
  intros c Hc. now apply greedy_covers.
Qed.

Lemma C3_witness :
  let l := [ mkCandidate 3 13 (py "104050 EST") Eps;
             mkCandidate 0 7 (py "12:1040") Eps;
             mkCandidate 0 2 (py "12") Eps ] in
  _remove_overlap l
  = Ok [ mkCandidate 3 13 (py "104050 EST") Eps; mkCandidate 0 2 (py "12") Eps ].
Proof.
  intros l.
  assert (Hs : longest_first l)
    by (repeat constructor; vm_compute; discriminate).
  assert (Hw : Forall well_formed l)
    by (repeat constructor; vm_compute; discriminate).
  exact (proj1 (C3_each_pass_removes_the_direct_overlaps Hs Hw)).
Defined.

(** C4, as worded, fails: the hours of "234512" are 23, not 24. *)
Lemma C4_counterexample :
  ~ exists rs r, run (py "234512") = Ok rs /\ In r rs /\
                 hours r = Some 24%Z /\ minutes r = Some 45%Z /\
                 seconds r = Some 12%Z.
Proof.
  intros (rs & r & H & Hin & Hh & _).
  assert (E : run (py "234512")
              = Ok [ mkTimeValue (py "234512") 0 6 (Some 23%Z) (Some 45%Z)
                                 (Some 12%Z) None None None None None None ])
    by (vm_compute; reflexivity).
  rewrite E in H. injection H as <-.
  destruct Hin as [<-|[]]. clear E. cbn in Hh. discriminate Hh.
Qed.

(** C4 (negative-lookahead boundary), amended.  [run] on "234512" returns
    one record, the hour-minute-second reading with hours=23, minutes=45,
    seconds=12, and none for an hour-minute reading 23:45 followed by a
    dangling "12": the hour-minute patterns find nothing in it, because
    their negative lookahead forbids a match whose minutes are immediately
    followed by another digit, in any string. *)
Theorem C4_lookahead_boundary :
  run (py "234512")
  = Ok [ mkTimeValue (py "234512") 0 6 (Some 23%Z) (Some 45%Z) (Some 12%Z)
                     None None None None None None ]
  /\ finditer _regex_h24m_no_colon (py "234512") = []
  /\ finditer _regex_iso_hhmm (py "234512") = []
  /\ (forall s st en g x,
        In (st, (en, g)) (finditer _regex_h24m_no_colon s) ->
        nth_error s en = Some x -> is_digit x = false).
Proof.
  split; [vm_compute; reflexivity|].
  split; [vm_compute; reflexivity|].
  split; [vm_compute; reflexivity|].
  intros s st en g x Hin Hx.
  apply finditer_In in Hin as (Hst & H).
  apply match_at_path in H as (_ & _ & P); [|exact Hst].
  unfold _regex_h24m_no_colon, _str_h24m_no_colon in P.
  inversion P as [| |? ? ? ? cm gm ? ? _ P2| | | | | | | | |]; subst.
  inversion P2 as [| | | | | | | | |? ? ? ? ? ? P3| |]; subst.
  inversion P3 as [| |? ? ? ? c' g' ? ? _ P4| | | | | | | | |]; subst.
  inversion P4 as [| | | | | | | | | | |? ? E]; subst.
  apply nth_error_skipn_cons in Hx as (t & Hx).
  eapply E. rewrite cursor_at_rest. exact Hx.
Qed.

Lemma C4_witness :
  In (0, (4, [(g_minutes, (2, 4)); (g_hours, (0, 2))]))
     (finditer _regex_h24m_no_colon (py "2345 12"))
  /\ nth_error (py "2345 12") 4 = Some " "%char
  /\ is_digit " " = false.
Proof.
  assert (Hin : In (0, (4, [(g_minutes, (2, 4)); (g_hours, (0, 2))]))
                   (finditer _regex_h24m_no_colon (py "2345 12")))
    by (vm_compute; left; reflexivity).
  split; [exact Hin|]. split; [reflexivity|].
  exact (proj2 (proj2 (proj2 C4_lookahead_boundary)) _ _ _ _ _ Hin eq_refl).
Defined.

(** C6 (timezone and offset decomposition).  [run] on "093000 Z" returns one
    record with hours=9, minutes=30, seconds=0 and timezone="UTC"; on
    "093000-0530" one record with gmt_delta_sign="-", gmt_delta_hours=5,
    gmt_delta_minutes=30; on "093000-05", whose delta has no minute portion,
    gmt_delta_minutes keeps the sentinel.  In every record of every input the
    sign, hour and minute of the offset are what the groups of the
    offset-decomposition pattern captured in the raw delta substring: a
    field is filled only if its group took part in that match. *)
Theorem C6_timezone_and_offset :
  run (py "093000 Z")
  = Ok [ mkTimeValue (py "093000 Z") 0 8 (Some 9%Z) (Some 30%Z) (Some 0%Z)
                     None None (Some (py "UTC")) None None None ]
  /\ run (py "093000-0530")
     = Ok [ mkTimeValue (py "093000-0530") 0 11 (Some 9%Z) (Some 30%Z)
                        (Some 0%Z) None None None (Some (py "-")) (Some 5%Z)
                        (Some 30%Z) ]
  /\ run (py "093000-05")
     = Ok [ mkTimeValue (py "093000-05") 0 9 (Some 9%Z) (Some 30%Z)
                        (Some 0%Z) None None None (Some (py "-")) (Some 5%Z)
                        None ]
  /\ (forall sentence rs r,
        run sentence = Ok rs -> In r rs ->
        exists regex m,
          In regex _regexes /\ re_match regex (text r) = Some m /\
          let d := groupdict regex (text r) m in
          (forall w, gmt_delta_sign r = Some w -> from_delta d g_gmt_sign w) /\
          (forall z, gmt_delta_hours r = Some z ->
             exists w, from_delta d g_gmt_hours w /\ py_int w = Ok z) /\
          (forall z, gmt_delta_minutes r = Some z ->
             exists w, from_delta d g_gmt_minutes w /\ py_int w = Ok z)).
Proof.
  split; [vm_compute; reflexivity|].
  split; [vm_compute; reflexivity|].
  split; [vm_compute; reflexivity|].
  intros sentence rs r H Hin.
  destruct (run_result_from _ _ H Hin) as (regex & m & Hr & Hm & Hf).
  exists regex, m. split; [exact Hr|]. split; [exact Hm|].
  unfold record_from, filled_from in Hf. cbv zeta. tauto.
Qed.

Lemma C6_witness :
  exists regex m,
    In regex _regexes /\ re_match regex (py "093000-0530") = Some m /\
    from_delta (groupdict regex (py "093000-0530") m) g_gmt_sign (py "-").
Proof.
  destruct (proj2 (proj2 (proj2 C6_timezone_and_offset))
              (py "093000-0530") _ _
              (proj1 (proj2 C6_timezone_and_offset)) (or_introl eq_refl))
    as (regex & m & Hr & Hm & Hs & _).
  exists regex, m. split; [exact Hr|]. split; [exact Hm|].
  exact (Hs _ eq_refl).
Defined.

(** C9 (absence of data is not an error).  When no pattern produces a match,
    [run] returns the empty sequence and raises nothing.  Every record
    carries exactly the 12 fields of the schema; and in every record, a
    field whose group captured nothing in the match holds the sentinel (the
    offset fields when no delta was captured). *)
Theorem C9_absence_is_not_an_error :
  (forall sentence,
      (forall regex, In regex _regexes ->
                     finditer regex (_clean_sentence sentence) = []) ->
      run sentence = Ok [])
  /\ (forall sentence rs r,
        run sentence = Ok rs -> In r rs ->
        map fst (_asdict r) = TIME_VALUE_FIELDS
        /\ length (_asdict r) = 12
        /\ exists regex m,
             In regex _regexes /\ re_match regex (text r) = Some m /\
             let d := groupdict regex (text r) m in
             (no_data d g_hours -> hours r = None) /\
             (no_data d g_minutes -> minutes r = None) /\
             (no_data d g_seconds -> seconds r = None) /\
             (no_data d g_frac -> fractional_seconds r = None) /\
             (no_data d g_am_pm -> am_pm r = None) /\
             (no_data d g_timezone -> timezone r = None) /\
             (no_data d g_gmt_delta ->
                gmt_delta_sign r = None /\ gmt_delta_hours r = None /\
                gmt_delta_minutes r = None)).
Proof.
  split; [exact run_nothing_found|].
  intros sentence rs r H Hin.
  split; [reflexivity|]. split; [reflexivity|].
  destruct (run_result_from _ _ H Hin) as (regex & m & Hr & Hm & Hf).
  exists regex, m. split; [exact Hr|]. split; [exact Hm|].
  unfold record_from, filled_from in Hf.
  destruct Hf as (Hh & Hmi & Hs & Hfr & Ha & Ht & Hgs & Hgh & Hgm).
  cbv zeta. unfold no_data.
  repeat apply conj.
  - intros N. destruct (hours r) as [z|]; [|reflexivity].
    destruct (Hh z eq_refl) as (v & Hv & _). now apply N in Hv.
  - intros N. destruct (minutes r) as [z|]; [|reflexivity].
    destruct (Hmi z eq_refl) as (v & Hv & _). now apply N in Hv.
  - intros N. destruct (seconds r) as [z|]; [|reflexivity].
    destruct (Hs z eq_refl) as (v & Hv & _). now apply N in Hv.
  - intros N. destruct (fractional_seconds r) as [z|]; [|reflexivity].
    destruct (Hfr z eq_refl) as (v & Hv & _). now apply N in Hv.
  - intros N. destruct (am_pm r) as [z|]; [|reflexivity].
    destruct (Ha z eq_refl) as (v & Hv & _). now apply N in Hv.
  - intros N. destruct (timezone r) as [z|]; [|reflexivity].
    destruct (Ht z eq_refl) as (v & Hv & _). now apply N in Hv.
  - intros N. repeat apply conj.
    + destruct (gmt_delta_sign r) as [z|]; [|reflexivity].
      destruct (Hgs z eq_refl) as (v & ? & ? & ? & ? & Hv & _). now apply N in Hv.
    + destruct (gmt_delta_hours r) as [z|]; [|reflexivity].
      destruct (Hgh z eq_refl) as (w & (v & ? & ? & ? & ? & Hv & _) & _).
      now apply N in Hv.
    + destruct (gmt_delta_minutes r) as [z|]; [|reflexivity].
      destruct (Hgm z eq_refl) as (w & (v & ? & ? & ? & ? & Hv & _) & _).
      now apply N in Hv.
Qed.

Lemma C9_witness :
  run (py "hello, world") = Ok []
  /\ length (_asdict (mkTimeValue (py "4 am") 0 4 (Some 4%Z) None None None
                                  (Some (py "am")) None None None None)) = 12.
Proof.
  split.
  - apply (proj1 C9_absence_is_not_an_error).
    intros regex Hr. simpl in Hr.
    repeat (destruct Hr as [<-|Hr]; [vm_compute; reflexivity|]).
    contradiction.
  - assert (E : run (py "4 am")
                = Ok [ mkTimeValue (py "4 am") 0 4 (Some 4%Z) None None None
                                   (Some (py "am")) None None None None ])
      by (vm_compute; reflexivity).
    exact (proj1 (proj2 (proj2 C9_absence_is_not_an_error _ _ _ E
                                 (or_introl eq_refl)))).
Defined.

(** C5 (case insensitivity).  The documentation of the module says that all
    time expression recognition is case-insensitive, and so does the claim,
    [case_insensitive]; the code reads the zone marker Z case-sensitively.
    The ISO patterns spell a capital Z and are compiled without
    re.IGNORECASE: "12Z" is recognized as [0, 3) with timezone "UTC", and
    "12z" as [0, 2) with no timezone.  The timezone pattern is compiled with
    re.IGNORECASE, but the test ['Z' == timezone] is not: "093000 Z" reports
    the timezone "UTC" and "093000 z" reports "z".  So the claim fails on the
    code.  Its examples hold: "4 AM", "4 am" and "4 Am" all yield hours=4 and
    am_pm="am". *)
Theorem C5_zone_marker_is_read_case_sensitively :
  run (py "12Z")
  = Ok [ mkTimeValue (py "12Z") 0 3 (Some 12%Z) None None None None
                     (Some (py "UTC")) None None None ]
  /\ run (py "12z")
     = Ok [ mkTimeValue (py "12") 0 2 (Some 12%Z) None None None None None
                        None None None ]
  /\ run (py "093000 Z")
     = Ok [ mkTimeValue (py "093000 Z") 0 8 (Some 9%Z) (Some 30%Z) (Some 0%Z)
                        None None (Some (py "UTC")) None None None ]
  /\ run (py "093000 z")
     = Ok [ mkTimeValue (py "093000 z") 0 8 (Some 9%Z) (Some 30%Z) (Some 0%Z)
                        None None (Some (py "z")) None None None ]
  /\ ~ case_insensitive
  /\ run (py "4 AM")
     = Ok [ mkTimeValue (py "4 AM") 0 4 (Some 4%Z) None None None
                        (Some (py "am")) None None None None ]
  /\ run (py "4 am")
     = Ok [ mkTimeValue (py "4 am") 0 4 (Some 4%Z) None None None
                        (Some (py "am")) None None None None ]
  /\ run (py "4 Am")
     = Ok [ mkTimeValue (py "4 Am") 0 4 (Some 4%Z) None None None
                        (Some (py "am")) None None None None ].
Proof.
  assert (E : run (py "12Z")
              = Ok [ mkTimeValue (py "12Z") 0 3 (Some 12%Z) None None None None
                                 (Some (py "UTC")) None None None ])
    by (vm_compute; reflexivity).
  assert (E' : run (py "12z")
               = Ok [ mkTimeValue (py "12") 0 2 (Some 12%Z) None None None None
                                  None None None None ])
    by (vm_compute; reflexivity).
  split; [exact E|]. split; [exact E'|].
  split; [vm_compute; reflexivity|]. split; [vm_compute; reflexivity|].
  split; [|repeat split; vm_compute; reflexivity].
  intros H.
  assert (C : case_eq (py "12Z") (py "12z")) by (repeat constructor).
  specialize (H _ _ _ _ C E E').
  inversion H as [|? ? ? ? (_ & He & _) _]; subst. clear E E'.
  cbn in He. discriminate He.
Qed.

(* ------------------------------------------------------------------------- *)
(** * Further properties: the overlap test *)

Local Open Scope Z_scope.

(** X1 (the assertions of [_has_overlap]).  The call raises exactly when one
    of the two spans is inverted, and then it is an AssertionError; on two
    proper spans it returns a boolean. *)
Theorem X1_has_overlap_asserts (a1 b1 a2 b2 : Z) :
  (_has_overlap a1 b1 a2 b2 = Raise AssertionError <-> (b1 < a1 \/ b2 < a2))
  /\ ((a1 <= b1 /\ a2 <= b2) <-> exists b, _has_overlap a1 b1 a2 b2 = Ok b)
  /\ (forall e, _has_overlap a1 b1 a2 b2 = Raise e -> e = AssertionError).
Proof.
  unfold _has_overlap.
  destruct (Z.leb_spec a1 b1), (Z.leb_spec a2 b2),
    (Z.leb_spec b2 a1), (Z.geb_spec a2 b1); cbn [negb];
    repeat split; intros;
    repeat match goal with H : exists _, _ |- _ => destruct H end;
    try discriminate; try congruence; try lia; eauto.
Qed.

(** X2 (what overlapping means).  For two non-empty spans, [_has_overlap]
    answers True exactly when some offset lies in both, and False exactly
    when one span ends no later than the other starts; spans that only touch
    do not overlap. *)
Theorem X2_has_overlap_shares_an_offset (a1 b1 a2 b2 : Z) :
  a1 < b1 -> a2 < b2 ->
  (_has_overlap a1 b1 a2 b2 = Ok true
   <-> exists x, (a1 <= x < b1) /\ (a2 <= x < b2))
  /\ (_has_overlap a1 b1 a2 b2 = Ok false <-> apart a1 b1 a2 b2).
Proof.
  intros H1 H2. rewrite has_overlap_ok by lia. unfold apart.
  destruct (Z.leb_spec b2 a1), (Z.geb_spec a2 b1); cbn [negb andb];
    (split; split; intros K; try discriminate; try reflexivity; try lia;
     try (destruct K as (x & ? & ?); lia)).
  exists (Z.max a1 a2). lia.
Qed.

Lemma X2_witness :
  (_has_overlap 0 7 3 13 = Ok true
   <-> exists x, (0 <= x < 7) /\ (3 <= x < 13))
  /\ (_has_overlap 0 7 3 13 = Ok false <-> apart 0 7 3 13).
Proof. apply X2_has_overlap_shares_an_offset; lia. Defined.

(** X3 (the overlap test is symmetric).  Exchanging the two spans changes
    neither the answer nor whether the call raises. *)
Theorem X3_has_overlap_symmetric (a1 b1 a2 b2 : Z) :
  _has_overlap a1 b1 a2 b2 = _has_overlap a2 b2 a1 b1.
Proof.
  unfold _has_overlap.
  destruct (Z.leb_spec a1 b1), (Z.leb_spec a2 b2),
    (Z.leb_spec b2 a1), (Z.geb_spec a2 b1),
    (Z.leb_spec b1 a2), (Z.geb_spec a1 b2); cbn [negb]; try reflexivity; lia.
Qed.

Local Close Scope Z_scope.

(* ------------------------------------------------------------------------- *)
(** * Further properties: overlap resolution on any list *)

Lemma remove_positions_incl (indices ov : list nat) (x : nat) :
  In x (remove_positions indices ov) -> In x indices.
Proof.
  unfold remove_positions. intros H.
  apply in_map_iff in H as ([k y] & <- & H).
  apply filter_In in H as [H _]. apply in_combine_r in H. exact H.
Qed.

(** A pass that removes position 0 leaves fewer indices. *)
Lemma remove_positions_shorter (indices ov : list nat) :
  indices <> [] -> In 0 ov ->
  length (remove_positions indices ov) < length indices.
Proof.
  intros Hne H0. unfold remove_positions. rewrite length_map.
  destruct indices as [|x t]; [congruence|].
  assert (E : existsb (Nat.eqb 0) ov = true).
  { apply existsb_exists. exists 0. split; [exact H0|reflexivity]. }
  cbn [length seq combine filter fst]. rewrite E. cbn [negb].
  eapply Nat.le_lt_trans; [apply filter_length_le|].
  rewrite length_combine, length_seq. lia.
Qed.

Lemma well_formed_or_inverted (cs : list _Candidate) :
  Forall well_formed cs \/ Exists inverted cs.
Proof.
  induction cs as [|c t [IH|IH]].
  - left. constructor.
  - destruct (Z.le_gt_cases (cand_start c) (cand_end c)) as [H|H].
    + left. now constructor.
    + right. left. exact H.
  - right. now right.
Qed.

Section AnyOrder.
Variable cs : list _Candidate.
Hypothesis cs_wf : Forall well_formed cs.

(** One step of the inner loop keeps its invariant and does not raise. *)
Lemma scan_step_inv (indices : list nat) (st : scan_state) (j : nat) :
  Forall (fun i => i < length cs) indices -> j < length indices ->
  scan_inv cs st ->
  exists st', scan_step cs indices st j = Ok st' /\ scan_inv cs st'.
Proof.
  intros Hidx Hj (Hse & Hci & H0).
  destruct (nth_error indices j) as [idx|] eqn:E;
    [|apply nth_error_None in E; lia].
  assert (Hi : idx < length cs).
  { rewrite Forall_forall in Hidx. apply Hidx. eapply nth_error_In; eauto. }
  destruct (nth_error cs idx) as [cj|] eqn:Ej;
    [|apply nth_error_None in Ej; lia].
  assert (Hw : well_formed cj).
  { rewrite Forall_forall in cs_wf. apply cs_wf. eapply nth_error_In; eauto. }
  unfold scan_step, getitem. rewrite E. cbn [bind]. rewrite Ej. cbn [bind].
  rewrite has_overlap_ok by auto. cbn [bind].
  destruct (negb _ && negb _).
  - destruct (_ >? _)%Z; eexists; (split; [reflexivity|]);
      unfold scan_inv; cbn [start_i end_i candidate_index overlaps];
      repeat split; auto; apply in_or_app; auto.
  - exists st. split; [reflexivity|]. repeat split; auto.
Qed.

(** The outer loop on any indices: it returns within its budget, and what it
    adds to the results are candidates, at most one for each index and at
    least one when there is an index. *)
Lemma resolve_loop_any (budget : nat) : forall indices results,
  length indices <= budget ->
  Forall (fun i => i < length cs) indices ->
  exists res,
    resolve_loop budget cs indices results = Ok (results ++ res)
    /\ incl res cs /\ length res <= length indices
    /\ (indices <> [] -> res <> []).
Proof.
  induction budget as [|b IH]; intros indices results Hlen Hidx.
  - destruct indices; [|simpl in Hlen; lia].
    exists []. cbn. rewrite app_nil_r. repeat split; auto.
    intros x [].
  - destruct indices as [|i0 tl].
    { exists []. cbn. rewrite app_nil_r. repeat split; auto. intros x []. }
    inversion Hidx as [|? ? Hi0 Htl]; subst.
    cbn [resolve_loop length Nat.leb].
    unfold getitem at 1. cbn [nth_error bind].
    rewrite (@getitem_at cs _ Hi0). cbn [bind].
    match goal with
    | |- context [foldM ?f ?l ?s] =>
        destruct (@foldM_invariant _ _ f (scan_inv cs) l) with (st := s)
          as (st & Est & Hinv)
    end.
    + intros j st0 Hj H0. apply scan_step_inv; auto.
      apply in_seq in Hj. simpl in *. lia.
    + unfold scan_inv. cbn [start_i end_i candidate_index overlaps].
      split; [|split; [exact Hi0|now left]].
      rewrite Forall_forall in cs_wf. apply cs_wf, nth_In, Hi0.
    + rewrite Est. cbn [bind].
      destruct Hinv as (_ & Hci & H0).
      rewrite (@getitem_at cs _ Hci). cbn [bind].
      set (winner := nth (candidate_index st) cs no_candidate).
      assert (Hw : In winner cs) by (apply nth_In, Hci).
      pose proof (@remove_positions_shorter (i0 :: tl) (overlaps st)
                    ltac:(discriminate) H0) as Hsh.
      set (indices' := remove_positions (i0 :: tl) (overlaps st)) in *.
      destruct (Nat.eqb_spec (length indices') 0) as [E|E].
      * exists [winner]. split; [reflexivity|].
        split; [intros x [<-|[]]; exact Hw|].
        split; [simpl; lia|discriminate].
      * destruct (IH indices' (results ++ [winner])) as (res & Er & Hin & Hl & _).
        -- simpl in Hlen, Hsh. lia.
        -- rewrite Forall_forall in *. intros x Hx.
           apply Hidx. eapply remove_positions_incl. exact Hx.
        -- exists (winner :: res). rewrite Er, <- app_assoc.
           split; [reflexivity|].
           split; [intros x [<-|Hx]; auto|].
           split; [simpl in *; lia|discriminate].
Qed.

End AnyOrder.

(** The inner loop raises at the first inverted span it meets. *)
Lemma scan_raises (cs : list _Candidate) (indices js : list nat) :
  forall st,
  (start_i st <= end_i st)%Z ->
  Exists (fun j => exists idx c,
            nth_error indices j = Some idx /\ nth_error cs idx = Some c
            /\ inverted c) js ->
  Forall (fun j => exists idx c,
            nth_error indices j = Some idx /\ nth_error cs idx = Some c) js ->
  foldM (scan_step cs indices) js st = Raise AssertionError.
Proof.
  induction js as [|j js IH]; intros st Hst Hex Hall;
    [inversion Hex|].
  inversion Hall as [|? ? (idx & c & Ei & Ec) Hall']; subst.
  cbn [foldM]. unfold scan_step at 1, getitem.
  rewrite Ei. cbn [bind]. rewrite Ec. cbn [bind].
  destruct (Z.le_gt_cases (cand_start c) (cand_end c)) as [Hc|Hc].
  - rewrite has_overlap_ok by auto. cbn [bind].
    assert (Hex' : Exists (fun j => exists idx c,
                      nth_error indices j = Some idx
                      /\ nth_error cs idx = Some c /\ inverted c) js).
    { inversion Hex as [? ? (idx' & c' & Ei' & Ec' & Hinv)|]; subst; [|assumption].
      exfalso. rewrite Ei in Ei'. injection Ei' as <-.
      rewrite Ec in Ec'. injection Ec' as <-. unfold inverted in Hinv. lia. }
    destruct (negb _ && negb _).
    + destruct (_ >? _)%Z; cbn [bind]; apply IH; auto.
    + cbn [bind]. apply IH; auto.
  - unfold _has_overlap.
    destruct (Z.leb_spec (start_i st) (end_i st)); [|lia].
    destruct (Z.leb_spec (cand_start c) (cand_end c)); [lia|].
    reflexivity.
Qed.

(** [_remove_overlap] on proper spans, in any order. *)
Lemma remove_overlap_any (cs : list _Candidate) :
  Forall well_formed cs ->
  exists res,
    _remove_overlap cs = Ok res /\ incl res cs /\ length res <= length cs
    /\ (cs <> [] -> res <> []).
Proof.
  intros H. unfold _remove_overlap.
  destruct (@resolve_loop_any cs H (length cs) (seq 0 (length cs)) [])
    as (res & E & Hin & Hl & Hne).
  - now rewrite length_seq.
  - rewrite Forall_forall. intros i Hi. apply in_seq in Hi. lia.
  - exists res. rewrite length_seq in Hl. repeat split; auto.
    intros Hcs. apply Hne. destruct cs; [congruence|discriminate].
Qed.

(** X4 (overlap resolution returns on any order).  On every list of
    candidates with proper spans, sorted or not, [_remove_overlap] returns
    without raising and within the iterations its list allows; what it
    returns are candidates of the list, no more than the list has, and at
    least one when the list is not empty. *)
Theorem X4_remove_overlap_returns_on_any_order (cs : list _Candidate) :
  Forall well_formed cs ->
  exists res,
    _remove_overlap cs = Ok res /\ incl res cs /\ length res <= length cs
    /\ (cs <> [] -> res <> []).
Proof. apply remove_overlap_any. Qed.

Lemma X4_witness :
  exists res,
    _remove_overlap [ mkCandidate 0 2 (py "12") Eps;
                      mkCandidate 5 6 (py "4") Eps;
                      mkCandidate 1 7 (py "2:1040") Eps ] = Ok res
    /\ incl res [ mkCandidate 0 2 (py "12") Eps;
                  mkCandidate 5 6 (py "4") Eps;
                  mkCandidate 1 7 (py "2:1040") Eps ]
    /\ length res <= 3
    /\ ([ mkCandidate 0 2 (py "12") Eps;
          mkCandidate 5 6 (py "4") Eps;
          mkCandidate 1 7 (py "2:1040") Eps ] <> [] -> res <> []).
Proof.
  apply (@X4_remove_overlap_returns_on_any_order
           [ mkCandidate 0 2 (py "12") Eps;
             mkCandidate 5 6 (py "4") Eps;
             mkCandidate 1 7 (py "2:1040") Eps ]).
  repeat constructor; unfold well_formed; cbn; lia.
Defined.

(** X5 (the assertions of overlap resolution).  A list of fewer than two
    candidates is returned as it is, with no span compared or checked.  On
    two or more candidates [_remove_overlap] raises exactly when some
    candidate of the list has an inverted span, in its first pass; and an
    AssertionError is all it ever raises. *)
Theorem X5_remove_overlap_asserts_on_an_inverted_span (cs : list _Candidate) :
  (length cs <= 1 -> _remove_overlap cs = Ok cs)
  /\ (2 <= length cs ->
      (_remove_overlap cs = Raise AssertionError <-> Exists inverted cs))
  /\ (forall e, _remove_overlap cs = Raise e -> e = AssertionError).
Proof.
  assert (R : 2 <= length cs -> Exists inverted cs ->
              _remove_overlap cs = Raise AssertionError).
  { intros Hlen Hex.
    destruct cs as [|c0 [|c1 t]]; try (simpl in Hlen; lia).
    unfold _remove_overlap. cbn [resolve_loop length Nat.leb seq].
    unfold getitem at 1. cbn [nth_error bind].
    unfold getitem at 1. cbn [nth_error bind].
    rewrite length_seq.
    change (0 :: 1 :: seq 2 (length t)) with (seq 0 (S (S (length t)))).
    assert (Hseq : forall j, j < S (S (length t)) ->
                   nth_error (seq 0 (S (S (length t)))) j = Some j).
    { intros j Hj. rewrite nth_error_nth' with (d := 0) by now rewrite length_seq.
      now rewrite seq_nth. }
    destruct (Z.le_gt_cases (cand_start c0) (cand_end c0)) as [H0|H0].
    - rewrite scan_raises; [reflexivity|exact H0| |].
      + inversion Hex as [? ? Hinv|? ? Hex']; subst;
          [unfold inverted in Hinv; lia|].
        apply Exists_exists in Hex' as (c & Hc & Hinv).
        apply In_nth_error in Hc as (k & Hk).
        apply Exists_exists. exists (S k).
        assert (Hlt : k < length (c1 :: t))
          by (apply nth_error_Some; congruence).
        split; [apply in_seq; simpl in *; lia|].
        exists (S k), c. split; [|split; [exact Hk|exact Hinv]].
        apply Hseq. simpl in Hlt. lia.
      + rewrite Forall_forall. intros j Hj. apply in_seq in Hj.
        assert (Hlt : j < length (c0 :: c1 :: t)) by (simpl in *; lia).
        destruct (nth_error (c0 :: c1 :: t) j) as [c|] eqn:Ec;
          [|apply nth_error_None in Ec; lia].
        exists j, c. split; [|exact Ec].
        apply Hseq. exact Hlt.
    - match goal with
      | |- context [foldM ?f ?l ?s] => change l with (1 :: seq 2 (length t))
      end.
      cbn [foldM]. unfold scan_step at 1. unfold getitem at 1.
      rewrite Hseq by lia. cbn [bind].
      unfold getitem at 1. cbn [nth_error bind start_i end_i].
      unfold _has_overlap.
      destruct (Z.leb_spec (cand_start c0) (cand_end c0)); [lia|].
      reflexivity. }
  split; [|split].
  - intros Hlen. destruct cs as [|c0 [|c1 t]]; [reflexivity|reflexivity|].
    simpl in Hlen. lia.
  - intros Hlen. split; [|now apply R].
    intros E. destruct (well_formed_or_inverted cs) as [H|H]; [|exact H].
    destruct (remove_overlap_any H) as (res & E' & _). congruence.
  - intros e E. destruct (well_formed_or_inverted cs) as [H|H].
    + destruct (remove_overlap_any H) as (res & E' & _). congruence.
    + destruct cs as [|c0 [|c1 t]]; try discriminate.
      rewrite R in E; [congruence|simpl; lia|exact H].
Qed.

Lemma X5_witness :
  _remove_overlap [ mkCandidate 0 2 (py "12") Eps;
                    mkCandidate 7 3 [] Eps ] = Raise AssertionError
  <-> Exists inverted [ mkCandidate 0 2 (py "12") Eps;
                        mkCandidate 7 3 [] Eps ].
Proof.
  apply (proj1 (proj2 (X5_remove_overlap_asserts_on_an_inverted_span
                         [ mkCandidate 0 2 (py "12") Eps;
                           mkCandidate 7 3 [] Eps ]))).
  simpl. lia.
Defined.

(** X19 (why the candidates are sorted first).  [_remove_overlap] relies on
    its list being sorted from longest to shortest: given a candidate [a], a
    candidate [b] apart from it and then a longer candidate [c] that overlaps
    both, the first pass replaces the winner [a] by [c] but only removes what
    was compared with [a], so [b] stays and is returned next to [c], which it
    overlaps. *)
Theorem X19_unsorted_candidates_can_leave_an_overlap (a b c : _Candidate) :
  well_formed a -> well_formed b -> well_formed c ->
  overlapb a b = false -> overlapb a c = true -> overlapb b c = true ->
  (clen a < clen c)%Z ->
  _remove_overlap [a; b; c] = Ok [c; b] /\ overlapb c b = true.
Proof.
  unfold well_formed, clen. intros Ha Hb Hc Hab Hac Hbc Hlen.
  split; [|now rewrite overlapb_sym].
  unfold overlapb in Hab, Hac.
  unfold _remove_overlap.
  cbn [length seq resolve_loop Nat.leb Nat.add Nat.sub foldM].
  unfold getitem at 1. cbn [nth_error bind].
  unfold getitem at 1. cbn [nth_error bind].
  unfold scan_step at 1. unfold getitem at 1. cbn [nth_error bind].
  unfold getitem at 1. cbn [nth_error bind start_i end_i].
  rewrite has_overlap_ok by assumption. rewrite Hab. cbn [bind].
  unfold scan_step at 1. unfold getitem at 1. cbn [nth_error bind].
  unfold getitem at 1. cbn [nth_error bind start_i end_i len_i].
  rewrite has_overlap_ok by assumption. rewrite Hac. cbn [bind].
  destruct (Z.gtb_spec (cand_end c - cand_start c) (cand_end a - cand_start a));
    [|lia].
  cbn [bind candidate_index overlaps app].
  unfold getitem at 1. cbn [nth_error bind].
  reflexivity.
Qed.

Lemma X19_witness :
  _remove_overlap [ mkCandidate 0 2 (py "12") Eps;
                    mkCandidate 5 6 (py "4") Eps;
                    mkCandidate 1 7 (py "2:1040") Eps ]
  = Ok [ mkCandidate 1 7 (py "2:1040") Eps; mkCandidate 5 6 (py "4") Eps ]
  /\ overlapb (mkCandidate 1 7 (py "2:1040") Eps)
              (mkCandidate 5 6 (py "4") Eps) = true.
Proof.
  apply X19_unsorted_candidates_can_leave_an_overlap;
    unfold well_formed, clen; cbn; (reflexivity || lia).
Defined.

(* ------------------------------------------------------------------------- *)
(** * Further properties: preprocessing *)

Lemma clean_no_bracket (s : str) :
  Forall (fun c => _str_brackets c = false) (_clean_sentence s).
Proof.
  unfold _clean_sentence. apply Forall_forall. intros c Hc.
  apply in_map_iff in Hc as (x & <- & _).
  destruct (_str_brackets x) eqn:E; [reflexivity|exact E].
Qed.

Lemma clean_fixed (s : str) :
  Forall (fun c => _str_brackets c = false) s -> _clean_sentence s = s.
Proof.
  unfold _clean_sentence. induction 1 as [|c t Hc _ IH]; [reflexivity|].
  cbn [map]. now rewrite Hc, IH.
Qed.

Lemma clean_idempotent (s : str) :
  _clean_sentence (_clean_sentence s) = _clean_sentence s.
Proof. apply clean_fixed, clean_no_bracket. Qed.

(** X6 (preprocessing is idempotent).  The preprocessed sentence holds no
    bracket; a sentence without brackets is left as it is, so preprocessing
    twice is preprocessing once; and preprocessing works character by
    character: the preprocessed concatenation is the concatenation of the
    preprocessed parts. *)
Theorem X6_clean_sentence_is_idempotent (s : str) :
  Forall (fun c => _str_brackets c = false) (_clean_sentence s)
  /\ (Forall (fun c => _str_brackets c = false) s -> _clean_sentence s = s)
  /\ _clean_sentence (_clean_sentence s) = _clean_sentence s
  /\ (forall t, _clean_sentence (s ++ t)
                = _clean_sentence s ++ _clean_sentence t).
Proof.
  split; [apply clean_no_bracket|].
  split; [apply clean_fixed|].
  split; [apply clean_idempotent|].
  intros t. unfold _clean_sentence. apply map_app.
Qed.

(** X7 (brackets read as blanks).  [run] sees its input only through the
    preprocessed sentence: it returns the same on the sentence and on the
    preprocessed sentence, and the same on two sentences that differ only in
    having a bracket where the other has a space or another bracket. *)
Theorem X7_run_reads_brackets_as_blanks (s s' : str) :
  run (_clean_sentence s) = run s
  /\ (_clean_sentence s = _clean_sentence s' -> run s = run s').
Proof.
  split.
  - unfold run. now rewrite clean_idempotent.
  - intros E. unfold run. now rewrite E.
Qed.

Lemma X7_witness : run (py "(08:11)") = run (py " 08:11]").
Proof.
  apply (proj2 (X7_run_reads_brackets_as_blanks (py "(08:11)") (py " 08:11]"))).
  reflexivity.
Defined.

(* ------------------------------------------------------------------------- *)
(** * Further properties: the records of a run *)

Local Open Scope Z_scope.

(** The span of a scanned candidate is not empty and lies in the sentence,
    and its text has the length of the span. *)
Lemma scanned_span (sentence : str) (c : _Candidate) :
  scanned sentence c ->
  0 <= cand_start c < cand_end c
  /\ cand_end c <= Z.of_nat (length sentence)
  /\ Z.of_nat (length (cand_match_text c)) = cand_end c - cand_start c.
Proof.
  intros (regex & st & en & g & Hr & Hin & ->).
  cbn [cand_start cand_end cand_match_text].
  assert (Hn : nullable regex = false).
  { pose proof catalog_not_nullable as C. rewrite forallb_forall in C.
    apply C in Hr. now destruct (nullable regex). }
  pose proof (@match_nonempty regex sentence st en g Hn Hin) as Hlt.
  destruct (@finditer_span regex sentence st en g Hin) as [_ Hen].
  unfold slice. rewrite length_firstn, length_skipn. lia.
Qed.

Lemma run_record_span (sentence : str) (rs : list TimeValue) (r : TimeValue) :
  run sentence = Ok rs -> In r rs ->
  0 <= start r < end_ r
  /\ end_ r <= Z.of_nat (length sentence)
  /\ Z.of_nat (length (text r)) = end_ r - start r.
Proof.
  intros H Hin.
  destruct (run_result_origin _ _ H Hin) as (c & _ & Hs & _ & (Ht & Hb & He) & _).
  apply scanned_span in Hs. rewrite Ht, Hb, He.
  unfold _clean_sentence in Hs. rewrite length_map in Hs. exact Hs.
Qed.

(** Records that start in order, do not overlap and are not empty end
    before the next one starts. *)
Lemma apart_in_order (l : list TimeValue) :
  Forall (fun r => start r < end_ r) l ->
  StronglySorted (key_le start false) l ->
  pairwise (fun r1 r2 => apart (start r1) (end_ r1) (start r2) (end_ r2)) l ->
  in_reading_order l.
Proof.
  unfold in_reading_order, pairwise.
  induction l as [|a l IH]; intros Hne Hs Hp; [constructor|].
  inversion Hne as [|? ? Ha Hne']; subst.
  inversion Hs as [|? ? Hs' Hal]; subst.
  inversion Hp as [|? ? Hpa Hp']; subst.
  constructor; [now apply IH|].
  rewrite Forall_forall in *. intros b Hb.
  specialize (Hne' b Hb). specialize (Hal b Hb). specialize (Hpa b Hb).
  unfold key_le in Hal. unfold apart in Hpa. lia.
Qed.

(** X8 (reading order).  The records are returned in the order of their
    occurrence in the sentence: each one ends no later than the next one
    starts, so the starts strictly increase, for every input. *)
Theorem X8_records_are_in_reading_order (sentence : str) (rs : list TimeValue) :
  run sentence = Ok rs ->
  in_reading_order rs
  /\ (forall i j r1 r2,
        (i < j)%nat -> nth_error rs i = Some r1 -> nth_error rs j = Some r2 ->
        start r1 < start r2).
Proof.
  intros H.
  assert (Hne : Forall (fun r => start r < end_ r) rs).
  { apply Forall_forall. intros r Hr.
    destruct (run_record_span _ _ H Hr) as (? & _). lia. }
  assert (Ho : in_reading_order rs).
  { apply apart_in_order; [exact Hne| |exact (@run_pairwise_apart sentence rs H)].
    destruct (run_inv _ H) as (results & _ & ->). apply sorted_sorted. }
  split; [exact Ho|].
  clear H. unfold in_reading_order in Ho.
  induction Ho as [|a l Hl IH Ha]; intros i j r1 r2 Hij E1 E2.
  - destruct i; discriminate.
  - inversion Hne as [|? ? Hlt Hne']; subst.
    destruct j as [|j]; [lia|]. cbn [nth_error] in E2.
    destruct i as [|i].
    + injection E1 as <-. rewrite Forall_forall in Ha.
      apply nth_error_In in E2. specialize (Ha _ E2). lia.
    + cbn [nth_error] in E1. apply (IH Hne' i j); auto. lia.
Qed.

Lemma X8_witness :
  run (py "12:104050 EST")
  = Ok [ mkTimeValue (py "12") 0 2 (Some 12%Z) None None None None None
                     None None None;
         mkTimeValue (py "104050 EST") 3 13 (Some 10%Z) (Some 40%Z) (Some 50%Z)
                     None None (Some (py "EST")) None None None ]
  /\ in_reading_order
       [ mkTimeValue (py "12") 0 2 (Some 12%Z) None None None None None None
                     None None;
         mkTimeValue (py "104050 EST") 3 13 (Some 10%Z) (Some 40%Z)
                     (Some 50%Z) None None (Some (py "EST")) None None None ].
Proof.
  assert (E : run (py "12:104050 EST")
              = Ok [ mkTimeValue (py "12") 0 2 (Some 12%Z) None None None None
                                 None None None None;
                     mkTimeValue (py "104050 EST") 3 13 (Some 10%Z) (Some 40%Z)
                                 (Some 50%Z) None None (Some (py "EST")) None
                                 None None ])
    by (vm_compute; reflexivity).
  split; [exact E|].
  exact (proj1 (X8_records_are_in_reading_order _ E)).
Defined.

(** X9 (no empty record).  Every record spans at least one character of the
    sentence: 0 <= start < end <= the length of the sentence, and its text
    has exactly end - start characters. *)
Theorem X9_records_are_not_empty
        (sentence : str) (rs : list TimeValue) (r : TimeValue) :
  run sentence = Ok rs -> In r rs ->
  0 <= start r < end_ r
  /\ end_ r <= Z.of_nat (length sentence)
  /\ Z.of_nat (length (text r)) = end_ r - start r
  /\ text r <> [].
Proof.
  intros H Hin. destruct (run_record_span _ _ H Hin) as (H1 & H2 & H3).
  repeat split; try lia.
  intros E. rewrite E in H3. simpl in H3. lia.
Qed.

Lemma X9_witness :
  let r := mkTimeValue (py "08:11") 1 6 (Some 8%Z) (Some 11%Z) None None None
                       None None None None in
  run (py "[08:11]") = Ok [r]
  /\ 0 <= start r < end_ r
  /\ end_ r <= Z.of_nat (length (py "[08:11]"))
  /\ Z.of_nat (length (text r)) = end_ r - start r
  /\ text r <> [].
Proof.
  intros r.
  assert (E : run (py "[08:11]") = Ok [r]) by (vm_compute; reflexivity).
  split; [exact E|].
  exact (@X9_records_are_not_empty _ _ r E (or_introl eq_refl)).
Defined.

Local Close Scope Z_scope.

(* ------------------------------------------------------------------------- *)
(** * Further properties: what a match is made of *)

(** The text of a match is a word of its pattern. *)
Lemma match_text_lang r (s : str) st en g :
  In (st, (en, g)) (finditer r s) -> lang r (slice s st en).
Proof.
  intros Hin. apply finditer_In in Hin as [Hst Hm].
  apply match_at_path in Hm as (_ & _ & P); [|exact Hst].
  destruct (path_lang P) as (w & Ew & Lw & Hw).
  rewrite !cursor_at_rest in Ew.
  change (en = st + length w) in Lw.
  unfold slice. rewrite Ew, Lw.
  replace (st + length w - st) with (length w) by lia.
  rewrite firstn_app, Nat.sub_diag, firstn_all, firstn_0, app_nil_r.
  exact Hw.
Qed.

Lemma digit_bound_lang r :
  digit_bound r = true -> forall w, lang r w -> existsb is_digit w = true.
Proof.
  induction r as [|p|r1 IH1 r2 IH2|r1 IH1 r2 IH2|r1 IH1|p|n r1 IH1| |];
    cbn [digit_bound lang]; intros D w L; try discriminate.
  - destruct L as (x & -> & Px).
    pose proof (by_all_ascii _ D x) as K. cbv beta in K.
    rewrite Px in K. cbn [implb existsb] in *. now rewrite K.
  - destruct L as (u & v & -> & Lu & Lv). rewrite existsb_app.
    apply orb_true_iff. apply orb_prop in D as [D|D]; [left|right]; eauto.
  - apply andb_prop in D as [D1 D2]. destruct L; eauto.
  - eauto.
Qed.

Lemma catalog_digit_bound : forallb digit_bound _regexes = true.
Proof. vm_compute. reflexivity. Qed.

(** The text of a record is a word of a pattern of the catalog, taken from
    the preprocessed sentence. *)
Lemma run_text_lang (sentence : str) (rs : list TimeValue) (r : TimeValue) :
  run sentence = Ok rs -> In r rs ->
  exists regex st en,
    In regex _regexes /\ lang regex (text r)
    /\ text r = slice (_clean_sentence sentence) st en.
Proof.
  intros H Hin.
  destruct (run_result_origin _ _ H Hin) as (c & _ & Hs & _ & (Ht & _) & _).
  destruct Hs as (regex & st & en & g & Hr & Hf & ->).
  cbn [cand_match_text] in Ht. exists regex, st, en.
  rewrite Ht. split; [exact Hr|]. split; [|reflexivity].
  eapply match_text_lang. exact Hf.
Qed.

Lemma run_text_digit (sentence : str) (rs : list TimeValue) (r : TimeValue) :
  run sentence = Ok rs -> In r rs -> existsb is_digit (text r) = true.
Proof.
  intros H Hin.
  destruct (run_text_lang _ _ H Hin) as (regex & _ & _ & Hr & L & _).
  apply (@digit_bound_lang regex); [|exact L].
  pose proof catalog_digit_bound as C. rewrite forallb_forall in C. auto.
Qed.

Lemma slice_incl (s : str) (a b : nat) (x : ascii) :
  In x (slice s a b) -> In x s.
Proof.
  unfold slice. intros H.
  rewrite <- (firstn_skipn a s). apply in_or_app. right.
  rewrite <- (firstn_skipn (b - a) (skipn a s)). apply in_or_app. now left.
Qed.

(** X10 (a record holds a digit).  The text of every record contains at
    least one decimal digit: no pattern of the catalog has a word without
    one. *)
Theorem X10_every_record_holds_a_digit
        (sentence : str) (rs : list TimeValue) (r : TimeValue) :
  run sentence = Ok rs -> In r rs -> existsb is_digit (text r) = true.
Proof. apply run_text_digit. Qed.

Lemma X10_witness :
  let r := mkTimeValue (py "4 am") 3 7 (Some 4%Z) None None None
                       (Some (py "am")) None None None None in
  run (py "at 4 am") = Ok [r] /\ existsb is_digit (text r) = true.
Proof.
  intros r.
  assert (E : run (py "at 4 am") = Ok [r]) by (vm_compute; reflexivity).
  split; [exact E|].
  exact (@X10_every_record_holds_a_digit _ _ r E (or_introl eq_refl)).
Defined.

(** X11 (nothing without digits).  On a sentence that contains no decimal
    digit [run] returns the empty list, whatever else the sentence holds
    (meridiem tokens, zone abbreviations, colons, brackets); in particular on
    the empty sentence. *)
Theorem X11_no_digit_no_record (sentence : str) :
  forallb (fun c => negb (is_digit c)) sentence = true ->
  run sentence = Ok [].
Proof.
  intros Hnd. destruct (run_total sentence) as ([|r rs] & E); [exact E|].
  exfalso.
  pose proof (@run_text_digit sentence (r :: rs) r E (or_introl eq_refl)) as D.
  destruct (run_text_lang _ _ E (or_introl eq_refl)) as (_ & st & en & _ & _ & T).
  rewrite T in D. apply existsb_exists in D as (x & Hx & Dx).
  apply slice_incl in Hx. unfold _clean_sentence in Hx.
  apply in_map_iff in Hx as (c & <- & Hc).
  rewrite forallb_forall in Hnd. specialize (Hnd c Hc).
  destruct (_str_brackets c); [discriminate Dx|].
  rewrite Dx in Hnd. discriminate.
Qed.

Lemma X11_witness :
  run (py "see you at noon (EST), a.m. or p.m.") = Ok [].
Proof.
  apply X11_no_digit_no_record. vm_compute. reflexivity.
Defined.

(* ------------------------------------------------------------------------- *)
(** * Further properties: which groups a match fills *)

Lemma gname_eqb_eq (n m : gname) : gname_eqb n m = true -> n = m.
Proof. destruct n, m; simpl; congruence. Qed.

Lemma gname_eqb_refl (n : gname) : gname_eqb n n = true.
Proof. now destruct n. Qed.

(** A path through a pattern that always goes through a group named [n]
    captures it, and nothing that was captured is lost on the way. *)
Lemma captures_path (n : gname) r c g c1 g1 :
  path r c g c1 g1 ->
  captures n r = true \/ lookup n g <> None -> lookup n g1 <> None.
Proof.
  induction 1 as [c g|p c g x t E Px|r1 r2 c g c1 g1 c2 g2 _ IH1 _ IH2
                 |r1 r2 c g c1 g1 _ IH|r1 r2 c g c1 g1 _ IH
                 |r c g c1 g1 _ IH|r c g|p c g|p c g x t c1 g1 E Px _ IH
                 |m r c g c1 g1 _ IH|c g E|c g E];
    cbn [captures]; intros [H|H]; try discriminate; auto.
  - apply orb_prop in H as [H|H]; auto.
  - apply andb_prop in H as [H _]. auto.
  - apply andb_prop in H as [_ H]. auto.
  - cbn [lookup]. destruct (gname_eqb n m); [discriminate|].
    simpl in H. auto.
  - cbn [lookup]. destruct (gname_eqb n m); [discriminate|]. auto.
Qed.

Lemma captures_has_group (n : gname) r :
  captures n r = true -> In n (gnames r).
Proof.
  induction r as [|p|r1 IH1 r2 IH2|r1 IH1 r2 IH2|r1 IH1|p|m r1 IH1| |];
    cbn [captures gnames]; intros H; try discriminate.
  - apply in_or_app. apply orb_prop in H as [H|H]; auto.
  - apply in_or_app. apply andb_prop in H as [H _]. auto.
  - apply orb_prop in H as [H|H]; [left|right; auto].
    symmetry. now apply gname_eqb_eq.
Qed.

Lemma has_group_In (n : gname) r : has_group n r = true <-> In n (gnames r).
Proof.
  unfold has_group. rewrite existsb_exists. split.
  - intros (m & Hm & E). apply gname_eqb_eq in E. now subst.
  - intros H. exists n. split; [exact H|apply gname_eqb_refl].
Qed.

Lemma groupdict_key r (s : str) (m : mobj) (n : gname) (o : option str) :
  In (n, o) (groupdict r s m) -> In n (gnames r).
Proof.
  unfold groupdict. intros H. apply in_map_iff in H as (n' & E & Hn).
  now injection E as <- _.
Qed.

(** A group that every match of the pattern goes through has its text in
    the [groupdict] of the match. *)
Lemma groupdict_captured (n : gname) r (s : str) (m : mobj) :
  captures n r = true -> re_match r s = Some m ->
  exists v, In (n, Some v) (groupdict r s m).
Proof.
  intros C Hm. destruct m as [en g]. unfold re_match in Hm.
  rewrite <- cursor_at_0 in Hm.
  apply match_at_path in Hm as (_ & _ & P); [|lia].
  pose proof (captures_path n P (or_introl C)) as L.
  cbn [snd] in *. destruct (lookup n g) as [[a b]|] eqn:E; [|congruence].
  exists (slice s a b). unfold groupdict. apply in_map_iff. exists n.
  cbn [snd]. rewrite E. split; [reflexivity|now apply captures_has_group].
Qed.

(** The same for a search. *)
Lemma search_captured (n : gname) r (s : str) (p : nat) (m : mobj) :
  captures n r = true -> re_search r s = Some (p, m) ->
  exists v, In (n, Some v) (groupdict r s m).
Proof.
  intros C Hm. destruct m as [en g].
  apply re_search_spec in Hm as [Hp Hm].
  apply match_at_path in Hm as (_ & _ & P); [|exact Hp].
  pose proof (captures_path n P (or_introl C)) as L.
  cbn [snd] in *. destruct (lookup n g) as [[a b]|] eqn:E; [|congruence].
  exists (slice s a b). unfold groupdict. apply in_map_iff. exists n.
  cbn [snd]. rewrite E. split; [reflexivity|now apply captures_has_group].
Qed.

(** The text of a captured group is a word of one of the groups of that
    name. *)
Lemma caps_bodies (s : str) r c g c1 g1 :
  path r c g c1 g1 ->
  forall i, c = cursor_at s i -> i <= length s ->
  forall n a b, In (n, (a, b)) g1 ->
    In (n, (a, b)) g
    \/ exists body, In body (group_bodies n r) /\ lang body (slice s a b).
Proof.
  induction 1 as [c g|p c g x t E Px|r1 r2 c g c1 g1 c2 g2 P1 IH1 P2 IH2
                 |r1 r2 c g c1 g1 _ IH|r1 r2 c g c1 g1 _ IH
                 |r c g c1 g1 _ IH|r c g|p c g|p c g x t c1 g1 E Px P IH
                 |m r c g c1 g1 P IH|c g E|c g E];
    cbn [group_bodies]; intros i Hc Hi n a b Hin; auto.
  - destruct (path_cursor_at (s:=s) P1 Hc Hi) as (j & Hj & _ & Hjl).
    destruct (IH2 j Hj Hjl n a b Hin) as [H|(body & Hb & L)].
    + destruct (IH1 i Hc Hi n a b H) as [H'|(body & Hb & L)]; [now left|].
      right. exists body. split; [apply in_or_app; now left|exact L].
    + right. exists body. split; [apply in_or_app; now right|exact L].
  - destruct (IH i Hc Hi n a b Hin) as [H|(body & Hb & L)]; [now left|].
    right. exists body. split; [apply in_or_app; now left|exact L].
  - destruct (IH i Hc Hi n a b Hin) as [H|(body & Hb & L)]; [now left|].
    right. exists body. split; [apply in_or_app; now right|exact L].
  - exact (IH i Hc Hi n a b Hin).
  - subst c. rewrite cursor_at_rest in E.
    pose proof (skipn_cons_inv _ _ E) as (_ & _ & Hlt).
    destruct (IH (S i)) with (n := n) (a := a) (b := b)
      as [H|(body & [] & _)]; auto.
    now apply advance_cursor_at.
  - destruct Hin as [[= <- <- <-]|Hin].
    + right. exists r. rewrite gname_eqb_refl. split; [now left|].
      destruct (path_lang P) as (w & Ew & Lw & Hw).
      subst c. rewrite cursor_at_rest in Ew.
      change (c_pos (cursor_at s i)) with i in *.
      unfold slice. rewrite Ew, Lw.
      replace (i + length w - i) with (length w) by lia.
      rewrite firstn_app, Nat.sub_diag, firstn_all, firstn_0, app_nil_r.
      exact Hw.
    + destruct (IH i Hc Hi n a b Hin) as [H|(body & Hb & L)]; [now left|].
      right. exists body. split; [apply in_or_app; now right|exact L].
Qed.

Lemma groupdict_lang r (s : str) (m : mobj) (n : gname) (v : str) :
  re_match r s = Some m -> In (n, Some v) (groupdict r s m) ->
  exists body, In body (group_bodies n r) /\ lang body v.
Proof.
  intros Hm Hin. destruct m as [en g]. unfold re_match in Hm.
  rewrite <- cursor_at_0 in Hm.
  apply match_at_path in Hm as (_ & _ & P); [|lia].
  apply groupdict_In in Hin as (a & b & L & ->). cbn [snd] in L.
  apply lookup_In in L.
  destruct (caps_bodies (s:=s) P eq_refl (Nat.le_0_l _) _ _ _ L) as [[]|H].
  exact H.
Qed.

(** Listing the words of the groups decides a property of their texts. *)
Lemma bodies_pass_ok (n : gname) (f : str -> bool) r (body : regex) (w : str) :
  bodies_pass n f r = true -> In body (group_bodies n r) -> lang body w ->
  f w = true.
Proof.
  unfold bodies_pass. intros H Hb L. rewrite forallb_forall in H.
  specialize (H body Hb). destruct (enum body) as [l|] eqn:E; [|discriminate].
  rewrite forallb_forall in H. apply H. eapply enum_complete; eauto.
Qed.

(* ------------------------------------------------------------------------- *)
(** * Further properties: which fields a record fills *)

Lemma foldM_rel {S X} (f : S -> X -> result S) (R : S -> S -> Prop) :
  (forall s, R s s) -> (forall a b c, R a b -> R b c -> R a c) ->
  (forall x s s', f s x = Ok s' -> R s s') ->
  forall l s s', foldM f l s = Ok s' -> R s s'.
Proof.
  intros Hr Ht Hf. induction l as [|x l IH]; intros s s' E; cbn [foldM] in E.
  - injection E as <-. apply Hr.
  - destruct (f s x) as [s1|] eqn:E1; [|discriminate]. cbn [bind] in E.
    eapply Ht; [eapply Hf; exact E1|apply IH; exact E].
Qed.

(** What the step for one element of the list establishes, and the later
    steps keep, holds at the end of the loop. *)
Lemma foldM_reaches {S X} (f : S -> X -> result S) (P : S -> Prop)
      (l : list X) (x : X) :
  In x l ->
  (forall s s', f s x = Ok s' -> P s') ->
  (forall y s s', f s y = Ok s' -> P s -> P s') ->
  forall s s', foldM f l s = Ok s' -> P s'.
Proof.
  intros Hin Hx Hk. induction l as [|y l IH]; [contradiction|].
  intros s s' E. cbn [foldM] in E.
  destruct (f s y) as [s1|] eqn:E1; [|discriminate]. cbn [bind] in E.
  destruct Hin as [->|Hin].
  - eapply (@foldM_preserves _ _ f P); [|eapply Hx; exact E1|exact E].
    intros z a b _ Ha Hb. eapply Hk; eauto.
  - eapply IH; eauto.
Qed.

Lemma keeps_filled_refl (st : locals) : keeps_filled st st.
Proof. unfold keeps_filled. conj_each ltac:(intros H; exact H). Qed.

Lemma keeps_filled_trans (a b c : locals) :
  keeps_filled a b -> keeps_filled b c -> keeps_filled a c.
Proof.
  unfold keeps_filled.
  intros (A1 & A2 & A3 & A4 & A5 & A6 & A7 & A8 & A9)
         (B1 & B2 & B3 & B4 & B5 & B6 & B7 & B8 & B9).
  conj_each ltac:(auto).
Qed.

Ltac keeps_now :=
  unfold keeps_filled; cbn;
  conj_each ltac:(intros ?; (assumption || discriminate)).

Lemma gmt_step_keeps (kv : gname * option str) (st st' : locals) :
  gmt_step st kv = Ok st' -> keeps_filled st st'.
Proof.
  destruct kv as [n [v|]]; [|intros [= <-]; apply keeps_filled_refl].
  unfold gmt_step. cbn [fst snd].
  destruct n; try (intros [= <-]; apply keeps_filled_refl).
  - intros [= <-]. keeps_now.
  - destruct (py_int v); [|discriminate]. intros [= <-]. keeps_now.
  - destruct (py_int v); [|discriminate]. intros [= <-]. keeps_now.
Qed.

Lemma field_step_keeps (kv : gname * option str) (st st' : locals) :
  field_step st kv = Ok st' -> keeps_filled st st'.
Proof.
  destruct kv as [n [v|]]; [|intros [= <-]; apply keeps_filled_refl].
  unfold field_step. cbn [fst snd].
  destruct n; try (intros [= <-]; apply keeps_filled_refl).
  - destruct (py_int v); [|discriminate]. intros [= <-]. keeps_now.
  - destruct (py_int v); [|discriminate]. intros [= <-]. keeps_now.
  - destruct (py_int v); [|discriminate]. intros [= <-]. keeps_now.
  - intros [= <-]. keeps_now.
  - intros [= <-]. keeps_now.
  - intros [= <-]. keeps_now.
  - destruct (re_search _regex_gmt v) as [[p mg]|].
    + intros E. eapply keeps_filled_trans;
        [|eapply (@foldM_rel _ _ gmt_step keeps_filled);
          [apply keeps_filled_refl|apply keeps_filled_trans| |exact E]].
      * keeps_now.
      * intros x s s'. apply gmt_step_keeps.
    + intros [= <-]. keeps_now.
Qed.

Lemma gmt_step_fills (n : gname) (v : str) (st st' : locals) :
  gmt_step st (n, Some v) = Ok st' -> gmt_filled_for n st'.
Proof.
  unfold gmt_step. cbn [fst snd].
  destruct n; cbn [gmt_filled_for]; try exact (fun _ => I).
  - intros [= <-]. discriminate.
  - destruct (py_int v); [|discriminate]. intros [= <-]. discriminate.
  - destruct (py_int v); [|discriminate]. intros [= <-]. discriminate.
Qed.

Lemma gmt_filled_kept (n : gname) (st st' : locals) :
  keeps_filled st st' -> gmt_filled_for n st -> gmt_filled_for n st'.
Proof.
  intros (_ & _ & _ & _ & _ & _ & K7 & K8 & K9).
  destruct n; cbn [gmt_filled_for]; auto.
Qed.

Lemma catalog_gmt_captures :
  captures g_gmt_sign _regex_gmt && captures g_gmt_hours _regex_gmt = true.
Proof. vm_compute. reflexivity. Qed.

Lemma field_step_fills (n : gname) (v : str) (st st' : locals) :
  field_step st (n, Some v) = Ok st' -> filled_for n v st'.
Proof.
  unfold field_step. cbn [fst snd].
  destruct n; cbn [filled_for]; try exact (fun _ => I).
  - destruct (py_int v); [|discriminate]. intros [= <-]. discriminate.
  - destruct (py_int v); [|discriminate]. intros [= <-]. discriminate.
  - destruct (py_int v); [|discriminate]. intros [= <-]. discriminate.
  - intros [= <-]. discriminate.
  - intros [= <-]. discriminate.
  - intros [= <-]. discriminate.
  - destruct (re_search _regex_gmt v) as [[p mg]|] eqn:Es; [|congruence].
    intros E _.
    pose proof catalog_gmt_captures as C. apply andb_prop in C as [C1 C2].
    destruct (@search_captured g_gmt_sign _regex_gmt v p mg C1 Es) as (v1 & H1).
    destruct (@search_captured g_gmt_hours _regex_gmt v p mg C2 Es) as (v2 & H2).
    split.
    + apply (@foldM_reaches _ _ gmt_step (gmt_filled_for g_gmt_sign) _ _ H1) in E;
        [exact E| |].
      * intros s s'. apply gmt_step_fills.
      * intros y s s' Hy. apply gmt_filled_kept. eapply gmt_step_keeps; eauto.
    + apply (@foldM_reaches _ _ gmt_step (gmt_filled_for g_gmt_hours) _ _ H2) in E;
        [exact E| |].
      * intros s s'. apply gmt_step_fills.
      * intros y s s' Hy. apply gmt_filled_kept. eapply gmt_step_keeps; eauto.
Qed.

Lemma filled_kept (n : gname) (v : str) (st st' : locals) :
  keeps_filled st st' -> filled_for n v st -> filled_for n v st'.
Proof.
  intros (K1 & K2 & K3 & K4 & K5 & K6 & K7 & K8 & K9).
  destruct n; cbn [filled_for]; auto.
  intros H Hs. destruct (H Hs). auto.
Qed.

(** Every group that the match captured fills its field of the record. *)
Lemma normalize_fills (c : _Candidate) (r : TimeValue) (m : mobj) :
  normalize c = Ok r ->
  re_match (cand_regex c) (cand_match_text c) = Some m ->
  forall n v,
    In (n, Some v) (groupdict (cand_regex c) (cand_match_text c) m) ->
    filled_for n v (locals_of r).
Proof.
  unfold normalize. intros H Hm. rewrite Hm in H.
  destruct (foldM field_step _ empty_locals) as [l|] eqn:E; [|discriminate].
  cbn [bind] in H. injection H as <-. intros n v Hin.
  apply (@foldM_reaches _ _ field_step (filled_for n v) _ _ Hin) in E.
  - destruct n; cbn [filled_for locals_of] in *; cbn; exact E.
  - intros s s'. apply field_step_fills.
  - intros y s s' Hy. apply filled_kept. eapply field_step_keeps; eauto.
Qed.

(** A record of a run, with the match it was made from: the fields that are
    filled come from groups that were captured, and the groups that were
    captured fill their fields. *)
Lemma run_record_match (sentence : str) (rs : list TimeValue) (r : TimeValue) :
  run sentence = Ok rs -> In r rs ->
  exists regex m,
    In regex _regexes /\ re_match regex (text r) = Some m /\
    record_from (groupdict regex (text r) m) r /\
    (forall n v, In (n, Some v) (groupdict regex (text r) m) ->
                 filled_for n v (locals_of r)).
Proof.
  intros H Hin.
  destruct (run_result_origin _ _ H Hin) as (c & _ & Hs & Hn & (Ht & _) & _).
  destruct (normalize_from _ Hn) as (m & Hm & Hf).
  pose proof (@normalize_fills c r m Hn Hm) as Hfill.
  destruct Hs as (regex & st & en & g & Hr & _ & ->).
  cbn [cand_regex cand_match_text] in *. rewrite <- Ht in Hm, Hf, Hfill.
  exists regex, m. auto.
Qed.

(** In every pattern of the catalog the hours are always captured; a pattern
    with a group for the seconds always captures the minutes, and one with a
    group for the fraction always captures the seconds. *)
Lemma catalog_time_fields :
  forallb (fun r => captures g_hours r
                    && implb (has_group g_seconds r) (captures g_minutes r)
                    && implb (has_group g_frac r) (captures g_seconds r))
          _regexes = true.
Proof. vm_compute. reflexivity. Qed.

Lemma implb_true (a b : bool) : implb a b = true -> a = true -> b = true.
Proof. now destruct a, b. Qed.

(** X12 (the time fields nest).  Every record has its hours; seconds are
    only filled together with minutes, and fractional seconds only together
    with seconds. *)
Theorem X12_time_fields_nest
        (sentence : str) (rs : list TimeValue) (r : TimeValue) :
  run sentence = Ok rs -> In r rs ->
  (exists h, hours r = Some h)
  /\ (seconds r <> None -> minutes r <> None)
  /\ (fractional_seconds r <> None -> seconds r <> None).
Proof.
  intros H Hin.
  destruct (run_record_match _ _ H Hin) as (regex & m & Hr & Hm & Hf & Hfill).
  pose proof catalog_time_fields as C. rewrite forallb_forall in C.
  specialize (C regex Hr). apply andb_prop in C as [C C3].
  apply andb_prop in C as [C1 C2].
  destruct Hf as (_ & _ & F3 & F4 & _).
  split; [|split].
  - destruct (@groupdict_captured g_hours regex (text r) m C1 Hm) as (v & Hv).
    apply Hfill in Hv. cbn in Hv. destruct (hours r) as [h|]; [eauto|congruence].
  - intros Hs. destruct (seconds r) as [z|]; [|congruence].
    destruct (F3 z eq_refl) as (v & Hv & _).
    apply groupdict_key, has_group_In in Hv.
    pose proof (@implb_true _ _ C2 Hv) as Cm.
    destruct (@groupdict_captured g_minutes regex (text r) m Cm Hm) as (v' & Hv').
    apply Hfill in Hv'. exact Hv'.
  - intros Hs. destruct (fractional_seconds r) as [f|]; [|congruence].
    destruct (F4 f eq_refl) as (v & Hv & _).
    apply groupdict_key, has_group_In in Hv.
    pose proof (@implb_true _ _ C3 Hv) as Cm.
    destruct (@groupdict_captured g_seconds regex (text r) m Cm Hm) as (v' & Hv').
    apply Hfill in Hv'. exact Hv'.
Qed.

Lemma X12_witness :
  let r := mkTimeValue (py "08:11:40.123456") 0 15 (Some 8%Z) (Some 11%Z)
                       (Some 40%Z) (Some (py "123456")) None None None None
                       None in
  run (py "08:11:40.123456") = Ok [r]
  /\ (exists h, hours r = Some h)
  /\ (seconds r <> None -> minutes r <> None)
  /\ (fractional_seconds r <> None -> seconds r <> None).
Proof.
  intros r.
  assert (E : run (py "08:11:40.123456") = Ok [r]) by (vm_compute; reflexivity).
  split; [exact E|].
  exact (@X12_time_fields_nest _ _ r E (or_introl eq_refl)).
Defined.

(** The delta that an offset field was read from. *)
Lemma from_delta_found (d : list (gname * option str)) (n : gname) (w : str) :
  from_delta d n w ->
  exists v, In (g_gmt_delta, Some v) d /\ re_search _regex_gmt v <> None.
Proof.
  intros (v & p & mg & a & b & Hv & Hs & _). exists v.
  split; [exact Hv|congruence].
Qed.

(** X13 (the fields of the offset come together).  In every record the sign
    and the hours of the offset are filled together or not at all, and the
    minutes of the offset are only filled together with them. *)
Theorem X13_offset_fields_come_together
        (sentence : str) (rs : list TimeValue) (r : TimeValue) :
  run sentence = Ok rs -> In r rs ->
  (gmt_delta_sign r <> None <-> gmt_delta_hours r <> None)
  /\ (gmt_delta_minutes r <> None ->
      gmt_delta_sign r <> None /\ gmt_delta_hours r <> None).
Proof.
  intros H Hin.
  destruct (run_record_match _ _ H Hin) as (regex & m & Hr & Hm & Hf & Hfill).
  destruct Hf as (_ & _ & _ & _ & _ & _ & F7 & F8 & F9).
  assert (K : forall n w, from_delta (groupdict regex (text r) m) n w ->
                          gmt_delta_sign r <> None /\ gmt_delta_hours r <> None).
  { intros n w Hd. apply from_delta_found in Hd as (v & Hv & Hs).
    apply Hfill in Hv. exact (Hv Hs). }
  split; [split|].
  - intros Hs. destruct (gmt_delta_sign r) as [x|]; [|congruence].
    exact (proj2 (K _ _ (F7 x eq_refl))).
  - intros Hs. destruct (gmt_delta_hours r) as [z|]; [|congruence].
    destruct (F8 z eq_refl) as (w & Hd & _). exact (proj1 (K _ _ Hd)).
  - intros Hs. destruct (gmt_delta_minutes r) as [z|]; [|congruence].
    destruct (F9 z eq_refl) as (w & Hd & _). exact (K _ _ Hd).
Qed.

Lemma X13_witness :
  let r := mkTimeValue (py "093000-05") 0 9 (Some 9%Z) (Some 30%Z) (Some 0%Z)
                       None None None (Some (py "-")) (Some 5%Z) None in
  run (py "093000-05") = Ok [r]
  /\ (gmt_delta_sign r <> None <-> gmt_delta_hours r <> None)
  /\ (gmt_delta_minutes r <> None ->
      gmt_delta_sign r <> None /\ gmt_delta_hours r <> None).
Proof.
  intros r.
  assert (E : run (py "093000-05") = Ok [r]) by (vm_compute; reflexivity).
  split; [exact E|].
  exact (@X13_offset_fields_come_together _ _ r E (or_introl eq_refl)).
Defined.

(* ------------------------------------------------------------------------- *)
(** * Further properties: what the fields hold *)

(** In a pattern with a meridiem the hours are those of the 12-hour clock
    and there is neither a timezone nor an offset; and a meridiem token with
    an a in it starts with a or A, one without starts with p or P. *)
Lemma catalog_meridiem :
  forallb (fun r =>
             implb (has_group g_am_pm r)
                   (bodies_pass g_hours (int_within 1 12) r
                    && negb (has_group g_timezone r)
                    && negb (has_group g_gmt_delta r))
             && bodies_pass g_am_pm
                  (fun v => if found "a" v || found "A" v
                            then reads_am v else reads_pm v) r)
          _regexes = true.
Proof. vm_compute. reflexivity. Qed.

(** X14 (records with a meridiem).  A record whose am_pm is filled has its
    hours on the 12-hour clock, from 1 to 12, and neither a timezone nor an
    offset; am_pm is "am" when the meridiem token of the text starts with a
    or A and "pm" when it starts with p or P, and the token always starts
    with one of the four. *)
Theorem X14_meridiem_records
        (sentence : str) (rs : list TimeValue) (r : TimeValue) (w : str) :
  run sentence = Ok rs -> In r rs -> am_pm r = Some w ->
  (exists h, hours r = Some h /\ (1 <= h <= 12)%Z)
  /\ timezone r = None
  /\ (gmt_delta_sign r = None /\ gmt_delta_hours r = None
      /\ gmt_delta_minutes r = None)
  /\ exists regex m token,
       In regex _regexes /\ re_match regex (text r) = Some m
       /\ In (g_am_pm, Some token) (groupdict regex (text r) m)
       /\ ((w = py "am" /\ reads_am token = true)
           \/ (w = py "pm" /\ reads_pm token = true)).
Proof.
  intros H Hin Hw.
  destruct (run_record_match _ _ H Hin) as (regex & m & Hr & Hm & Hf & Hfill).
  destruct Hf as (F1 & _ & _ & _ & F5 & F6 & F7 & F8 & F9).
  destruct (F5 w Hw) as (token & Ht & Ew).
  pose proof catalog_meridiem as C. rewrite forallb_forall in C.
  specialize (C regex Hr). apply andb_prop in C as [C Ca].
  pose proof (@groupdict_key regex (text r) m g_am_pm (Some token) Ht) as Hg. apply has_group_In in Hg.
  pose proof (@implb_true _ _ C Hg) as C'.
  apply andb_prop in C' as [C' Cd]. apply andb_prop in C' as [Ch Ct].
  assert (Nd : forall n w', from_delta (groupdict regex (text r) m) n w' -> False).
  { intros n w' Hd. apply from_delta_found in Hd as (v & Hv & _).
    apply groupdict_key, has_group_In in Hv. rewrite Hv in Cd. discriminate. }
  split; [|split; [|split]].
  - pose proof catalog_time_fields as T. rewrite forallb_forall in T.
    specialize (T regex Hr). apply andb_prop in T as [T _].
    apply andb_prop in T as [T _].
    destruct (@groupdict_captured g_hours regex (text r) m T Hm) as (v & Hv).
    pose proof (Hfill _ _ Hv) as Hh. cbn in Hh.
    destruct (hours r) as [h|] eqn:Eh; [|congruence].
    exists h. split; [reflexivity|].
    destruct (F1 h eq_refl) as (vh & Hvh & Eint).
    destruct (@groupdict_lang regex (text r) m g_hours vh Hm Hvh) as (body & Hb & L).
    pose proof (@bodies_pass_ok g_hours _ regex body vh Ch Hb L) as K.
    apply int_within_inv in K as (z & Ez & Hz). congruence.
  - destruct (timezone r) as [t|]; [|reflexivity].
    destruct (F6 t eq_refl) as (v & Hv & _).
    apply groupdict_key, has_group_In in Hv. rewrite Hv in Ct. discriminate.
  - split; [|split].
    + destruct (gmt_delta_sign r) as [x|]; [|reflexivity].
      destruct (Nd _ _ (F7 x eq_refl)).
    + destruct (gmt_delta_hours r) as [z|]; [|reflexivity].
      destruct (F8 z eq_refl) as (w' & Hd & _). destruct (Nd _ _ Hd).
    + destruct (gmt_delta_minutes r) as [z|]; [|reflexivity].
      destruct (F9 z eq_refl) as (w' & Hd & _). destruct (Nd _ _ Hd).
  - exists regex, m, token. split; [exact Hr|]. split; [exact Hm|].
    split; [exact Ht|].
    destruct (@groupdict_lang regex (text r) m g_am_pm token Hm Ht) as (body & Hb & L).
    pose proof (@bodies_pass_ok g_am_pm _ regex body token Ca Hb L) as K. cbv beta in K.
    destruct (found "a" token || found "A" token); [left|right]; auto.
Qed.

Lemma X14_witness :
  let r := mkTimeValue (py "9:41 P.M.") 0 9 (Some 9%Z) (Some 41%Z) None None
                       (Some (py "pm")) None None None None in
  run (py "9:41 P.M.") = Ok [r]
  /\ (exists h, hours r = Some h /\ (1 <= h <= 12)%Z)
  /\ timezone r = None
  /\ (gmt_delta_sign r = None /\ gmt_delta_hours r = None
      /\ gmt_delta_minutes r = None)
  /\ exists regex m token,
       In regex _regexes /\ re_match regex (text r) = Some m
       /\ In (g_am_pm, Some token) (groupdict regex (text r) m)
       /\ ((py "pm" = py "am" /\ reads_am token = true)
           \/ (py "pm" = py "pm" /\ reads_pm token = true)).
Proof.
  intros r.
  assert (E : run (py "9:41 P.M.") = Ok [r]) by (vm_compute; reflexivity).
  split; [exact E|].
  exact (@X14_meridiem_records _ _ r (py "pm") E (or_introl eq_refl) eq_refl).
Defined.







(** Every group for the fraction starts with a set that only holds the
    separators "." and ":". *)
Lemma catalog_frac_heads :
  forallb (fun r =>
             forallb (fun b =>
                        match b with
                        | Seq (Chr p0) _ =>
                            forallb (fun x => implb (p0 x) (one_of ".:" x))
                                    all_ascii
                        | _ => false
                        end)
                     (group_bodies g_frac r))
          _regexes = true.
Proof. vm_compute. reflexivity. Qed.

(** X16 (the fraction is copied from the text).  When fractional_seconds is
    filled, the text of the record holds a "." or a ":" followed by exactly
    the characters of the field: the digits are kept as written, leading
    zeros included, and the separator is dropped. *)
Theorem X16_fraction_is_copied_from_the_text
        (sentence : str) (rs : list TimeValue) (r : TimeValue) (f : str) :
  run sentence = Ok rs -> In r rs -> fractional_seconds r = Some f ->
  exists a b x, slice (text r) a b = x :: f /\ one_of ".:" x = true.
Proof.
  intros H Hin Hw.
  destruct (run_record_match _ _ H Hin) as (regex & m & Hr & Hm & Hf & _).
  destruct Hf as (_ & _ & _ & F4 & _).
  destruct (F4 f Hw) as (v & Hv & ->).
  destruct (@groupdict_lang regex (text r) m g_frac v Hm Hv) as (body & Hb & L).
  apply groupdict_In in Hv as (a & b & _ & Ev).
  pose proof catalog_frac_heads as C. rewrite forallb_forall in C.
  specialize (C regex Hr). rewrite forallb_forall in C. specialize (C body Hb).
  destruct body as [|p|[|p0| | | | | | |] r2| | | | | |]; try discriminate.
  cbn [lang] in L. destruct L as (u & t & -> & (x & -> & Px) & _).
  exists a, b, x. rewrite <- Ev. split; [reflexivity|].
  pose proof (by_all_ascii _ C x) as K. cbv beta in K.
  rewrite Px in K. exact K.
Qed.

Lemma X16_witness :
  let r := mkTimeValue (py "7:11:39:0123 a.m.") 0 17 (Some 7%Z) (Some 11%Z)
                       (Some 39%Z) (Some (py "0123")) (Some (py "am")) None
                       None None None in
  run (py "7:11:39:0123 a.m.") = Ok [r]
  /\ exists a b x, slice (text r) a b = x :: py "0123" /\ one_of ".:" x = true.
Proof.
  intros r.
  assert (E : run (py "7:11:39:0123 a.m.") = Ok [r]) by (vm_compute; reflexivity).
  split; [exact E|].
  exact (@X16_fraction_is_copied_from_the_text _ _ r (py "0123") E
           (or_introl eq_refl) eq_refl).
Defined.

(** The groups for the hours take one or two digits, those for the minutes
    and the seconds exactly two. *)
Lemma catalog_number_groups :
  forallb (fun r =>
             bodies_pass g_hours
               (fun v => (1 <=? length v) && (length v <=? 2)
                         && forallb is_digit v) r
             && bodies_pass g_minutes
                  (fun v => (length v =? 2) && forallb is_digit v) r
             && bodies_pass g_seconds
                  (fun v => (length v =? 2) && forallb is_digit v) r)
          _regexes = true.
Proof. vm_compute. reflexivity. Qed.

(** X17 (the numbers are read off the text).  The hours of a record are the
    value of one or two decimal digits that stand in its text, and the
    minutes and the seconds, when filled, the value of exactly two. *)
Theorem X17_numbers_are_read_off_the_text
        (sentence : str) (rs : list TimeValue) (r : TimeValue) :
  run sentence = Ok rs -> In r rs ->
  (forall z, hours r = Some z ->
     exists a b, py_int (slice (text r) a b) = Ok z
                 /\ forallb is_digit (slice (text r) a b) = true
                 /\ 1 <= length (slice (text r) a b) <= 2)
  /\ (forall z, minutes r = Some z ->
        exists a b, py_int (slice (text r) a b) = Ok z
                    /\ forallb is_digit (slice (text r) a b) = true
                    /\ length (slice (text r) a b) = 2)
  /\ (forall z, seconds r = Some z ->
        exists a b, py_int (slice (text r) a b) = Ok z
                    /\ forallb is_digit (slice (text r) a b) = true
                    /\ length (slice (text r) a b) = 2).
Proof.
  intros H Hin.
  destruct (run_record_match _ _ H Hin) as (regex & m & Hr & Hm & Hf & _).
  destruct Hf as (F1 & F2 & F3 & _).
  pose proof catalog_number_groups as C. rewrite forallb_forall in C.
  specialize (C regex Hr). apply andb_prop in C as [C C3].
  apply andb_prop in C as [C1 C2].
  split; [|split]; intros z Hz.
  - destruct (F1 z Hz) as (v & Hv & Ez).
    destruct (@groupdict_lang regex (text r) m g_hours v Hm Hv) as (body & Hb & L).
    pose proof (@bodies_pass_ok g_hours _ regex body v C1 Hb L) as K.
    cbv beta in K. apply andb_prop in K as [K Kd]. apply andb_prop in K as [K1 K2].
    apply groupdict_In in Hv as (a & b & _ & ->). exists a, b.
    apply Nat.leb_le in K1, K2. auto.
  - destruct (F2 z Hz) as (v & Hv & Ez).
    destruct (@groupdict_lang regex (text r) m g_minutes v Hm Hv) as (body & Hb & L).
    pose proof (@bodies_pass_ok g_minutes _ regex body v C2 Hb L) as K.
    cbv beta in K. apply andb_prop in K as [K Kd].
    apply groupdict_In in Hv as (a & b & _ & ->). exists a, b.
    apply Nat.eqb_eq in K. auto.
  - destruct (F3 z Hz) as (v & Hv & Ez).
    destruct (@groupdict_lang regex (text r) m g_seconds v Hm Hv) as (body & Hb & L).
    pose proof (@bodies_pass_ok g_seconds _ regex body v C3 Hb L) as K.
    cbv beta in K. apply andb_prop in K as [K Kd].
    apply groupdict_In in Hv as (a & b & _ & ->). exists a, b.
    apply Nat.eqb_eq in K. auto.
Qed.

Lemma X17_witness :
  let r := mkTimeValue (py "4 am") 3 7 (Some 4%Z) None None None
                       (Some (py "am")) None None None None in
  run (py "at 4 am") = Ok [r]
  /\ exists a b, py_int (slice (text r) a b) = Ok 4%Z
                 /\ forallb is_digit (slice (text r) a b) = true
                 /\ 1 <= length (slice (text r) a b) <= 2.
Proof.
  intros r.
  assert (E : run (py "at 4 am") = Ok [r]) by (vm_compute; reflexivity).
  split; [exact E|].
  exact (proj1 (@X17_numbers_are_read_off_the_text _ _ r E (or_introl eq_refl))
               4%Z eq_refl).
Defined.

(* ------------------------------------------------------------------------- *)
(** * Further properties: how much a run returns *)

Local Open Scope Z_scope.

(** Records in reading order inside [[lo, L)] take no more room than there
    is. *)
Lemma ordered_total (L : Z) (l : list TimeValue) :
  in_reading_order l ->
  Forall (fun r => 0 <= start r < end_ r /\ end_ r <= L
                   /\ Z.of_nat (length (text r)) = end_ r - start r) l ->
  forall lo, lo <= L -> Forall (fun r => lo <= start r) l ->
  Z.of_nat (length (concat (map text l))) <= L - lo
  /\ Z.of_nat (length l) <= Z.of_nat (length (concat (map text l))).
Proof.
  unfold in_reading_order.
  induction 1 as [|a l Hl IH Ha]; intros Hsp lo Hlo Hge.
  - cbn. lia.
  - inversion Hsp as [|? ? (Ha1 & Ha2 & Ha3) Hsp']; subst.
    inversion Hge as [|? ? Hga _]; subst.
    destruct (IH Hsp' (end_ a) Ha2 Ha) as [I1 I2].
    cbn [map concat length]. rewrite length_app. lia.
Qed.

(** X18 (no more than the sentence holds).  The texts of the records of a
    run, put together, are no longer than the sentence, and there are no more
    records than the sentence has characters. *)
Theorem X18_records_fit_in_the_sentence (sentence : str) (rs : list TimeValue) :
  run sentence = Ok rs ->
  (length (concat (map text rs)) <= length sentence)%nat
  /\ (length rs <= length sentence)%nat.
Proof.
  intros H.
  assert (Ho : in_reading_order rs).
  { apply apart_in_order.
    - apply Forall_forall. intros r Hr.
      destruct (run_record_span _ _ H Hr) as (? & _). lia.
    - destruct (run_inv _ H) as (results & _ & ->). apply sorted_sorted.
    - exact (@run_pairwise_apart sentence rs H). }
  destruct (@ordered_total (Z.of_nat (length sentence)) rs Ho) with (lo := 0)
    as [T1 T2].
  - apply Forall_forall. intros r Hr. exact (run_record_span _ _ H Hr).
  - lia.
  - apply Forall_forall. intros r Hr.
    destruct (run_record_span _ _ H Hr) as (? & _). lia.
  - lia.
Qed.

Lemma X18_witness :
  run (py "12:104050 EST")
  = Ok [ mkTimeValue (py "12") 0 2 (Some 12%Z) None None None None None
                     None None None;
         mkTimeValue (py "104050 EST") 3 13 (Some 10%Z) (Some 40%Z) (Some 50%Z)
                     None None (Some (py "EST")) None None None ]
  /\ (length (py "12" ++ py "104050 EST" ++ []) <= length (py "12:104050 EST"))%nat
  /\ (2 <= length (py "12:104050 EST"))%nat.
Proof.
  assert (E : run (py "12:104050 EST")
              = Ok [ mkTimeValue (py "12") 0 2 (Some 12%Z) None None None None
                                 None None None None;
                     mkTimeValue (py "104050 EST") 3 13 (Some 10%Z) (Some 40%Z)
                                 (Some 50%Z) None None (Some (py "EST")) None
                                 None None ])
    by (vm_compute; reflexivity).
  split; [exact E|].
  exact (X18_records_fit_in_the_sentence _ E).
Defined.

Local Close Scope Z_scope.

(* ------------------------------------------------------------------------- *)
(** * Further properties: letter case *)

(** X20 (case insensitivity where the letter z keeps its case).  For two
    sentences that are the same up to the case of their ASCII letters and in
    which every letter z has the same case, [run] returns records with the
    same spans and the same hours, minutes, seconds, fractional_seconds,
    am_pm and offset fields; the text and the timezone are reported as
    written, so they are the same up to the case of their letters.  The
    sentences may hold the letter z anywhere; only its case is not changed. *)
Theorem X20_case_insensitive_where_z_keeps_its_case
        (s s' : str) (rs rs' : list TimeValue) :
  case_eq s s' -> zed_kept s s' -> run s = Ok rs -> run s' = Ok rs' ->
  Forall2 same_reading rs rs'.
Proof. apply run_same_reading. Qed.

Lemma X20_witness :
  Forall2 same_reading
    [ mkTimeValue (py "4 PM") 9 13 (Some 4%Z) None None None (Some (py "pm"))
                  None None None None;
      mkTimeValue (py "T093000 NZST") 17 29 (Some 9%Z) (Some 30%Z) (Some 0%Z)
                  None None (Some (py "NZST")) None None None ]
    [ mkTimeValue (py "4 pm") 9 13 (Some 4%Z) None None None (Some (py "pm"))
                  None None None None;
      mkTimeValue (py "t093000 nZst") 17 29 (Some 9%Z) (Some 30%Z) (Some 0%Z)
                  None None (Some (py "nZst")) None None None ].
Proof.
  assert (C : case_eq (py "pizza at 4 PM or T093000 NZST")
                      (py "Pizza AT 4 pm OR t093000 nZst"))
    by (repeat constructor).
  assert (Z : zed_kept (py "pizza at 4 PM or T093000 NZST")
                       (py "Pizza AT 4 pm OR t093000 nZst"))
    by (repeat constructor; intros K; (reflexivity || discriminate K)).
  assert (E : run (py "pizza at 4 PM or T093000 NZST")
              = Ok [ mkTimeValue (py "4 PM") 9 13 (Some 4%Z) None None None
                                 (Some (py "pm")) None None None None;
                     mkTimeValue (py "T093000 NZST") 17 29 (Some 9%Z)
                                 (Some 30%Z) (Some 0%Z) None None
                                 (Some (py "NZST")) None None None ])
    by (vm_compute; reflexivity).
  assert (E' : run (py "Pizza AT 4 pm OR t093000 nZst")
               = Ok [ mkTimeValue (py "4 pm") 9 13 (Some 4%Z) None None None
                                  (Some (py "pm")) None None None None;
                      mkTimeValue (py "t093000 nZst") 17 29 (Some 9%Z)
                                  (Some 30%Z) (Some 0%Z) None None
                                  (Some (py "nZst")) None None None ])
    by (vm_compute; reflexivity).
  exact (X20_case_insensitive_where_z_keeps_its_case C Z E E').
Defined.
